(** * Pixel-aligned implicit-function reconstruction: query, normals, meshing

    A shallow embedding of

    - [torchy/model/HGPIFuNet.py]  (the feature-query oracle: [filter],
      [query], [calc_normal], [get_im_feat]),
    - [apps/recon_mrv2.py]         ([reshape_multiview_tensors],
      [reshape_sample_tensor], [gen_mesh], [recon]),
    - [apps/submit_eval.py]        (the job bounds handed to [recon]),

    together with the properties of the reconstruction pipeline that are
    stated about them.  Tensor entries are modelled as real numbers, a
    tensor of shape [B, 1, N] as a list (batch) of lists (points), Python
    integers as [Z], Python objects with free attributes as finite maps
    from attribute names to values. *)

From Stdlib Require Import Reals Lra Lia ZArith List.
From stdpp Require Import base option list strings gmap pretty.

Set Default Proof Using "Type".

(* ===================================================================== *)
(** * Part I: definitions                                                  *)
(* ===================================================================== *)

(** ** Scalars and 3-vectors *)

Module Vec.
Local Open Scope R_scope.

(** One column of a [B, 3, N] tensor. *)
Record vec3 : Type := mk { x : R; y : R; z : R }.

Definition zero : vec3 := mk 0 0 0.

Definition add (a b : vec3) : vec3 := mk (x a + x b) (y a + y b) (z a + z b).
Definition opp (a : vec3) : vec3 := mk (- x a) (- y a) (- z a).

(** [torch.norm(v, 2, dim=1)] on one column. *)
Definition norm2 (a : vec3) : R := sqrt (x a * x a + y a * y a + z a * z a).

(** [F.normalize(v, dim=1, eps)]: [v / max(||v||_2, eps)]. *)
Definition normalize (eps : R) (a : vec3) : vec3 :=
  let d := Rmax (norm2 a) eps in mk (x a / d) (y a / d) (z a / d).

(** Comparison of tensor entries, as a mask entry. *)
Definition geb (a b : R) : bool := if Rle_dec b a then true else false.
Definition leb (a b : R) : bool := if Rle_dec a b then true else false.

(** [mask.float()] *)
Definition float (b : bool) : R := if b then 1 else 0.

(** [torch.nn.Sigmoid] *)
Definition sigmoid (t : R) : R := 1 / (1 + exp (- t)).

(** [c * a] *)
Definition scale (c : R) (a : vec3) : vec3 := mk (c * x a) (c * y a) (c * z a).
End Vec.

(** ** [torchy/model/HGPIFuNet.py] *)

Module HGPIFuNet.
Import Vec.
Local Open Scope R_scope.

(** [opt.sp_enc_type]; [__init__] raises [NameError] for any other value. *)
Inductive sp_enc : Type := vol_enc | z_enc.

(** The collaborators of [HGPIFuNet] that live in other modules
    ([HGFilter], [VolumetricEncoder] / [DepthNormalizer], the
    [projection] and [index] of [BasePIFuNet], the layers of [MLP] before
    its last operation).  They act on one point of one batch element at a
    time: the second index of a [B, _, N] tensor is the batch element. *)
Class Collaborators : Type := {
  Images : Type;
  ImFeat : Type;
  NormX : Type;
  VolFeat : Type;
  Calibs : Type;
  Transforms : Type;
  image_filter : Images -> list ImFeat * NormX;
  vol_filter : Images -> VolFeat;
  projection : Calibs -> option Transforms -> nat -> vec3 -> vec3;
  index : ImFeat -> nat -> R * R -> list R;
  spatial_enc : sp_enc -> option VolFeat -> Calibs -> nat -> vec3 -> list R;
  mlp_body : list R -> R
}.

(** A tensor of shape [B, 1, N], and one of shape [B, 3, N]. *)
Abbreviation Tensor1 := (list (list R)).
Abbreviation Tensor3 := (list (list vec3)).

(** Pointwise maps over a [B, _, N] tensor; [tmapi] also passes the index
    of the batch element. *)
Definition tmap {A B : Type} (f : A -> B) (t : list (list A)) : list (list B) :=
  fmap (M:=list) (fmap (M:=list) f) t.
Definition tmapi {A B : Type} (f : nat -> A -> B) (t : list (list A))
    : list (list B) :=
  imap (fun b => fmap (M:=list) (f b)) t.

Section Net.
Context {C : Collaborators}.

(** Modelled from the spec: the body of [MLP] is not in the source tree;
    the network is built with [last_op=nn.Sigmoid()], and "each
    prediction is the output of an MLP with a final Sigmoid". *)
Definition mlp (feat : list R) : R := sigmoid (mlp_body feat).

(** The attributes of [self] that [filter], [query] and [calc_normal]
    read or write. *)
Record Net : Type := mkNet {
  training : bool;
  sp_enc_type : sp_enc;
  sp_no_pifu : bool;
  vol_feat : option VolFeat;
  im_feat_list : list ImFeat;
  normx : option NormX;
  labels : option Tensor1;
  intermediate_preds_list : list Tensor1;
  preds : option Tensor1;
  labels_nml : option Tensor3;
  nmls : option Tensor3;
  preds_surface : option Tensor1
}.

Definition set_filtered (s : Net) (vf : option VolFeat)
    (feats : list ImFeat) (nx : NormX) : Net :=
  mkNet (training s) (sp_enc_type s) (sp_no_pifu s) vf feats (Some nx)
        (labels s) (intermediate_preds_list s) (preds s)
        (labels_nml s) (nmls s) (preds_surface s).

Definition set_queried (s : Net) (lbl : option Tensor1)
    (inter : list Tensor1) (p : Tensor1) : Net :=
  mkNet (training s) (sp_enc_type s) (sp_no_pifu s) (vol_feat s)
        (im_feat_list s) (normx s)
        lbl inter (Some p)
        (labels_nml s) (nmls s) (preds_surface s).

Definition set_normals (s : Net) (lbl : option Tensor3)
    (n : Tensor3) (surf : Tensor1) : Net :=
  mkNet (training s) (sp_enc_type s) (sp_no_pifu s) (vol_feat s)
        (im_feat_list s) (normx s)
        (labels s) (intermediate_preds_list s) (preds s)
        lbl (Some n) (Some surf).

(** [filter]: [None] is the [IndexError] of [self.im_feat_list[-1]] on
    an empty list. *)
Definition filter (s : Net) (images : Images) : option Net :=
  let vf := match sp_enc_type s with
            | vol_enc => Some (vol_filter images)
            | z_enc => vol_feat s
            end in
  let '(feats, nx) := image_filter images in
  if training s then Some (set_filtered s vf feats nx)
  else match last feats with
       | Some f => Some (set_filtered s vf [f] nx)
       | None => None
       end.

(** [(xyz >= -1) & (xyz <= 1)], one entry per coordinate. *)
Definition in_bb3 (q : vec3) : bool * bool * bool :=
  (geb (x q) (-1) && leb (x q) 1,
   geb (y q) (-1) && leb (y q) 1,
   geb (z q) (-1) && leb (z q) 1).

(** [in_bb[:, 0, :] & in_bb[:, 1, :] & in_bb[:, 2, :]], then [.float()]. *)
Definition in_bb1 (q : vec3) : R :=
  let '(bx, by_, bz) := in_bb3 q in float (bx && by_ && bz).

(** Elementwise product of two [B, 1, N] tensors. *)
Definition tmul (a b : Tensor1) : Tensor1 := zip_with (zip_with Rmult) a b.

(** [torch.cat([a, b], 1)] on per-point channel lists. *)
Definition cat1 (a b : list (list (list R))) : list (list (list R)) :=
  zip_with (zip_with (@app R)) a b.

(** The features fed to the MLP for every point of [xyz]. *)
Definition point_local_feat (s : Net) (calibs : Calibs)
    (im_feat : ImFeat) (xyz : Tensor3) : list (list (list R)) :=
  let xy := tmap (fun q => (x q, y q)) xyz in
  let sp_feat := tmapi (spatial_enc (sp_enc_type s) (vol_feat s) calibs) xyz in
  match sp_enc_type s, sp_no_pifu s with
  | vol_enc, true => sp_feat
  | _, _ => cat1 (tmapi (index im_feat) xy) sp_feat
  end.

(** [query]: the prediction is stored in [preds]; [None] is the
    [IndexError] of [self.intermediate_preds_list[-1]] when no feature
    is stored. *)
Definition query (s : Net) (points : Tensor3) (calibs : Calibs)
    (transforms : option Transforms) (lbls : option Tensor1) : option Net :=
  let xyz := tmapi (projection calibs transforms) points in
  let in_bb := tmap in_bb1 xyz in
  let lbl' := match lbls with
              | Some l => Some (tmul in_bb l)
              | None => labels s
              end in
  let inter :=
    fmap (M:=list)
         (fun im_feat =>
            tmul in_bb (tmap mlp (point_local_feat s calibs im_feat xyz)))
         (im_feat_list s) in
  match last inter with
  | Some p => Some (set_queried s lbl' inter p)
  | None => None
  end.

(** [pdx[:,0,:] += delta] and its two siblings. *)
Definition shift_x (delta : R) (p : vec3) : vec3 := mk (x p + delta) (y p) (z p).
Definition shift_y (delta : R) (p : vec3) : vec3 := mk (x p) (y p + delta) (z p).
Definition shift_z (delta : R) (p : vec3) : vec3 := mk (x p) (y p) (z p + delta).

(** [torch.stack([a, b, c, d], 3).view(B, 3, -1)] on one batch element:
    entry [4 j + k] is the [j]-th point of the [k]-th tensor. *)
Fixpoint stack4 {A : Type} (a b c d : list A) : list A :=
  match a, b, c, d with
  | a0 :: a', b0 :: b', c0 :: c', d0 :: d' =>
      a0 :: b0 :: c0 :: d0 :: stack4 a' b' c' d'
  | _, _, _, _ => []
  end.

(** [pred.view(B, 1, -1, 4)] on one batch element. *)
Fixpoint view4 (l : list R) : list (R * R * R * R) :=
  match l with
  | a :: b :: c :: d :: l' => (a, b, c, d) :: view4 l'
  | _ => []
  end.

(** [-torch.cat([dfdx, dfdy, dfdz], 1)] on one point. *)
Definition neg_diff (q : R * R * R * R) : vec3 :=
  let '(f0, fx, fy, fz) := q in
  opp (mk (fx - f0) (fy - f0) (fz - f0)).

Definition normalize_eps : R := 1e-8.
Definition default_delta : R := 0.1.

(** [calc_normal]; [fd_type] is accepted by the source and never read.
    [None] is the [IndexError] of [self.im_feat_list[-1]]. *)
Definition calc_normal (s : Net) (points : Tensor3) (calibs : Calibs)
    (transforms : option Transforms) (lbls : option Tensor3) (delta : R)
    : option Net :=
  let pdx := tmap (shift_x delta) points in
  let pdy := tmap (shift_y delta) points in
  let pdz := tmap (shift_z delta) points in
  let lbl' := match lbls with
              | Some l => Some l
              | None => labels_nml s
              end in
  let points_all : Tensor3 :=
    imap (fun b pts =>
            stack4 pts (default [] (pdx !! b)) (default [] (pdy !! b))
                   (default [] (pdz !! b))) points in
  let xyz := tmapi (projection calibs transforms) points_all in
  match last (im_feat_list s) with
  | None => None
  | Some im_feat =>
      let pred := tmap mlp (point_local_feat s calibs im_feat xyz) in
      let pred4 := fmap (M:=list) view4 pred in
      let nml := tmap neg_diff pred4 in
      let nml := tmap (normalize normalize_eps) nml in
      Some (set_normals s lbl' nml (tmap (fun q => q.1.1.1) pred4))
  end.

(** The features of one projected point [q] of batch element [b]. *)
Definition local_feat_at (s : Net) (calibs : Calibs) (im_feat : ImFeat)
    (b : nat) (q : vec3) : list R :=
  let sp := spatial_enc (sp_enc_type s) (vol_feat s) calibs b q in
  match sp_enc_type s, sp_no_pifu s with
  | vol_enc, true => sp
  | _, _ => index im_feat b (x q, y q) ++ sp
  end.

(** The occupancy network at one world point [p] of batch element [b]:
    projection, feature lookup, MLP. *)
Definition network_at (s : Net) (calibs : Calibs)
    (transforms : option Transforms) (im_feat : ImFeat) (b : nat) (p : vec3) : R :=
  mlp (local_feat_at s calibs im_feat b (projection calibs transforms b p)).

(** The prediction [query] stores for the feature map [im_feat], at one
    world point: the network masked by the bounding-box indicator. *)
Definition pred_at (s : Net) (calibs : Calibs)
    (transforms : option Transforms) (im_feat : ImFeat) (b : nat) (p : vec3) : R :=
  in_bb1 (projection calibs transforms b p)
  * network_at s calibs transforms im_feat b p.

(** The negated forward differences of the network at [p]. *)
Definition fd_vector (s : Net) (calibs : Calibs)
    (transforms : option Transforms) (im_feat : ImFeat) (delta : R)
    (b : nat) (p : vec3) : vec3 :=
  let F := network_at s calibs transforms im_feat b in
  opp (mk (F (shift_x delta p) - F p) (F (shift_y delta p) - F p)
          (F (shift_z delta p) - F p)).

(** At least one coordinate lies strictly outside [-1, 1]. *)
Definition outside_cube (q : vec3) : Prop :=
  x q < -1 \/ 1 < x q \/ y q < -1 \/ 1 < y q \/ z q < -1 \/ 1 < z q.

(** Every coordinate lies in [-1, 1]. *)
Definition inside_cube (q : vec3) : Prop :=
  -1 <= x q <= 1 /\ -1 <= y q <= 1 /\ -1 <= z q <= 1.

(** [get_im_feat]: [None] is the [IndexError] of [self.im_feat_list[-1]]. *)
Definition get_im_feat (s : Net) : option ImFeat := last (im_feat_list s).
End Net.

Arguments Net {C}.
End HGPIFuNet.

(** ** Python values, exceptions, slices *)

Module Py.
(** The values an option attribute or a dictionary entry can hold. *)
Inductive Val : Type :=
| VNone
| VBool (b : bool)
| VInt (n : Z)
| VStr (s : string).

#[global] Instance Val_eq_dec : EqDecision Val.
Proof. solve_decision. Defined.

(** What Python raises, with its class and its message: an instance of
    [Exception], or an instance of [BaseException] that is no [Exception]
    ([KeyboardInterrupt], [SystemExit], [GeneratorExit]). *)
Inductive exn : Type :=
| Exception (cls : string) (msg : string)
| BaseException (cls : string) (msg : string).

Inductive result (A : Type) : Type :=
| Ok (a : A)
| Err (e : exn).
Arguments Ok {A} a.
Arguments Err {A} e.

Definition TypeError : exn := Exception "TypeError" "".
Definition ValueError : exn := Exception "ValueError" "".
Definition AttributeError (name : string) : exn := Exception "AttributeError" name.
Definition KeyError (name : string) : exn := Exception "KeyError" name.
Definition UnboundLocalError (name : string) : exn :=
  Exception "UnboundLocalError" name.
Definition LinAlgError : exn := Exception "LinAlgError" "Singular matrix".
Definition RuntimeError : exn := Exception "RuntimeError" "".
Definition KeyboardInterrupt : exn := BaseException "KeyboardInterrupt" "".

(** What the clause [except Exception] matches. *)
Definition is_exception (e : exn) : Prop :=
  match e with
  | Exception _ _ => True
  | BaseException _ _ => False
  end.

(** An answer that is a value or an instance of [Exception]. *)
Definition ordinary {A : Type} (r : result A) : Prop :=
  match r with
  | Ok _ => True
  | Err e => is_exception e
  end.

(** [str(v)], which is what ['%s' % v] prints. *)
Definition str (v : Val) : string :=
  match v with
  | VNone => "None"
  | VBool true => "True"
  | VBool false => "False"
  | VInt n => pretty n
  | VStr s => s
  end.

(** ['%d' % v] *)
Definition fmt_d (v : Val) : result string :=
  match v with
  | VInt n => Ok (pretty n)
  | VBool b => Ok (if b then "1" else "0")
  | _ => Err TypeError
  end.

(** [v < 0] *)
Definition lt0 (v : Val) : result bool :=
  match v with
  | VInt n => Ok (n <? 0)%Z
  | VBool _ => Ok false
  | _ => Err TypeError
  end.

(** [needle in hay] for two strings. *)
Definition contains (needle hay : string) : bool :=
  match String.index 0 needle hay with
  | Some _ => true
  | None => false
  end.

(** [needle in v]: a [TypeError] unless [v] is a string. *)
Definition str_in (needle : string) (v : Val) : result bool :=
  match v with
  | VStr s => Ok (contains needle s)
  | _ => Err TypeError
  end.

(** [range(a, b)] *)
Definition range (a b : Z) : list Z := seqZ a (b - a).

(** One bound of a slice over a sequence of length [n]: negative bounds
    count from the end, and the result is clamped to [0, n]. *)
Definition clamp_index (n i : Z) : Z :=
  let i' := if (i <? 0)%Z then (i + n)%Z else i in
  Z.max 0 (Z.min n i').

(** The half-open index range selected by [start:stop]. *)
Definition slice_bounds (n start stop : Z) : nat * nat :=
  let a := clamp_index n start in
  let b := clamp_index n stop in
  (Z.to_nat a, Z.to_nat (b - a)).

(** [l[start:stop]] *)
Definition slice {A : Type} (start stop : Z) (l : list A) : list A :=
  let '(a, len) := slice_bounds (Z.of_nat (length l)) start stop in
  take len (drop a l).

(** numpy's [l[start:stop] = vals] for an array [l] of rows: the rows of
    [vals] replace the selected rows; a single row is broadcast; any
    other shape is a [ValueError]. *)
Definition assign_slice {A : Type} (start stop : Z) (vals l : list A)
    : result (list A) :=
  let '(a, len) := slice_bounds (Z.of_nat (length l)) start stop in
  if decide (length vals = len) then
    Ok (take a l ++ vals ++ drop (a + len) l)
  else match vals with
       | [v] => Ok (take a l ++ replicate len v ++ drop (a + len) l)
       | _ => Err ValueError
       end.

(** [s[:-4]] on a string. *)
Definition drop_last4 (s : string) : string :=
  String.substring 0 (String.length s - 4) s.
End Py.

(** ** Programs over external calls

    The code of [apps/recon_mrv2.py] is a sequence of calls into torch,
    numpy, OpenCV, the networks and the dataset.  A program is the tree of
    these calls: every call may return a value or raise, [print] writes to
    the output ([Out]), and [Throw] is an exception leaving the program. *)

Module Prog.
Import Py.

Section Prog.
Context {Op : Type -> Type}.

Inductive prog (A : Type) : Type :=
| Ret (a : A)
| Throw (e : exn)
| Out (o : list string) (k : prog A)
| Call {X : Type} (op : Op X) (k : result X -> prog A).
Arguments Ret {A} a.
Arguments Throw {A} e.
Arguments Out {A} o k.
Arguments Call {A X} op k.

Fixpoint bind {A B : Type} (p : prog A) (f : A -> prog B) : prog B :=
  match p with
  | Ret a => f a
  | Throw e => Throw e
  | Out o k => Out o (bind k f)
  | Call op k => Call op (fun r => bind (k r) f)
  end.

(** [try: p except ...: h e]; the handler [h] gets whatever [p] raises
    and raises again what its clause does not match. *)
Fixpoint try_except {A : Type} (p : prog A) (h : exn -> prog A) : prog A :=
  match p with
  | Ret a => Ret a
  | Throw e => h e
  | Out o k => Out o (try_except k h)
  | Call op k => Call op (fun r => try_except (k r) h)
  end.

(** A call whose exception propagates. *)
Definition call {X : Type} (op : Op X) : prog X :=
  Call op (fun r => match r with Ok v => Ret v | Err e => Throw e end).

(** A pure computation that may raise. *)
Definition lift {A : Type} (r : result A) : prog A :=
  match r with Ok v => Ret v | Err e => Throw e end.

Definition print (o : list string) : prog unit := Out o (Ret tt).

(** [for x in xs: s = body x s], where the body may [break]. *)
Inductive ctl (S : Type) : Type := Next (s : S) | Break (s : S).
Arguments Next {S} s.
Arguments Break {S} s.

Fixpoint for_ {I S : Type} (xs : list I) (body : I -> S -> prog (ctl S)) (s : S)
    : prog S :=
  match xs with
  | [] => Ret s
  | i :: xs' =>
      bind (body i s) (fun c =>
        match c with
        | Next s' => for_ xs' body s'
        | Break s' => Ret s'
        end)
  end.

(** What an execution leaves behind: the calls with their answers and
    the printed lines, in order. *)
Inductive event : Type :=
| EvCall {X : Type} (op : Op X) (r : result X)
| EvPrint (o : list string).

(** The loop state a round leaves behind. *)
Definition ctl_state {S : Type} (c : ctl S) : S :=
  match c with Next s | Break s => s end.

(** An event is a call that satisfies [P], or a printed line. *)
Definition event_sat (P : forall X : Type, Op X -> Prop) (ev : event) : Prop :=
  match ev with
  | EvCall op _ => P _ op
  | EvPrint _ => True
  end.

(** The outside world: it answers a call knowing what happened so far. *)
Definition world : Type := list event -> forall X : Type, Op X -> result X.

Fixpoint run {A : Type} (w : world) (p : prog A) (tr : list event)
    : result A * list event :=
  match p with
  | Ret a => (Ok a, tr)
  | Throw e => (Err e, tr)
  | Out o k => run w k (tr ++ [EvPrint o])
  | Call op k => let r := w tr _ op in run w (k r) (tr ++ [EvCall op r])
  end.

(** No execution of [p] ends in an exception, provided the answers to
    the calls satisfy [ok]. *)
Fixpoint returns_under (ok : forall X : Type, Op X -> result X -> Prop)
    {A : Type} (p : prog A) : Prop :=
  match p with
  | Ret _ => True
  | Throw _ => False
  | Out _ k => returns_under ok k
  | Call op k => forall r, ok _ op r -> returns_under ok (k r)
  end.

(** Every call [p] can make satisfies [P], provided the answers to the
    earlier calls satisfy [ok]. *)
Fixpoint calls_under (ok : forall X : Type, Op X -> result X -> Prop)
    (P : forall X : Type, Op X -> Prop) {A : Type} (p : prog A) : Prop :=
  match p with
  | Ret _ | Throw _ => True
  | Out _ k => calls_under ok P k
  | Call op k => P _ op /\ forall r, ok _ op r -> calls_under ok P (k r)
  end.

(** Every value [p] can return satisfies [Q], under the same proviso. *)
Fixpoint results_under (ok : forall X : Type, Op X -> result X -> Prop)
    {A : Type} (Q : A -> Prop) (p : prog A) : Prop :=
  match p with
  | Ret a => Q a
  | Throw _ => True
  | Out _ k => results_under ok Q k
  | Call op k => forall r, ok _ op r -> results_under ok Q (k r)
  end.

(** Every exception [p] can end in satisfies [Q], under the same proviso. *)
Fixpoint raises_under (ok : forall X : Type, Op X -> result X -> Prop)
    {A : Type} (Q : exn -> Prop) (p : prog A) : Prop :=
  match p with
  | Ret _ => True
  | Throw e => Q e
  | Out _ k => raises_under ok Q k
  | Call op k => forall r, ok _ op r -> raises_under ok Q (k r)
  end.

(** [p] handles no exception of its calls: what a call raises leaves
    [p]. *)
Fixpoint unguarded {A : Type} (p : prog A) : Prop :=
  match p with
  | Ret _ | Throw _ => True
  | Out _ k => unguarded k
  | Call op k =>
      (forall e, k (Err e) = Throw e) /\ forall v, unguarded (k (Ok v))
  end.

(** The exception an event is the raising of. *)
Definition raised (ev : event) : option exn :=
  match ev with
  | EvCall _ (Err e) => Some e
  | _ => None
  end.
End Prog.

Arguments prog Op A : clear implicits.
Arguments event Op : clear implicits.
Arguments world Op : clear implicits.
Arguments Ret {Op A} a.
Arguments Throw {Op A} e.
Arguments Out {Op A} o k.
Arguments Call {Op A X} op k.
Arguments Next {S} s.
Arguments Break {S} s.
Arguments ctl_state {S} c.

#[global] Instance prog_bind {Op : Type -> Type} : MBind (prog Op) :=
  fun A B f p => bind p f.
#[global] Instance prog_ret {Op : Type -> Type} : MRet (prog Op) :=
  fun A a => Ret a.
End Prog.

(** ** [apps/recon_mrv2.py] *)

Module ReconMRv2.
Import Vec Py Prog.
Local Open Scope Z_scope.

(** An options object (an [argparse] namespace): attribute name to value. *)
Abbreviation Opt := (gmap string Val).

(** The types of the objects that only pass through this file, and the
    numpy computations on them. *)
Class Externals : Type := {
  View : Type;       (* one image of a [V, C, H, W] tensor *)
  Picture : Type;    (* one numpy image *)
  Calib : Type;
  Mat : Type;        (* a 4 x 4 matrix *)
  Weights : Type;
  Device : Type;
  ProjMode : Type;
  Net : Type;        (* a network object *)
  to_picture : View -> Picture;
  mat_inv : Mat -> option Mat;
  mat_apply : Mat -> vec3 -> vec3
}.

Section Recon.
Context {E : Externals}.

(** A triangle: three vertex indices. *)
Definition Face : Type := Z * Z * Z.

(** One item of the test dataset. *)
Record Data : Type := mkData {
  img_512 : list View;
  img : list View;
  calib : Calib;
  b_min : vec3;
  b_max : vec3;
  calib_world : option Mat;
  name : Val
}.

(** The dictionary stored in a checkpoint file. *)
Record StateDict : Type := mkStateDict {
  sd_opt : option Opt;
  sd_opt_netG : option Opt;
  sd_model_state_dict : option Weights;
  sd_weights : Weights
}.

(** The dataset object: its length and its projection mode. *)
Record Dataset : Type := mkDataset {
  ds_len : nat;
  projection_mode : ProjMode
}.

(** The arguments of one call of [reconstruction]. *)
Record ReconArgs : Type := mkReconArgs {
  ra_net : Net;
  ra_calib : Calib;
  ra_resolution : Val;
  ra_b_min : vec3;
  ra_b_max : vec3;
  ra_thresh : R;
  ra_use_octree : bool;
  ra_num_samples : Z
}.

(** The multi-resolution network classes [recon] chooses from. *)
Inductive net_class : Type :=
| HGPIFuMRNetAblation
| ResBlkPIFuMRNetAblation
| HGPIFuMRNetV2
| ResBlkPIFuMRNet.

(** The calls out of this file. *)
Inductive Op : Type -> Type :=
| parse (args : option (list string)) : Op Opt
| path_exists (p : Val) : Op bool
| torch_load (p : Val) : Op StateDict
| print_options (opt : Opt) : Op unit
| torch_device (gpu_id : Val) : Op Device
| EvalWPoseDataset (opt : Opt) : Op Dataset
| HGPIFuNetwNML (opt_netG : Opt) (pm : ProjMode) (cuda : Device) : Op Net
| make_netMR (c : net_class) (opt : Opt) (netG : option Net) (pm : ProjMode)
    : Op Net
| net_to (net : Net) (cuda : Device) : Op Net
| load_state_dict (net : Net) (w : Weights) : Op unit
| makedirs (p : Val) : Op unit
| set_eval (netG : Net) : Op unit
| getitem (ds : Dataset) (i : Z) : Op Data
| filter_global (net : Net) (images : list View) : Op unit
| filter_local (net : Net) (images : list View) : Op unit
| netF_nml (net : Net) : Op (option (list View))
| netB_nml (net : Net) : Op (option (list View))
| imwrite (path : string) (pics : list Picture) : Op unit
| reconstruction (args : ReconArgs) : Op (list vec3 * list Face)
| calc_normal (net : Net) (points : list vec3) (calib : Calib) : Op (list vec3)
| save_obj_mesh_with_color (path : string) (verts : list vec3)
    (faces : list Face) (color : list vec3) : Op unit.

Abbreviation prog := (Prog.prog Op).

(** [opt.name]: an [AttributeError] when the attribute is missing. *)
Definition getattr (opt : Opt) (name : string) : prog Val :=
  match opt !! name with
  | Some v => Ret v
  | None => Throw (AttributeError name)
  end.

(** [reshape_multiview_tensors]: a [B, nV, ...] tensor is the list of its
    [B] rows of [nV] views, and [view(B * nV, ...)] lists the views row by
    row. *)
Definition reshape_multiview_tensors {I K : Type}
    (image_tensor : list (list I)) (calib_tensor : list (list K))
    : list I * list K :=
  (mjoin image_tensor, mjoin calib_tensor).

(** [reshape_sample_tensor]: every sample is repeated [num_views] times;
    [repeat] refuses a negative count. *)
Definition reshape_sample_tensor {X : Type} (sample_tensor : list X)
    (num_views : Z) : result (list X) :=
  if num_views =? 1 then Ok sample_tensor
  else if num_views <? 0 then Err RuntimeError
  else Ok (mjoin (replicate (Z.to_nat num_views) <$> sample_tensor)).

(** [nml * 0.5 + 0.5] on one normal. *)
Definition color_of_normal (n : vec3) : vec3 :=
  Vec.mk (x n * 0.5 + 0.5)%R (y n * 0.5 + 0.5)%R (z n * 0.5 + 0.5)%R.

Definition interval : Z := 100000.

(** One round of the colouring loop of [gen_mesh]. *)
Definition color_chunk (net : Net) (calib_tensor : Calib) (verts0 : list vec3)
    (i : Z) (color : list vec3) : prog (ctl (list vec3)) :=
  let left := i * interval in
  let right :=
    if i =? Z.of_nat (length color) / interval then -1
    else (i + 1) * interval in
  nml ← call (calc_normal net (slice left right verts0) calib_tensor);
  color' ← lift (assign_slice left right (color_of_normal <$> nml) color);
  mret (Next color').

(** Lines 124-134: the per-vertex colours. *)
Definition colorize (net : Net) (calib_tensor : Calib)
    (verts0 verts : list vec3) : prog (list vec3) :=
  let color := replicate (length verts) Vec.zero in
  for_ (range 0 (Z.of_nat (length color) / interval + 1))
       (color_chunk net calib_tensor verts0) color.

(** Line 122: the vertices mapped through [inv(calib_world)]. *)
Definition to_world (m : Mat) (verts : list vec3) : prog (list vec3) :=
  match mat_inv m with
  | Some mi => Ret (mat_apply mi <$> verts)
  | None => Throw LinAlgError
  end.

(** Lines 109-136: the body of the second [try]. *)
Definition gen_mesh_body (res : Val) (net : Net) (data : Data)
    (image_tensor_global : list View) (save_path : string)
    (thresh : R) (use_octree : bool) : prog unit :=
  let save_img_path := (drop_last4 save_path +:+ ".png")%string in
  let save_img_list := to_picture <$> image_tensor_global in
  (match save_img_list with
   | [] => Throw ValueError
   | _ => call (imwrite save_img_path save_img_list)
   end) ;;
  '(verts0, faces) ←
    call (reconstruction
            (mkReconArgs net (calib data) res (b_min data) (b_max data)
                         thresh use_octree 100000));
  verts ← match calib_world data with
          | Some m => to_world m verts0
          | None => Ret verts0
          end;
  color ← colorize net (calib data) verts0 verts;
  call (save_obj_mesh_with_color save_path verts faces color).

(** Lines 98-104: the first [try], whose bare [except] swallows
    everything and keeps the concatenations already made. *)
Definition with_normal_maps (net : Net) (g : list View) : prog (list View) :=
  Call (netF_nml net) (fun r =>
    match r with
    | Err _ => Ret g
    | Ok f =>
        let g1 := match f with Some n => g ++ n | None => g end in
        Call (netB_nml net) (fun r' =>
          match r' with
          | Err _ => Ret g1
          | Ok b => Ret (match b with Some n => g1 ++ n | None => g1 end)
          end)
    end).

(** The second [try] with its handler, [except Exception as e: print(e)]:
    what is no instance of [Exception] is not caught. *)
Definition gen_mesh_guarded (res : Val) (net : Net) (data : Data)
    (image_tensor_global : list View) (save_path : string)
    (thresh : R) (use_octree : bool) : prog unit :=
  try_except
    (gen_mesh_body res net data image_tensor_global save_path thresh use_octree)
    (fun e => match e with
              | Exception _ msg => print [msg]
              | BaseException _ _ => Throw e
              end).

Definition default_thresh : R := 0.5%R.
Definition default_use_octree : bool := true.

(** [gen_mesh]; the keyword arguments are [None] when the caller leaves
    them out.  [cuda] only moves tensors and [components] is never
    read. *)
Definition gen_mesh (res : Val) (net : Net) (data : Data) (save_path : string)
    (thresh : option R) (use_octree : option bool) (components : Val)
    : prog unit :=
  let thresh := default default_thresh thresh in
  let use_octree := default default_use_octree use_octree in
  call (filter_global net (img_512 data)) ;;
  call (filter_local net (img data)) ;;
  g ← with_normal_maps net (img_512 data);
  gen_mesh_guarded res net data g save_path thresh use_octree.

(** Lines 143-150: the checkpoint path, and the options after the
    assignment to [opt.resume_epoch]. *)
Definition select_checkpoint (opt : Opt) : prog (Val * Opt) :=
  p ← getattr opt "load_netMR_checkpoint_path";
  if decide (p = VNone) then
    e ← getattr opt "resume_epoch";
    neg ← lift (lt0 e);
    if (neg : bool) then
      c ← getattr opt "checkpoints_path";
      n ← getattr opt "name";
      mret (VStr (str c +:+ "/" +:+ str n +:+ "_train_latest"),
            <["resume_epoch" := VInt 0]> opt)
    else
      c ← getattr opt "checkpoints_path";
      n ← getattr opt "name";
      e' ← getattr opt "resume_epoch";
      d ← lift (fmt_d e');
      mret (VStr (str c +:+ "/" +:+ str n +:+ "_train_epoch_" +:+ d), opt)
  else mret (p, opt).

(** Lines 159-170: the options after a checkpoint has been loaded. *)
Definition overwrite_opt (opt : Opt) (state_dict : StateDict) : prog Opt :=
  match sd_opt state_dict with
  | Some ckpt =>
      print ["Warning: opt is overwritten."] ;;
      dataroot ← getattr opt "dataroot";
      resolution ← getattr opt "resolution";
      results_path ← getattr opt "results_path";
      loadSize ← getattr opt "loadSize";
      mret (<["loadSize" := loadSize]>
            (<["results_path" := results_path]>
             (<["resolution" := resolution]>
              (<["dataroot" := dataroot]> ckpt))))
  | None => mret opt
  end.

(** Lines 142-172: the options and the checkpoint [recon] goes on with. *)
Definition load_checkpoint (opt : Opt) : prog (Val * Val * Opt * StateDict) :=
  '(state_dict_path, opt) ← select_checkpoint opt;
  start_id ← getattr opt "start_id";
  end_id ← getattr opt "end_id";
  found ← call (path_exists state_dict_path);
  if (found : bool) then
    print ["Resuming from "; str state_dict_path] ;;
    state_dict ← call (torch_load state_dict_path);
    opt ← overwrite_opt opt state_dict;
    mret (start_id, end_id, opt, state_dict)
  else
    Throw (Exception "Exception" "failed loading state dict!").

(** Lines 187-196: the class of [netMR]. *)
Definition choose_netMR (netG_name : Val) : prog net_class :=
  a ← lift (str_in "hg_ablation" netG_name);
  if (a : bool) then mret HGPIFuMRNetAblation else
  b ← lift (str_in "resblk_ablation" netG_name);
  if (b : bool) then mret ResBlkPIFuMRNetAblation else
  c ← lift (str_in "hg" netG_name);
  if (c : bool) then mret HGPIFuMRNetV2 else
  d ← lift (str_in "resblk" netG_name);
  if (d : bool) then mret ResBlkPIFuMRNet else
  Throw (UnboundLocalError "netMR").

(** The two ablation classes are built without [netG]. *)
Definition netG_argument (c : net_class) (netG : Net) : option Net :=
  match c with
  | HGPIFuMRNetAblation | ResBlkPIFuMRNetAblation => None
  | HGPIFuMRNetV2 | ResBlkPIFuMRNet => Some netG
  end.

(** Lines 212-215: the bounds of the loop; they must be integers to be
    compared with 0 and handed to [range]. *)
Definition as_int (v : Val) : prog Z :=
  match v with
  | VInt n => Ret n
  | VBool b => Ret (if b then 1 else 0)
  | _ => Throw TypeError
  end.

Definition normalize_bounds (len start_id end_id : Z) : Z * Z :=
  let start_id := if start_id <? 0 then 0 else start_id in
  let end_id := if end_id <? 0 then len else end_id in
  (start_id, end_id).

(** Lines 223-230: one round of the test loop. *)
Definition test_item (opt : Opt) (netMR : Net) (test_dataset : Dataset)
    (i : Z) (_ : unit) : prog (ctl unit) :=
  if Z.of_nat (ds_len test_dataset) <=? i then mret (Break tt)
  else
    test_data ← call (getitem test_dataset i);
    results_path ← getattr opt "results_path";
    n ← getattr opt "name";
    let save_path :=
      (str results_path +:+ "/" +:+ str n +:+ "/recon/result_"
         +:+ str (name test_data) +:+ ".obj")%string in
    res ← getattr opt "resolution";
    use_compose ← getattr opt "use_compose";
    gen_mesh res netMR test_data save_path None None use_compose ;;
    mret (Next tt).

(** Lines 212-230. *)
Definition test_loop (opt : Opt) (netG netMR : Net) (test_dataset : Dataset)
    (start_id end_id : Z) : prog unit :=
  let '(start_id, end_id) :=
    normalize_bounds (Z.of_nat (ds_len test_dataset)) start_id end_id in
  call (set_eval netG) ;;
  print ["generate mesh (test) ..."] ;;
  for_ (range start_id end_id) (test_item opt netMR test_dataset) tt.

Definition recon (opt : Opt) : prog unit :=
  '(start_id, end_id, opt, state_dict) ← load_checkpoint opt;
  call (print_options opt) ;;
  gpu_id ← getattr opt "gpu_id";
  cuda ← call (torch_device gpu_id);
  test_dataset ← call (EvalWPoseDataset opt);
  print ["test data size: "; pretty (ds_len test_dataset)] ;;
  let pm := projection_mode test_dataset in
  opt_netG ← match sd_opt_netG state_dict with
             | Some o => Ret o
             | None => Throw (KeyError "opt_netG")
             end;
  netG ← call (HGPIFuNetwNML opt_netG pm cuda);
  netG_name ← getattr opt "netG";
  c ← choose_netMR netG_name;
  netMR ← call (make_netMR c opt (netG_argument c netG) pm);
  netMR ← call (net_to netMR cuda);
  call (load_state_dict netMR
          (default (sd_weights state_dict) (sd_model_state_dict state_dict))) ;;
  cp ← getattr opt "checkpoints_path";
  call (makedirs cp) ;;
  rp ← getattr opt "results_path";
  call (makedirs rp) ;;
  rp ← getattr opt "results_path";
  n ← getattr opt "name";
  call (makedirs (VStr (str rp +:+ "/" +:+ str n +:+ "/recon"))) ;;
  start_id ← as_int start_id;
  end_id ← as_int end_id;
  test_loop opt netG netMR test_dataset start_id end_id.

Definition reconWrapper (args : option (list string)) : prog unit :=
  opt ← call (parse args);
  recon opt.

(** *** What is said about the calls and their answers *)

(** The iso-value handed to [reconstruction] is 0.5. *)
Definition thresh_is_half (X : Type) (op : Op X) : Prop :=
  match op with
  | reconstruction a => ra_thresh a = 0.5%R
  | _ => True
  end.

(** The index handed to the dataset lies in [0, len). *)
Definition index_in_range (X : Type) (op : Op X) : Prop :=
  match op with
  | getitem ds i => 0 <= i < Z.of_nat (ds_len ds)
  | _ => True
  end.

(** Both of the above. *)
Definition recon_call_ok (X : Type) (op : Op X) : Prop :=
  match op with
  | reconstruction a => ra_thresh a = 0.5%R
  | getitem ds i => 0 <= i < Z.of_nat (ds_len ds)
  | _ => True
  end.

(** Calls other than [reconstruction] and [getitem]. *)
Definition plain (X : Type) (op : Op X) : Prop :=
  match op with
  | reconstruction _ | getitem _ _ => False
  | _ => True
  end.

(** The writer is handed the zero-initialized colour for the last vertex
    whenever the number of vertices is not a multiple of [interval]. *)
Definition last_vertex_black (X : Type) (op : Op X) : Prop :=
  match op with
  | save_obj_mesh_with_color _ verts _ color =>
      Z.of_nat (length verts) mod interval <> 0 ->
      color !! (length verts - 1)%nat = Some Vec.zero
  | _ => True
  end.

(** An output of [F.normalize(_, dim=1, eps=1e-8)]. *)
Definition is_normal (n : vec3) : Prop :=
  exists v, n = normalize HGPIFuNet.normalize_eps v.

(** A colour triple with every component in [0, 1]. *)
Definition in_unit (c : vec3) : Prop :=
  (0 <= x c <= 1 /\ 0 <= y c <= 1 /\ 0 <= z c <= 1)%R.

(** Modelled from the spec: the class of the multi-resolution network
    handed to [gen_mesh] is not in the source tree.  Its [calc_normal] is
    taken to do what [HGPIFuNet.calc_normal] does ("returns occupancy
    values (and, via finite differences, surface normals)"): it leaves
    one normalized vector per point in [net.nmls].  Every other call
    succeeds. *)
Definition well_answered (X : Type) (op : Op X) (r : result X) : Prop :=
  match op in Op X return result X -> Prop with
  | calc_normal _ pts _ => fun r =>
      exists ns, r = Ok ns /\ length ns = length pts /\ Forall is_normal ns
  | _ => fun r => exists v, r = Ok v
  end r.


(** One line of a text mesh file: a vertex with its colour, or a face. *)
Inductive obj_line : Type :=
| VLine (v c : vec3)
| FLine (f : Face).

(** Modelled from the spec: [save_obj_mesh_with_color] is imported from
    [lib.mesh_util], which is not in the source tree.  By the spec it
    "serializes vertices, faces, and color to a text mesh format": one
    line per vertex, with its colour, followed by one line per face. *)
Definition obj_lines (verts : list vec3) (faces : list Face)
    (color : list vec3) : list obj_line :=
  zip_with VLine verts color ++ (FLine <$> faces).

(** The effect of one event on the files: a successful call of the
    writer replaces the file at its path. *)
Definition write (fs : gmap string (list obj_line)) (ev : event Op)
    : gmap string (list obj_line) :=
  match ev with
  | EvCall op r =>
      match op in Op X return result X -> gmap string (list obj_line) with
      | save_obj_mesh_with_color path verts faces color => fun r =>
          match r with
          | Ok _ => <[path := obj_lines verts faces color]> fs
          | Err _ => fs
          end
      | _ => fun _ => fs
      end r
  | EvPrint _ => fs
  end.

(** The mesh files an execution leaves behind. *)
Definition written (tr : list (event Op)) : gmap string (list obj_line) :=
  foldl write ∅ tr.

(** The calls [gen_mesh] makes before its guarded block succeed; the
    calls inside the block may answer anything. *)
Definition filters_succeed (X : Type) (op : Op X) (r : result X) : Prop :=
  match op in Op X return result X -> Prop with
  | filter_global _ _ => fun r => r = Ok tt
  | filter_local _ _ => fun r => r = Ok tt
  | _ => fun _ => True
  end r.

(** The calls of the test loop outside the guarded block succeed. *)
Definition outside_succeeds (X : Type) (op : Op X) (r : result X) : Prop :=
  match op in Op X return result X -> Prop with
  | filter_global _ _ => fun r => r = Ok tt
  | filter_local _ _ => fun r => r = Ok tt
  | set_eval _ => fun r => r = Ok tt
  | getitem _ _ => fun r => exists d, r = Ok d
  | _ => fun _ => True
  end r.

(** The fields of the command line that survive a checkpoint's options. *)
Definition kept_fields : list string :=
  ["dataroot"; "resolution"; "results_path"; "loadSize"].

(** [recon] itself resets [resume_epoch]: no checkpoint path was given
    and the epoch is negative. *)
Definition resets_epoch (opt : Opt) : bool :=
  match opt !! "load_netMR_checkpoint_path", opt !! "resume_epoch" with
  | Some VNone, Some (VInt n) => n <? 0
  | _, _ => false
  end.

(** The options as [recon] has them when it loads the checkpoint. *)
Definition before_checkpoint (opt : Opt) : Opt :=
  if resets_epoch opt then <["resume_epoch" := VInt 0]> opt else opt.

(** The options [recon] goes on with, given the command line [opt] and
    the checkpoint [sd]. *)
Definition options_after (opt : Opt) (sd : StateDict) (opt' : Opt) : Prop :=
  match sd_opt sd with
  | Some ckpt =>
      forall k, opt' !! k = if decide (k ∈ kept_fields) then opt !! k else ckpt !! k
  | None => opt' = before_checkpoint opt
  end.
(** The dataset indices an execution asked for, in order. *)
Definition visited (tr : list (event Op)) : list Z :=
  omap (fun ev => match ev with
                  | EvCall (getitem _ i) _ => Some i
                  | _ => None
                  end) tr.

(** Any call but a dataset access. *)
Definition no_getitem (X : Type) (op : Op X) : Prop :=
  match op with
  | getitem _ _ => False
  | _ => True
  end.

(** A call of one of the two filters. *)
Definition is_filter (X : Type) (op : Op X) : Prop :=
  match op with
  | filter_global _ _ | filter_local _ _ => True
  | _ => False
  end.

(** A call [gen_mesh] makes before its guarded block. *)
Definition is_setup (X : Type) (op : Op X) : Prop :=
  match op with
  | filter_global _ _ | filter_local _ _ | netF_nml _ | netB_nml _ => True
  | _ => False
  end.


(** Neither a normal query nor the mesh writer. *)
Definition no_mesh (X : Type) (op : Op X) : Prop :=
  match op with
  | calc_normal _ _ _ | save_obj_mesh_with_color _ _ _ _ => False
  | _ => True
  end.

(** Every call of [reconstruction] raises [e]; the two filters succeed. *)
Definition reconstruction_fails (e : exn) (X : Type) (op : Op X)
    (r : result X) : Prop :=
  match op in Op X return result X -> Prop with
  | reconstruction _ => fun r => r = Err e
  | filter_global _ _ => fun r => r = Ok tt
  | filter_local _ _ => fun r => r = Ok tt
  | _ => fun _ => True
  end r.

(** The image goes to [stem.png] and the mesh to [stem ++ ext]. *)
Definition beside (stem ext : string) (X : Type) (op : Op X) : Prop :=
  match op with
  | imwrite p _ => p = (stem +:+ ".png")%string
  | save_obj_mesh_with_color p _ _ _ => p = (stem +:+ ext)%string
  | _ => True
  end.

(** The checkpoint file is not there. *)
Definition checkpoint_missing (X : Type) (op : Op X) (r : result X) : Prop :=
  match op in Op X return result X -> Prop with
  | path_exists _ => fun r => r = Ok false
  | _ => fun _ => True
  end r.

(** A look at the file system, and nothing else. *)
Definition is_path_exists (X : Type) (op : Op X) : Prop :=
  match op with
  | path_exists _ => True
  | _ => False
  end.

(** The exceptions [recon] can raise before it has a checkpoint. *)
Definition failed_loading (e : exn) : Prop :=
  e = Exception "Exception" "failed loading state dict!" \/
  e = TypeError \/ exists name, e = AttributeError name.

(** The number of vertices the colouring loop reaches. *)
Definition colored (n : nat) : nat :=
  if Z.of_nat n mod interval =? 0 then n else (n - 1)%nat.

(** The number of vertices coloured when round [j] of the loop starts. *)
Definition reached (n : nat) (j : Z) : nat :=
  Z.to_nat (Z.min (j * interval) (Z.of_nat (colored n))).

(** The colours after the first [a] vertices have been visited. *)
Definition painted (f : vec3 -> vec3) (verts0 : list vec3) (n a : nat)
    : list vec3 :=
  (color_of_normal ∘ f <$> take a verts0) ++ replicate (n - a) Vec.zero.

(** A call of the guarded block of [gen_mesh], lines 109-136. *)
Definition in_block (X : Type) (op : Op X) : Prop :=
  match op with
  | imwrite _ _ | reconstruction _ | calc_normal _ _ _
  | save_obj_mesh_with_color _ _ _ _ => True
  | _ => False
  end.

(** The calls [gen_mesh] makes before [reconstruction] succeed. *)
Definition reconstruction_reached (X : Type) (op : Op X) (r : result X)
    : Prop :=
  match op in Op X return result X -> Prop with
  | filter_global _ _ => fun r => r = Ok tt
  | filter_local _ _ => fun r => r = Ok tt
  | imwrite _ _ => fun r => r = Ok tt
  | _ => fun _ => True
  end r.
End Recon.
End ReconMRv2.

(** ** [apps/submit_eval.py] *)

Module SubmitEval.
Import Py Prog ReconMRv2.
Local Open Scope Z_scope.

Definition resolution : string := "512".
Definition file_size : Z := 1490.
Definition split_size : Z := 1.
Definition interval : Z := file_size / split_size.

(** Lines 21-26: the bounds of job [i]. *)
Definition job_bounds (split_size interval i : Z) : Z * Z :=
  if split_size <? 2 then (-1, -1)
  else (i * interval, (i + 1) * interval).

(** Lines 27-30: the command line of job [i]. *)
Definition cmd (i : Z) : list string :=
  let '(start_id, end_id) := job_bounds split_size interval i in
  ["--dataroot"; "/home/hjoo/codes/wildpifu/test/"; "--results_path"; ".";
   "--loadSize"; "1024"; "--resolution"; resolution;
   "--load_netMR_checkpoint_path";
   "/run/media/hjoo/disk/data/pifuhd/checkpoints/ours_final_train_latest";
   "--start_id"; pretty start_id; "--end_id"; pretty end_id].

(** Lines 20-31: one reconstruction run per job. *)
Definition submit `{Externals} : prog Op unit :=
  for_ (range 0 (split_size + 1))
       (fun i _ => reconWrapper (Some (cmd i)) ;; mret (Next tt)) tt.
End SubmitEval.

(** ** The volume sampler and the iso-surface extractor

    [reconstruction] and the grid evaluation it calls are imported by
    [apps/recon_mrv2.py] from [lib.mesh_util] and are not part of the source
    tree.  They are modelled here from the system overview. *)

Module Sdf.
Import Vec.
Local Open Scope R_scope.

(** A sample position of the grid. *)
Definition voxel : Type := nat * nat * nat.

(** The eight corners of the block with lowest corner [o] and edge [s]. *)
Definition corners (o : voxel) (s : nat) : list voxel :=
  let '(i, j, k) := o in
  [ (i, j, k); (i + s, j, k); (i, j + s, k); (i + s, j + s, k);
    (i, j, k + s); (i + s, j, k + s); (i, j + s, k + s);
    (i + s, j + s, k + s) ]%nat.

(** [v] lies in the block with lowest corner [o] and edge [s], faces
    included. *)
Definition in_block (o : voxel) (s : nat) (v : voxel) : Prop :=
  let '(i, j, k) := o in
  let '(a, b, c) := v in
  (i <= a <= i + s /\ j <= b <= j + s /\ k <= c <= k + s)%nat.

(** Along one axis: the lower end of the half of [[o, o + 2 h]] that
    holds [c]. *)
Definition child_coord (o h c : nat) : nat :=
  if decide (c < o + h)%nat then o else (o + h)%nat.

(** The lowest corner of the sub-block of edge [h] that holds [v]. *)
Definition child_origin (o : voxel) (h : nat) (v : voxel) : voxel :=
  let '(i, j, k) := o in
  let '(a, b, c) := v in
  (child_coord i h a, child_coord j h b, child_coord k h c).


(** All sample positions with coordinates in [0, n]. *)
Definition lattice (n : nat) : list voxel :=
  i ← seq 0 (S n); j ← seq 0 (S n); k ← seq 0 (S n); [(i, j, k)].

(** When the corner samples of a block count as a known-occupancy region,
    and the value propagated into it. *)
Record rule : Type := mkRule {
  agree : list R -> bool;
  fill : list R -> R
}.


Section Sampler.
Variable r : rule.
Variable oracle : voxel -> R.

(** Modelled from the spec: the dense sampler, which is absent from the
    source tree, "evaluat[es] every voxel". *)
Definition eval_grid (v : voxel) : R := oracle v.

(** Modelled from the spec: the octree sampler, which is absent from the
    source tree: "hierarchical subdivision used to skip dense evaluation
    of a 3D scalar field", "using the Oracle sparsely and
    interpolating/propagating known-occupancy regions to avoid
    evaluating every voxel".  The value stored at [v] by the sampler
    run on the block of edge [2 ^ d] at [o]: the corners of a block are
    evaluated; if they agree their value is propagated into the block,
    otherwise the block is subdivided. *)
Fixpoint eval_grid_octree (d : nat) (o v : voxel) : R :=
  match d with
  | O => oracle v
  | S d' =>
      let cs := corners o (2 ^ d) in
      if decide (v ∈ cs) then oracle v
      else if agree r (oracle <$> cs) then fill r (oracle <$> cs)
      else eval_grid_octree d' (child_origin o (2 ^ d') v) v
  end.

End Sampler.

(** A sample counts as inside the subject when it exceeds the iso-value. *)
Definition inside (thresh value : R) : bool :=
  if Rlt_dec thresh value then true else false.

(** The point of the segment from [a] to [b] where the linearly
    interpolated field takes the iso-value. *)
Definition lerp (thresh : R) (a b : voxel) (fa fb : R) : vec3 :=
  let t := (thresh - fa) / (fb - fa) in
  let '(ai, aj, ak) := a in
  let '(bi, bj, bk) := b in
  Vec.mk (INR ai + t * (INR bi - INR ai))
         (INR aj + t * (INR bj - INR aj))
         (INR ak + t * (INR bk - INR ak)).

(** The grid edges between neighbouring samples. *)
Definition edges (n : nat) : list (voxel * voxel) :=
  a ← lattice n;
  b ← (let '(i, j, k) := a in [(S i, j, k); (i, S j, k); (i, j, S k)]);
  if decide (b ∈ lattice n) then [(a, b)] else [].

(** A mesh: its vertices, and for every cell the surface passes through
    the inside/outside pattern of its corners, from which the triangle
    table of marching cubes reads off the faces of the cell. *)
Definition mesh : Type := list vec3 * list (voxel * list bool).

Definition mixed (pattern : list bool) : bool :=
  existsb (fun b : bool => b) pattern && existsb negb pattern.

(** Modelled from the spec: the extractor is a library routine;
    "marching cubes: algorithm converting a sampled scalar field into a
    triangle mesh at a given iso-value".  One vertex per grid edge whose
    ends lie on different sides of the iso-value, and faces in the cells
    whose corners do not all lie on one side. *)
Definition marching_cubes (sdf : voxel -> R) (n : nat) (thresh : R) : mesh :=
  (omap (fun '(a, b) =>
           if xorb (inside thresh (sdf a)) (inside thresh (sdf b))
           then Some (lerp thresh a b (sdf a) (sdf b)) else None)
        (edges n),
   List.filter (fun c => mixed c.2)
     ((fun c => (c, inside thresh <$> (sdf <$> corners c 1))) <$> lattice (n - 1))).

(** Modelled from the spec: [reconstruction], which is absent from the
    source tree: the field is sampled on the grid, sparsely or densely,
    and marching cubes runs "over the resulting scalar field".  The
    network, the calibration and the bounding box fix the field [oracle];
    the resolution is [2 ^ depth]. *)
Definition reconstruction (r : rule) (oracle : voxel -> R) (depth : nat)
    (thresh : R) (use_octree : bool) : mesh :=
  let sdf :=
    if use_octree then eval_grid_octree r oracle depth (0, 0, 0)%nat
    else eval_grid oracle in
  marching_cubes sdf (2 ^ depth) thresh.
End Sdf.

(** ** Concrete networks, datasets and worlds

    Small instances of the collaborators, on which the definitions above
    run. *)

Module Examples.
Import Vec Py Prog.

(** *** A one-view network whose features are the depth of the point *)

Definition toy (body : list R -> R) : HGPIFuNet.Collaborators := {|
  HGPIFuNet.Images := unit;
  HGPIFuNet.ImFeat := unit;
  HGPIFuNet.NormX := unit;
  HGPIFuNet.VolFeat := unit;
  HGPIFuNet.Calibs := unit;
  HGPIFuNet.Transforms := unit;
  HGPIFuNet.image_filter := fun _ => ([tt], tt);
  HGPIFuNet.vol_filter := fun _ => tt;
  HGPIFuNet.projection := fun _ _ _ p => p;
  HGPIFuNet.index := fun _ _ _ => [];
  HGPIFuNet.spatial_enc := fun _ _ _ _ q => [z q];
  HGPIFuNet.mlp_body := body
|}.

(** The network in evaluation mode, before and after [filter]. *)
Definition toy_net (body : list R -> R) : @HGPIFuNet.Net (toy body) :=
  @HGPIFuNet.mkNet (toy body) false HGPIFuNet.z_enc false None []
    None None [] None None None None.

Definition toy_filtered (body : list R -> R) : @HGPIFuNet.Net (toy body) :=
  @HGPIFuNet.mkNet (toy body) false HGPIFuNet.z_enc false None [tt]
    (Some tt) None [] None None None None.

(** A network whose occupancy is the same everywhere, and one whose
    occupancy grows with depth. *)
Definition flat_body (feat : list R) : R := 0%R.
Definition depth_body (feat : list R) : R := default 0%R (head feat).

(** *** A world for [recon] *)

Definition toy_externals : ReconMRv2.Externals := {|
  ReconMRv2.View := unit;
  ReconMRv2.Picture := unit;
  ReconMRv2.Calib := unit;
  ReconMRv2.Mat := unit;
  ReconMRv2.Weights := unit;
  ReconMRv2.Device := unit;
  ReconMRv2.ProjMode := unit;
  ReconMRv2.Net := unit;
  ReconMRv2.to_picture := fun _ => tt;
  ReconMRv2.mat_inv := fun m => Some m;
  ReconMRv2.mat_apply := fun _ v => v
|}.

Import ReconMRv2.
Local Open Scope Z_scope.

Definition toy_data : @Data toy_externals :=
  @mkData toy_externals [tt] [tt] tt (Vec.mk (-1) (-1) (-1)) (Vec.mk 1 1 1)
    None (VStr "a").

Definition toy_verts (n : nat) : list vec3 := replicate n Vec.zero.

(** A checkpoint without options, and one with options. *)
Definition bare_checkpoint : @StateDict toy_externals :=
  @mkStateDict toy_externals None (Some ∅) None tt.

Definition checkpoint_opt : Opt :=
  list_to_map
    [("dataroot", VStr "/train"); ("resolution", VInt 256);
     ("results_path", VStr "/train/results"); ("loadSize", VInt 512);
     ("name", VStr "trained"); ("netG", VStr "hg")].

Definition full_checkpoint : @StateDict toy_externals :=
  @mkStateDict toy_externals (Some checkpoint_opt) (Some ∅) None tt.

(** A world in which every call but [reconstruction] succeeds: the
    checkpoint file holds [sd], [reconstruction] answers [rec], the
    dataset has two items and every normal is the unit vector along x. *)
Definition toy_world (sd : @StateDict toy_externals)
    (rec : result (list vec3 * list Face)) : world (@Op toy_externals) :=
  fun _ X op =>
    match op in Op X return result X with
    | parse _ => Ok ∅
    | path_exists _ => Ok true
    | torch_load _ => Ok sd
    | print_options _ => Ok tt
    | torch_device _ => Ok tt
    | EvalWPoseDataset _ => Ok (@mkDataset toy_externals 2 tt)
    | HGPIFuNetwNML _ _ _ => Ok tt
    | make_netMR _ _ _ _ => Ok tt
    | net_to _ _ => Ok tt
    | load_state_dict _ _ => Ok tt
    | makedirs _ => Ok tt
    | set_eval _ => Ok tt
    | getitem _ _ => Ok toy_data
    | filter_global _ _ => Ok tt
    | filter_local _ _ => Ok tt
    | netF_nml _ => Ok None
    | netB_nml _ => Ok None
    | imwrite _ _ => Ok tt
    | reconstruction _ => rec
    | calc_normal _ pts _ => Ok ((fun _ => Vec.mk 1 0 0) <$> pts)
    | save_obj_mesh_with_color _ _ _ _ => Ok tt
    end.

(** [reconstruction] returns [n] vertices and one face. *)
Definition mesh_world (n : nat) : world (@Op toy_externals) :=
  toy_world bare_checkpoint (Ok (toy_verts n, [(0, 1, 2)])).

(** [reconstruction] raises. *)
Definition failing_world : world (@Op toy_externals) :=
  toy_world bare_checkpoint (Err (Exception "RuntimeError" "CUDA out of memory")).

(** The user interrupts [reconstruction]. *)
Definition interrupted_world : world (@Op toy_externals) :=
  toy_world bare_checkpoint (Err KeyboardInterrupt).

(** The colour of the normal (1, 0, 0). *)
Definition white : vec3 := color_of_normal (Vec.mk 1 0 0).

(** A command line that names no checkpoint and no epoch. *)
Definition cmdline : Opt :=
  list_to_map
    [("load_netMR_checkpoint_path", VNone); ("resume_epoch", VInt (-1));
     ("checkpoints_path", VStr "./checkpoints"); ("name", VStr "example");
     ("dataroot", VStr "/data"); ("resolution", VInt 512);
     ("results_path", VStr "./results"); ("loadSize", VInt 1024);
     ("start_id", VInt (-1)); ("end_id", VInt (-1)); ("gpu_id", VInt 0);
     ("netG", VStr "hg"); ("use_compose", VBool false)].

(** The dataset indices asked for in a trace, and the iso-values handed
    to [reconstruction]. *)
Definition getitem_indices (tr : list (event (@Op toy_externals))) : list Z :=
  omap (fun ev => match ev with
                  | EvCall (getitem _ i) _ => Some i
                  | _ => None
                  end) tr.

Definition thresholds (tr : list (event (@Op toy_externals))) : list R :=
  omap (fun ev => match ev with
                  | EvCall (reconstruction a) _ => Some (ra_thresh a)
                  | _ => None
                  end) tr.

(** *** Worlds in which something goes wrong *)

(** The global filter runs out of memory. *)
Definition filter_failing_world : world (@Op toy_externals) :=
  fun tr X op =>
    match op in Op X return result X with
    | filter_global _ _ => Err (Exception "RuntimeError" "CUDA out of memory")
    | op' => mesh_world 5 tr _ op'
    end.

(** There is no checkpoint file. *)
Definition no_file_world : world (@Op toy_externals) :=
  fun tr X op =>
    match op in Op X return result X with
    | path_exists _ => Ok false
    | op' => mesh_world 5 tr _ op'
    end.





(** *** Two fields on a grid with three samples per axis *)



End Examples.

(* ===================================================================== *)
(** * Part II: properties                                                  *)
(* ===================================================================== *)

(** ** Norms, normalization and the sigmoid *)

Module VecFacts.
Import Vec.
Local Open Scope R_scope.

Lemma sigmoid_range t : 0 < sigmoid t < 1.
Proof.
  unfold sigmoid. pose proof (exp_pos (- t)) as He.
  split.
  - apply Rdiv_lt_0_compat; lra.
  - apply (Rmult_lt_reg_r (1 + exp (- t))); [lra|].
    unfold Rdiv. rewrite Rmult_assoc, Rinv_l; lra.
Qed.

Lemma norm2_nonneg v : 0 <= norm2 v.
Proof. apply sqrt_pos. Qed.

Lemma norm2_normalize eps v :
  0 < eps -> norm2 (normalize eps v) = norm2 v / Rmax (norm2 v) eps.
Proof.
  intros He. unfold normalize. set (d := Rmax (norm2 v) eps).
  assert (0 < d) as Hd by (unfold d; pose proof (Rmax_r (norm2 v) eps); lra).
  unfold norm2 at 1. simpl.
  replace (x v / d * (x v / d) + y v / d * (y v / d) + z v / d * (z v / d))
    with ((x v * x v + y v * y v + z v * z v) * (/ d * / d)) by (field; lra).
  rewrite sqrt_mult_alt by nra.
  rewrite sqrt_square by (left; by apply Rinv_0_lt_compat).
  reflexivity.
Qed.

Lemma normalize_unit eps v :
  0 < eps -> eps <= norm2 v -> norm2 (normalize eps v) = 1.
Proof.
  intros He Hv. rewrite norm2_normalize by done.
  rewrite Rmax_left by done. field. lra.
Qed.

Lemma normalize_short eps v :
  0 < eps -> norm2 v < eps -> norm2 (normalize eps v) = norm2 v / eps.
Proof.
  intros He Hv. rewrite norm2_normalize by done.
  rewrite Rmax_right by lra. done.
Qed.

Lemma coord_le_norm2 v :
  Rabs (x v) <= norm2 v /\ Rabs (y v) <= norm2 v /\ Rabs (z v) <= norm2 v.
Proof.
  unfold norm2. repeat split.
  - rewrite <- (sqrt_Rsqr_abs (x v)). apply sqrt_le_1_alt. unfold Rsqr. nra.
  - rewrite <- (sqrt_Rsqr_abs (y v)). apply sqrt_le_1_alt. unfold Rsqr. nra.
  - rewrite <- (sqrt_Rsqr_abs (z v)). apply sqrt_le_1_alt. unfold Rsqr. nra.
Qed.

Lemma ratio_in_unit_ball a d : Rabs a <= d -> 0 < d -> -1 <= a / d <= 1.
Proof.
  intros Ha Hd. assert (d * / d = 1) as Hinv by (field; lra).
  assert (0 < / d) as Hpos by (by apply Rinv_0_lt_compat).
  pose proof (Rle_abs a) as H1. pose proof (Rle_abs (- a)) as H2.
  rewrite Rabs_Ropp in H2. unfold Rdiv. nra.
Qed.

Lemma norm2_scale c v : 0 <= c -> norm2 (scale c v) = c * norm2 v.
Proof.
  intros Hc. unfold norm2, scale. simpl.
  replace (c * x v * (c * x v) + c * y v * (c * y v) + c * z v * (c * z v))
    with ((c * c) * (x v * x v + y v * y v + z v * z v)) by ring.
  rewrite sqrt_mult_alt by nra. by rewrite sqrt_square.
Qed.

Lemma normalize_scale eps c v :
  0 < eps -> 0 < c -> eps <= norm2 v -> eps <= c * norm2 v ->
  normalize eps (scale c v) = normalize eps v.
Proof.
  intros He Hc Hv Hcv. unfold normalize.
  rewrite norm2_scale by lra.
  rewrite !Rmax_left by lra.
  unfold scale. simpl. f_equal; field; lra.
Qed.

Lemma norm2_normalize_le eps v : 0 < eps -> norm2 (normalize eps v) <= 1.
Proof.
  intros He. rewrite norm2_normalize by done.
  pose proof (norm2_nonneg v) as Hn.
  pose proof (Rmax_l (norm2 v) eps) as Hl.
  pose proof (Rmax_r (norm2 v) eps) as Hr.
  apply (Rmult_le_reg_r (Rmax (norm2 v) eps)); [lra|].
  unfold Rdiv. rewrite Rmult_assoc, Rinv_l by lra. lra.
Qed.
End VecFacts.

(** ** [HGPIFuNet]: [query] and [calc_normal] *)

Module NetFacts.
Import Vec HGPIFuNet VecFacts Examples.
Local Open Scope R_scope.

Section Query.
Context {C : Collaborators}.

Lemma tmapi_lookup {A B} (f : nat -> A -> B) (t : list (list A)) b :
  tmapi f t !! b = fmap (M:=list) (f b) <$> t !! b.
Proof. unfold tmapi. by rewrite list_lookup_imap. Qed.

Lemma tmap_tmapi {A B} (f : A -> B) (t : list (list A)) :
  tmap f t = tmapi (fun _ => f) t.
Proof.
  unfold tmap, tmapi. apply list_eq; intros i.
  rewrite list_lookup_fmap, list_lookup_imap. done.
Qed.

Lemma tmapi_tmapi {A B D} (g : nat -> B -> D) (f : nat -> A -> B) (t : list (list A)) :
  tmapi g (tmapi f t) = tmapi (fun b a => g b (f b a)) t.
Proof.
  apply list_eq; intros i. rewrite !tmapi_lookup.
  destruct (t !! i) as [row|]; simpl; [|done].
  f_equal. rewrite <- list_fmap_compose. done.
Qed.

Lemma zip_tmapi {A B D E} (h : B -> D -> E) (f : nat -> A -> B) (g : nat -> A -> D) (t : list (list A)) :
  zip_with (zip_with h) (tmapi f t) (tmapi g t) = tmapi (fun b a => h (f b a) (g b a)) t.
Proof.
  apply list_eq; intros i. rewrite lookup_zip_with, !tmapi_lookup.
  destruct (t !! i) as [row|]; simpl; [|done].
  f_equal. rewrite zip_with_fmap_l, zip_with_fmap_r, zip_with_diag. done.
Qed.

Lemma point_local_feat_pointwise (s : Net) calibs f xyz :
  point_local_feat s calibs f xyz = tmapi (local_feat_at s calibs f) xyz.
Proof.
  unfold point_local_feat, local_feat_at, cat1.
  rewrite tmap_tmapi, tmapi_tmapi.
  destruct (sp_enc_type s), (sp_no_pifu s); try done; by rewrite zip_tmapi.
Qed.


Lemma in_bb1_cases q : in_bb1 q = 0 \/ in_bb1 q = 1.
Proof.
  unfold in_bb1, in_bb3, float.
  destruct (_ && _ && _); auto.
Qed.

Lemma in_bb1_outside q : outside_cube q -> in_bb1 q = 0.
Proof.
  unfold outside_cube, in_bb1, in_bb3, float, geb, leb. intros H.
  repeat destruct (Rle_dec _ _); simpl; try reflexivity; lra.
Qed.

Lemma in_bb1_inside q :
  -1 <= x q <= 1 -> -1 <= y q <= 1 -> -1 <= z q <= 1 -> in_bb1 q = 1.
Proof.
  unfold in_bb1, in_bb3, float, geb, leb. intros Hx Hy Hz.
  repeat destruct (Rle_dec _ _); simpl; try reflexivity; lra.
Qed.

Lemma query_inter_pointwise (s : Net) points calibs tr f :
  tmul (tmap in_bb1 (tmapi (projection calibs tr) points))
       (tmap mlp (point_local_feat s calibs f (tmapi (projection calibs tr) points)))
  = tmapi (pred_at s calibs tr f) points.
Proof.
  unfold tmul. rewrite point_local_feat_pointwise, !tmap_tmapi, !tmapi_tmapi.
  by rewrite zip_tmapi.
Qed.

Lemma query_spec (s : Net) points calibs tr lbls f :
  last (im_feat_list s) = Some f ->
  exists s', query s points calibs tr lbls = Some s' /\
    preds s' = Some (tmapi (pred_at s calibs tr f) points) /\
    intermediate_preds_list s' =
      (fun f' => tmapi (pred_at s calibs tr f') points) <$> im_feat_list s.
Proof.
  intros Hl. unfold query.
  erewrite (list_fmap_ext _ (fun f' => tmapi (pred_at s calibs tr f') points));
    [|intros; apply query_inter_pointwise].
  rewrite fmap_last, Hl. simpl. eexists. split; [reflexivity|]. simpl. done.
Qed.

Lemma query_fails (s : Net) points calibs tr lbls :
  im_feat_list s = [] -> query s points calibs tr lbls = None.
Proof. intros H. unfold query. by rewrite H. Qed.

Lemma filter_im_feat_list (s0 s : Net) images :
  filter s0 images = Some s ->
  (training s0 = true -> (image_filter images).1 <> []) ->
  im_feat_list s <> [].
Proof.
  unfold filter. destruct (image_filter images) as [feats nx]. simpl.
  destruct (training s0).
  - intros [= <-] H. simpl. by apply H.
  - destruct (last feats); [|done]. by intros [= <-] _.
Qed.

(** C1.  After [filter], a point whose projection has a coordinate strictly
    outside [-1, 1] gets the stored prediction 0: [query] returns, and the
    entry of [preds] for that point is exactly 0. *)
Theorem query_outside_is_zero (s0 s : Net) images points calibs tr lbls b pts j p :
  filter s0 images = Some s ->
  (training s0 = true -> (image_filter images).1 <> []) ->
  points !! b = Some pts ->
  pts !! j = Some p ->
  outside_cube (projection calibs tr b p) ->
  exists s' t row,
    query s points calibs tr lbls = Some s' /\
    preds s' = Some t /\ t !! b = Some row /\ row !! j = Some 0.
Proof.
  intros Hf Hst Hb Hj Hout.
  pose proof (filter_im_feat_list _ _ _ Hf Hst) as Hne.
  destruct (last (im_feat_list s)) as [f|] eqn:Hl; [|by apply last_None in Hl].
  destruct (query_spec s points calibs tr lbls f Hl) as (s' & Hq & Hp & _).
  exists s', (tmapi (pred_at s calibs tr f) points),
         (pred_at s calibs tr f b <$> pts).
  repeat split; try done.
  - by rewrite tmapi_lookup, Hb.
  - rewrite list_lookup_fmap, Hj. simpl. f_equal.
    unfold pred_at. rewrite (in_bb1_outside _ Hout). lra.
Qed.

Lemma pred_at_range (s : Net) calibs tr f b p : 0 <= pred_at s calibs tr f b p <= 1.
Proof.
  unfold pred_at, network_at, mlp.
  pose proof (sigmoid_range (mlp_body (local_feat_at s calibs f b (projection calibs tr b p)))).
  destruct (in_bb1_cases (projection calibs tr b p)) as [-> | ->]; lra.
Qed.

Lemma tmapi_Forall {A B} (P : B -> Prop) (f : nat -> A -> B) t :
  (forall b a, P (f b a)) -> Forall (Forall P) (tmapi f t).
Proof.
  intros H. apply Forall_lookup. intros i row. rewrite tmapi_lookup.
  destruct (t !! i); simpl; [|done]. intros [= <-].
  apply Forall_fmap, Forall_forall. intros; apply H.
Qed.

(** C4.  Every value [query] stores, in [preds] and in every intermediate
    prediction, lies in [0, 1]: it is a sigmoid output times the 0/1
    indicator of the bounding cube. *)
Theorem query_preds_are_probabilities (s s' : Net) points calibs tr lbls :
  query s points calibs tr lbls = Some s' ->
  Forall (Forall (Forall (fun v => 0 <= v <= 1))) (intermediate_preds_list s') /\
  exists t, preds s' = Some t /\ Forall (Forall (fun v => 0 <= v <= 1)) t.
Proof.
  intros Hq.
  destruct (last (im_feat_list s)) as [f|] eqn:Hl.
  - destruct (query_spec s points calibs tr lbls f Hl) as (s'' & Hq' & Hp & Hi).
    rewrite Hq in Hq'. injection Hq' as <-. split.
    + rewrite Hi. apply Forall_fmap, Forall_forall. intros f' _. simpl.
      apply tmapi_Forall. intros; apply pred_at_range.
    + eexists; split; [done|]. apply tmapi_Forall. intros; apply pred_at_range.
  - apply last_None in Hl. by rewrite (query_fails _ _ _ _ _ Hl) in Hq.
Qed.

Lemma view4_stack4 {A} (G : A -> R) (sx sy sz : A -> A) (pts : list A) :
  view4 (G <$> stack4 pts (sx <$> pts) (sy <$> pts) (sz <$> pts))
  = (fun p => (G p, G (sx p), G (sy p), G (sz p))) <$> pts.
Proof. induction pts as [|p pts IH]; simpl; [done|]. f_equal. apply IH. Qed.

Lemma calc_normal_spec (s : Net) points calibs tr lbls delta f :
  last (im_feat_list s) = Some f ->
  exists s', calc_normal s points calibs tr lbls delta = Some s' /\
    nmls s' =
      Some (tmapi (fun b p => normalize normalize_eps (fd_vector s calibs tr f delta b p))
                  points) /\
    preds_surface s' = Some (tmapi (network_at s calibs tr f) points).
Proof.
  intros Hl. unfold calc_normal. rewrite Hl.
  eexists. split; [reflexivity|]. simpl.
  rewrite point_local_feat_pointwise.
  split; f_equal.
  - apply list_eq; intros i. unfold tmap, tmapi.
    rewrite !list_lookup_fmap, !list_lookup_imap.
    destruct (points !! i) as [pts|] eqn:Hi; simpl; [|done]. f_equal.
    rewrite !list_lookup_fmap, Hi. simpl.
    rewrite <- !list_fmap_compose.
    rewrite (view4_stack4 (mlp ∘ local_feat_at s calibs f i ∘ projection calibs tr i)).
    rewrite <- !list_fmap_compose. apply list_fmap_ext. intros _ p _. simpl.
    unfold fd_vector, network_at, neg_diff. done.
  - apply list_eq; intros i. unfold tmap, tmapi.
    rewrite !list_lookup_fmap, !list_lookup_imap.
    destruct (points !! i) as [pts|] eqn:Hi; simpl; [|done]. f_equal.
    rewrite !list_lookup_fmap, Hi. simpl.
    rewrite <- !list_fmap_compose.
    rewrite (view4_stack4 (mlp ∘ local_feat_at s calibs f i ∘ projection calibs tr i)).
    rewrite <- !list_fmap_compose. apply list_fmap_ext. intros _ p _. simpl. done.
Qed.


Lemma normalize_eps_pos : 0 < normalize_eps.
Proof. unfold normalize_eps. lra. Qed.

(** C2, amended.  [calc_normal] stores, for every point, the normalization
    of the negated forward differences of the network at that point.  The
    stored vector has length 1 when the difference vector is at least
    [normalize_eps] long, and is the difference vector divided by
    [normalize_eps] otherwise. *)
Theorem calc_normal_forward_difference
    (s0 s : Net) images points calibs tr lbls delta b pts j p :
  filter s0 images = Some s ->
  (training s0 = true -> (image_filter images).1 <> []) ->
  points !! b = Some pts ->
  pts !! j = Some p ->
  exists f s' t row,
    last (im_feat_list s) = Some f /\
    calc_normal s points calibs tr lbls delta = Some s' /\
    nmls s' = Some t /\ t !! b = Some row /\
    let v := fd_vector s calibs tr f delta b p in
    row !! j = Some (normalize normalize_eps v) /\
    (normalize_eps <= norm2 v -> norm2 (normalize normalize_eps v) = 1) /\
    (norm2 v < normalize_eps ->
     norm2 (normalize normalize_eps v) = norm2 v / normalize_eps).
Proof.
  intros Hf Hst Hb Hj.
  pose proof (filter_im_feat_list _ _ _ Hf Hst) as Hne.
  destruct (last (im_feat_list s)) as [f|] eqn:Hl; [|by apply last_None in Hl].
  destruct (calc_normal_spec s points calibs tr lbls delta f Hl) as (s' & Hc & Hn & _).
  eexists f, s', _, _. split; [done|]. split; [done|]. split; [exact Hn|].
  split; [by rewrite tmapi_lookup, Hb|]. simpl.
  split; [by rewrite list_lookup_fmap, Hj|].
  split; intros; [apply normalize_unit | apply normalize_short];
    auto using normalize_eps_pos.
Qed.
End Query.

Lemma toy_filter body :
  filter (C:=toy body) (toy_net body) tt = Some (toy_filtered body).
Proof. reflexivity. Qed.

(** C2 as stated fails: where the network takes the same value at the point
    and at its three shifted copies, the stored normal is the zero vector,
    whose length differs from 1 by more than [normalize_eps]. *)
Lemma calc_normal_flat_field_not_unit :
  exists s s',
    filter (C:=toy flat_body) (toy_net flat_body) tt = Some s /\
    calc_normal (C:=toy flat_body) s [[Vec.zero]] tt None None default_delta = Some s' /\
    nmls s' = Some [[Vec.zero]] /\
    ~ Rabs (norm2 Vec.zero - 1) <= normalize_eps.
Proof.
  eexists _, _. split; [apply toy_filter|].
  split; [reflexivity|]. split.
  - simpl. do 2 f_equal. unfold tmap. simpl. f_equal.
    unfold normalize, neg_diff, opp, Vec.zero. simpl.
    f_equal; unfold Rdiv; rewrite Rminus_diag, Ropp_0, Rmult_0_l; reflexivity.
  - unfold norm2, Vec.zero, normalize_eps. simpl.
    replace (0 * 0 + 0 * 0 + 0 * 0) with 0 by lra. rewrite sqrt_0.
    replace (0 - 1) with (- (1)) by lra. rewrite Rabs_Ropp, Rabs_R1. lra.
Qed.

(** C1 on the depth network, at the point (2, 0, 0). *)
Lemma query_outside_is_zero_witness :
  exists s' t row,
    query (C:=toy depth_body) (toy_filtered depth_body) [[Vec.mk 2 0 0]] tt None None
      = Some s' /\
    preds s' = Some t /\ t !! 0%nat = Some row /\ row !! 0%nat = Some 0.
Proof.
  apply (query_outside_is_zero (C:=toy depth_body) (toy_net depth_body)
           (toy_filtered depth_body) tt [[Vec.mk 2 0 0]] tt None None
           0%nat [Vec.mk 2 0 0] 0%nat (Vec.mk 2 0 0)).
  - reflexivity.
  - intros H. discriminate H.
  - reflexivity.
  - reflexivity.
  - unfold outside_cube. simpl. lra.
Defined.

(** C4 on the depth network, at the point (0, 0, 0.5). *)
Lemma query_preds_are_probabilities_witness :
  exists s',
    query (C:=toy depth_body) (toy_filtered depth_body) [[Vec.mk 0 0 0.5]] tt None None
      = Some s' /\
    Forall (Forall (Forall (fun v => 0 <= v <= 1))) (intermediate_preds_list s') /\
    exists t, preds s' = Some t /\ Forall (Forall (fun v => 0 <= v <= 1)) t.
Proof.
  eexists. split; [reflexivity|].
  apply (query_preds_are_probabilities (C:=toy depth_body) (toy_filtered depth_body)
           _ [[Vec.mk 0 0 0.5]] tt None None).
  reflexivity.
Defined.

(** C2, amended, on the depth network at the origin. *)
Lemma calc_normal_forward_difference_witness :
  exists f s' t row,
    last (im_feat_list (toy_filtered depth_body)) = Some f /\
    calc_normal (C:=toy depth_body) (toy_filtered depth_body) [[Vec.zero]] tt None None
      default_delta = Some s' /\
    nmls s' = Some t /\ t !! 0%nat = Some row /\
    let v := fd_vector (toy_filtered depth_body) tt None f default_delta 0 Vec.zero in
    row !! 0%nat = Some (normalize normalize_eps v) /\
    (normalize_eps <= norm2 v -> norm2 (normalize normalize_eps v) = 1) /\
    (norm2 v < normalize_eps ->
     norm2 (normalize normalize_eps v) = norm2 v / normalize_eps).
Proof.
  apply (calc_normal_forward_difference (C:=toy depth_body) (toy_net depth_body)
           (toy_filtered depth_body) tt [[Vec.zero]] tt None None default_delta
           0%nat [Vec.zero] 0%nat Vec.zero).
  - reflexivity.
  - intros H. discriminate H.
  - reflexivity.
  - reflexivity.
Defined.

Section QueryMore.
Context {C : Collaborators}.

Lemma tmapi_length {A B} (f : nat -> A -> B) (t : list (list A)) :
  length (tmapi f t) = length t.
Proof. unfold tmapi. by rewrite length_imap. Qed.

Lemma tmapi_lookup_lookup {A B} (f : nat -> A -> B) (t : list (list A)) b row j a :
  t !! b = Some row -> row !! j = Some a ->
  exists row', tmapi f t !! b = Some row' /\ length row' = length row /\
               row' !! j = Some (f b a).
Proof.
  intros Hb Hj. exists (f b <$> row). rewrite tmapi_lookup, Hb. simpl.
  split; [done|]. split; [by rewrite length_fmap|].
  by rewrite list_lookup_fmap, Hj.
Qed.

Lemma query_None (s : Net) points calibs tr lbls :
  query s points calibs tr lbls = None -> im_feat_list s = [].
Proof.
  intros Hq. destruct (last (im_feat_list s)) as [f|] eqn:Hl.
  - destruct (query_spec s points calibs tr lbls f Hl) as (s' & Hq' & _).
    by rewrite Hq in Hq'.
  - by apply last_None.
Qed.

Lemma query_labels (s s' : Net) points calibs tr lbls :
  query s points calibs tr lbls = Some s' ->
  labels s' = match lbls with
              | Some l => Some (tmul (tmap in_bb1 (tmapi (projection calibs tr) points)) l)
              | None => labels s
              end.
Proof.
  unfold query. destruct (last _); [|done]. intros [= <-]. simpl. done.
Qed.

(** X1.  [query] leaves the network's output untouched at a point whose
    projection lies in the cube [-1, 1]^3: the stored prediction is the
    value of the MLP at the features of that point. *)
Theorem query_inside_is_network (s : Net) points calibs tr lbls f b pts j p :
  last (im_feat_list s) = Some f ->
  points !! b = Some pts ->
  pts !! j = Some p ->
  inside_cube (projection calibs tr b p) ->
  exists s' t row,
    query s points calibs tr lbls = Some s' /\
    preds s' = Some t /\ t !! b = Some row /\
    row !! j = Some (network_at s calibs tr f b p).
Proof.
  intros Hl Hb Hj (Hx & Hy & Hz).
  destruct (query_spec s points calibs tr lbls f Hl) as (s' & Hq & Hp & _).
  destruct (tmapi_lookup_lookup (pred_at s calibs tr f) points b pts j p Hb Hj)
    as (row & Hrow & _ & Hv).
  eexists s', _, row. split; [done|]. split; [exact Hp|]. split; [done|].
  rewrite Hv. f_equal. unfold pred_at. rewrite in_bb1_inside by done. lra.
Qed.

(** X2.  When labels are given, [query] stores them multiplied by the
    bounding-box indicator: the label of a point projected outside the cube
    becomes 0, the label of a point inside is kept. *)
Theorem query_masks_labels (s s' : Net) points calibs tr l b pts j p lrow v :
  query s points calibs tr (Some l) = Some s' ->
  points !! b = Some pts -> pts !! j = Some p ->
  l !! b = Some lrow -> lrow !! j = Some v ->
  exists t row,
    labels s' = Some t /\ t !! b = Some row /\
    row !! j = Some (in_bb1 (projection calibs tr b p) * v) /\
    (outside_cube (projection calibs tr b p) -> row !! j = Some 0) /\
    (inside_cube (projection calibs tr b p) -> row !! j = Some v).
Proof.
  intros Hq Hb Hj Hlb Hlj.
  rewrite (query_labels _ _ _ _ _ _ Hq).
  eexists _, _. split; [reflexivity|].
  assert (tmul (tmap in_bb1 (tmapi (projection calibs tr) points)) l !! b
          = Some (zip_with Rmult (in_bb1 <$> (projection calibs tr b <$> pts)) lrow))
    as Hrow.
  { unfold tmul, tmap. rewrite lookup_zip_with, list_lookup_fmap, tmapi_lookup, Hb.
    simpl. by rewrite Hlb. }
  split; [exact Hrow|].
  assert (zip_with Rmult (in_bb1 <$> (projection calibs tr b <$> pts)) lrow !! j
          = Some (in_bb1 (projection calibs tr b p) * v)) as Hv.
  { rewrite lookup_zip_with, !list_lookup_fmap, Hj. simpl. by rewrite Hlj. }
  split; [exact Hv|]. split.
  - intros Hout. rewrite Hv, (in_bb1_outside _ Hout). f_equal. lra.
  - intros (Hx & Hy & Hz). rewrite Hv, in_bb1_inside by done. f_equal. lra.
Qed.

(** X3.  [query] stores one prediction tensor for every feature map
    kept by [filter], [preds] is the last of them, and each has one row per
    batch element and one entry per point. *)
Theorem query_one_prediction_per_feature (s s' : Net) points calibs tr lbls :
  query s points calibs tr lbls = Some s' ->
  length (intermediate_preds_list s') = length (im_feat_list s) /\
  last (intermediate_preds_list s') = preds s' /\
  Forall (fun t : Tensor1 =>
            length t = length points /\
            forall b pts row, points !! b = Some pts -> t !! b = Some row ->
                              length row = length pts)
         (intermediate_preds_list s').
Proof.
  intros Hq.
  destruct (last (im_feat_list s)) as [f|] eqn:Hl.
  2:{ apply last_None in Hl. by rewrite (query_fails _ _ _ _ _ Hl) in Hq. }
  destruct (query_spec s points calibs tr lbls f Hl) as (s'' & Hq' & Hp & Hi).
  rewrite Hq in Hq'. injection Hq' as <-.
  rewrite Hi, Hp. split; [by rewrite length_fmap|]. split.
  - by rewrite fmap_last, Hl.
  - apply Forall_fmap, Forall_forall. intros f' _. simpl. split.
    + apply tmapi_length.
    + intros b pts row Hb. rewrite tmapi_lookup, Hb. simpl. intros [= <-].
      by rewrite length_fmap.
Qed.

(** X4.  What fails, and when.  [filter] fails exactly in evaluation
    mode on an image filter that returns no feature map; [query] and
    [calc_normal] fail exactly when no feature map is stored, that is, when
    [filter] has not been called. *)
Theorem query_needs_filter (s : Net) images points calibs tr lbls lbls3 delta :
  (filter s images = None <->
   training s = false /\ (image_filter images).1 = []) /\
  (query s points calibs tr lbls = None <-> im_feat_list s = []) /\
  (calc_normal s points calibs tr lbls3 delta = None <-> im_feat_list s = []).
Proof.
  split; [|split]; split.
  - unfold filter. destruct (image_filter images) as [feats nx]. simpl.
    destruct (training s); [done|].
    destruct (last feats) eqn:Hl; [done|]. intros _. split; [done|].
    by apply last_None.
  - unfold filter. destruct (image_filter images) as [feats nx]. simpl.
    intros [-> ->]. done.
  - apply query_None.
  - apply query_fails.
  - unfold calc_normal. destruct (last (im_feat_list s)) eqn:Hl; [done|].
    intros _. by apply last_None.
  - intros H. unfold calc_normal. by rewrite H.
Qed.

(** X5.  After a successful [filter], [get_im_feat] is the feature map
    of the last stack, [query] succeeds, and it stores one prediction in
    evaluation mode and one per stack in training mode. *)
Theorem filter_then_query_succeeds (s0 s : Net) images points calibs tr lbls :
  filter s0 images = Some s ->
  (training s0 = true -> (image_filter images).1 <> []) ->
  exists f s',
    last (image_filter images).1 = Some f /\
    get_im_feat s = Some f /\
    query s points calibs tr lbls = Some s' /\
    length (intermediate_preds_list s') =
      (if training s0 then length (image_filter images).1 else 1%nat).
Proof.
  intros Hf Hne.
  assert (get_im_feat s = last (image_filter images).1 /\
          length (im_feat_list s) =
            (if training s0 then length (image_filter images).1 else 1%nat))
    as [Hg Hlen].
  { revert Hf. unfold filter, get_im_feat.
    destruct (image_filter images) as [feats nx]. simpl.
    destruct (training s0).
    - by intros [= <-].
    - destruct (last feats) as [f|] eqn:Hl; [|done]. by intros [= <-]. }
  pose proof (filter_im_feat_list _ _ _ Hf Hne) as Hs.
  destruct (last (im_feat_list s)) as [f|] eqn:Hl; [|by apply last_None in Hl].
  destruct (query_spec s points calibs tr lbls f Hl) as (s' & Hq & _ & Hi).
  exists f, s'. unfold get_im_feat in *. rewrite <- Hg, Hl.
  repeat split; try done. by rewrite Hi, length_fmap.
Qed.

(** X6.  [calc_normal] stores one normal and one surface prediction
    per point, and the surface prediction is the value of the network at
    the point itself: unlike [query] it is not multiplied by the
    bounding-box indicator. *)
Theorem calc_normal_surface_is_unmasked (s : Net) points calibs tr lbls delta f
    b pts j p :
  last (im_feat_list s) = Some f ->
  points !! b = Some pts ->
  pts !! j = Some p ->
  exists s' n t nrow row,
    calc_normal s points calibs tr lbls delta = Some s' /\
    nmls s' = Some n /\ preds_surface s' = Some t /\
    length n = length points /\ length t = length points /\
    n !! b = Some nrow /\ t !! b = Some row /\
    length nrow = length pts /\ length row = length pts /\
    row !! j = Some (network_at s calibs tr f b p).
Proof.
  intros Hl Hb Hj.
  destruct (calc_normal_spec s points calibs tr lbls delta f Hl) as (s' & Hc & Hn & Hs).
  destruct (tmapi_lookup_lookup (network_at s calibs tr f) points b pts j p Hb Hj)
    as (row & Hrow & Hlen & Hv).
  destruct (tmapi_lookup_lookup
              (fun b p => normalize normalize_eps (fd_vector s calibs tr f delta b p))
              points b pts j p Hb Hj) as (nrow & Hnrow & Hnlen & _).
  eexists s', _, _, nrow, row.
  split; [done|]. split; [exact Hn|]. split; [exact Hs|].
  rewrite !tmapi_length. done.
Qed.

(** X7.  No normal stored by [calc_normal] is longer than 1. *)
Theorem calc_normal_at_most_unit (s s' : Net) points calibs tr lbls delta n :
  calc_normal s points calibs tr lbls delta = Some s' ->
  nmls s' = Some n ->
  Forall (Forall (fun v => norm2 v <= 1)) n.
Proof.
  intros Hc Hn.
  destruct (last (im_feat_list s)) as [f|] eqn:Hl.
  2:{ unfold calc_normal in Hc. by rewrite Hl in Hc. }
  destruct (calc_normal_spec s points calibs tr lbls delta f Hl) as (s'' & Hc' & Hn' & _).
  rewrite Hc in Hc'. injection Hc' as <-. rewrite Hn in Hn'. injection Hn' as ->.
  apply tmapi_Forall. intros. apply norm2_normalize_le, normalize_eps_pos.
Qed.

(** X8.  "Divide by delta is omitted since it's normalized anyway":
    the stored normal is the normalization of the difference quotient, as
    long as the difference vector and the quotient are at least
    [normalize_eps] long. *)
Theorem calc_normal_delta_is_immaterial (s : Net) points calibs tr lbls delta f
    b pts j p :
  last (im_feat_list s) = Some f ->
  points !! b = Some pts ->
  pts !! j = Some p ->
  0 < delta ->
  normalize_eps <= norm2 (fd_vector s calibs tr f delta b p) ->
  normalize_eps * delta <= norm2 (fd_vector s calibs tr f delta b p) ->
  exists s' n nrow,
    calc_normal s points calibs tr lbls delta = Some s' /\
    nmls s' = Some n /\ n !! b = Some nrow /\
    nrow !! j =
      Some (normalize normalize_eps
              (scale (/ delta) (fd_vector s calibs tr f delta b p))).
Proof.
  intros Hl Hb Hj Hd Hv Hvd.
  destruct (calc_normal_spec s points calibs tr lbls delta f Hl) as (s' & Hc & Hn & _).
  destruct (tmapi_lookup_lookup
              (fun b p => normalize normalize_eps (fd_vector s calibs tr f delta b p))
              points b pts j p Hb Hj) as (nrow & Hnrow & _ & Hnv).
  eexists s', _, nrow. split; [done|]. split; [exact Hn|]. split; [done|].
  rewrite Hnv. f_equal. symmetry. apply normalize_scale.
  - apply normalize_eps_pos.
  - by apply Rinv_0_lt_compat.
  - done.
  - pose proof (Rinv_0_lt_compat delta Hd) as Hi.
    apply (Rmult_le_compat_l (/ delta)) in Hvd; [|lra].
    replace (/ delta * (normalize_eps * delta)) with normalize_eps in Hvd
      by (field; lra).
    exact Hvd.
Qed.
End QueryMore.

(** X1 on the depth network, at the point (0, 0, 0.5). *)
Lemma query_inside_is_network_witness :
  exists s' t row,
    query (C:=toy depth_body) (toy_filtered depth_body) [[Vec.mk 0 0 0.5]] tt None None
      = Some s' /\
    preds s' = Some t /\ t !! 0%nat = Some row /\
    row !! 0%nat =
      Some (network_at (toy_filtered depth_body) tt None tt 0 (Vec.mk 0 0 0.5)).
Proof.
  apply (query_inside_is_network (C:=toy depth_body) (toy_filtered depth_body)
           [[Vec.mk 0 0 0.5]] tt None None tt 0%nat [Vec.mk 0 0 0.5] 0%nat
           (Vec.mk 0 0 0.5)).
  - reflexivity.
  - reflexivity.
  - reflexivity.
  - unfold inside_cube. simpl. lra.
Defined.

(** X2 on the depth network: the label of the point (2, 0, 0). *)
Lemma query_masks_labels_witness :
  exists s',
    query (C:=toy depth_body) (toy_filtered depth_body) [[Vec.mk 2 0 0]] tt None
      (Some [[1]]) = Some s' /\
    exists t row,
      labels s' = Some t /\ t !! 0%nat = Some row /\
      row !! 0%nat = Some (in_bb1 (Vec.mk 2 0 0) * 1) /\
      (outside_cube (Vec.mk 2 0 0) -> row !! 0%nat = Some 0) /\
      (inside_cube (Vec.mk 2 0 0) -> row !! 0%nat = Some 1).
Proof.
  eexists. split; [reflexivity|].
  refine (query_masks_labels (C:=toy depth_body) (toy_filtered depth_body) _
            [[Vec.mk 2 0 0]] tt None [[1]] 0%nat [Vec.mk 2 0 0] 0%nat
            (Vec.mk 2 0 0) [1] 1 _ _ _ _ _); reflexivity.
Defined.

(** X3 on the depth network. *)
Lemma query_one_prediction_per_feature_witness :
  exists s',
    query (C:=toy depth_body) (toy_filtered depth_body) [[Vec.mk 0 0 0.5]] tt None None
      = Some s' /\
    length (intermediate_preds_list s') =
      length (im_feat_list (toy_filtered depth_body)) /\
    last (intermediate_preds_list s') = preds s' /\
    Forall (fun t : Tensor1 =>
              length t = length [[Vec.mk 0 0 0.5]] /\
              forall b pts row, [[Vec.mk 0 0 0.5]] !! b = Some pts ->
                                t !! b = Some row -> length row = length pts)
           (intermediate_preds_list s').
Proof.
  eexists. split; [reflexivity|].
  apply (query_one_prediction_per_feature (C:=toy depth_body)
           (toy_filtered depth_body) _ [[Vec.mk 0 0 0.5]] tt None None).
  reflexivity.
Defined.

(** X5 on the depth network in evaluation mode. *)
Lemma filter_then_query_succeeds_witness :
  exists f s',
    last (image_filter (Collaborators:=toy depth_body) tt).1 = Some f /\
    get_im_feat (toy_filtered depth_body) = Some f /\
    query (C:=toy depth_body) (toy_filtered depth_body) [[Vec.zero]] tt None None
      = Some s' /\
    length (intermediate_preds_list s') = 1%nat.
Proof.
  apply (filter_then_query_succeeds (C:=toy depth_body) (toy_net depth_body)
           (toy_filtered depth_body) tt [[Vec.zero]] tt None None).
  - reflexivity.
  - intros H. discriminate H.
Defined.

(** X6 on the depth network, at the point (2, 0, 0) outside the cube. *)
Lemma calc_normal_surface_is_unmasked_witness :
  exists s' n t nrow row,
    calc_normal (C:=toy depth_body) (toy_filtered depth_body) [[Vec.mk 2 0 0]] tt
      None None default_delta = Some s' /\
    nmls s' = Some n /\ preds_surface s' = Some t /\
    length n = 1%nat /\ length t = 1%nat /\
    n !! 0%nat = Some nrow /\ t !! 0%nat = Some row /\
    length nrow = 1%nat /\ length row = 1%nat /\
    row !! 0%nat =
      Some (network_at (toy_filtered depth_body) tt None tt 0 (Vec.mk 2 0 0)).
Proof.
  apply (calc_normal_surface_is_unmasked (C:=toy depth_body)
           (toy_filtered depth_body) [[Vec.mk 2 0 0]] tt None None default_delta tt
           0%nat [Vec.mk 2 0 0] 0%nat (Vec.mk 2 0 0)); reflexivity.
Defined.

(** X7 on the depth network at the origin. *)
Lemma calc_normal_at_most_unit_witness :
  exists s' n,
    calc_normal (C:=toy depth_body) (toy_filtered depth_body) [[Vec.zero]] tt
      None None default_delta = Some s' /\
    nmls s' = Some n /\
    Forall (Forall (fun v => norm2 v <= 1)) n.
Proof.
  eexists _, _. split; [reflexivity|]. split; [reflexivity|].
  refine (calc_normal_at_most_unit (C:=toy depth_body) (toy_filtered depth_body) _
            [[Vec.zero]] tt None None default_delta _ _ _); reflexivity.
Defined.

(** The sigmoid rises by more than 0.02 between 0 and 0.1. *)
Lemma sigmoid_rise : 0.02 <= sigmoid (0 + 0.1) - sigmoid 0.
Proof.
  unfold sigmoid. rewrite Ropp_0, exp_0.
  replace (0 + 0.1) with 0.1 by lra. rewrite exp_Ropp.
  pose proof (exp_ineq1 0.1 ltac:(lra)) as He.
  set (e := / exp 0.1).
  assert (e * exp 0.1 = 1) as Hee by (unfold e; apply Rinv_l; lra).
  assert (0 < e) as Hp by (unfold e; apply Rinv_0_lt_compat; lra).
  assert (e <= 0.91) as Hle by nra.
  assert ((1 + e) * / (1 + e) = 1) as Hinv by (apply Rinv_r; lra).
  assert (0 < / (1 + e)) as Hpos by (apply Rinv_0_lt_compat; lra).
  unfold Rdiv. rewrite !Rmult_1_l.
  assert (/ (1 + 1) = 0.5) as -> by lra.
  nra.
Qed.

Lemma depth_difference_is_long :
  0.02 <= norm2 (fd_vector (C:=toy depth_body) (toy_filtered depth_body) tt None tt
                   default_delta 0 Vec.zero).
Proof.
  set (v := fd_vector _ _ _ _ _ _ _).
  destruct (coord_le_norm2 v) as (_ & _ & Hz).
  assert (z v = - (sigmoid (0 + 0.1) - sigmoid 0)) as Hzv by reflexivity.
  rewrite Hzv, Rabs_Ropp in Hz.
  pose proof sigmoid_rise. pose proof (Rle_abs (sigmoid (0 + 0.1) - sigmoid 0)).
  lra.
Qed.

(** X8 on the depth network at the origin. *)
Lemma calc_normal_delta_is_immaterial_witness :
  exists s' n nrow,
    calc_normal (C:=toy depth_body) (toy_filtered depth_body) [[Vec.zero]] tt
      None None default_delta = Some s' /\
    nmls s' = Some n /\ n !! 0%nat = Some nrow /\
    nrow !! 0%nat =
      Some (normalize normalize_eps
              (scale (/ default_delta)
                 (fd_vector (toy_filtered depth_body) tt None tt default_delta 0
                    Vec.zero))).
Proof.
  apply (calc_normal_delta_is_immaterial (C:=toy depth_body)
           (toy_filtered depth_body) [[Vec.zero]] tt None None default_delta tt
           0%nat [Vec.zero] 0%nat Vec.zero).
  - reflexivity.
  - reflexivity.
  - reflexivity.
  - unfold default_delta. lra.
  - pose proof depth_difference_is_long. unfold normalize_eps. lra.
  - pose proof depth_difference_is_long as H. revert H.
    generalize (norm2 (fd_vector (C:=toy depth_body) (toy_filtered depth_body) tt
                         None tt default_delta 0 Vec.zero)).
    intros r Hr. unfold normalize_eps, default_delta. lra.
Defined.
End NetFacts.

(** ** Programs: executions, results and calls *)

Module ProgFacts.
Import Py Prog.

Section Trees.
Context {Op : Type -> Type}.
Implicit Types ok : forall X : Type, Op X -> result X -> Prop.
Implicit Types P : forall X : Type, Op X -> Prop.

Lemma bind_unfold {A B} (p : prog Op A) (f : A -> prog Op B) :
  p ≫= f = bind p f.
Proof. reflexivity. Qed.

Lemma run_bind {A B} (w : world Op) (p : prog Op A) (f : A -> prog Op B) tr :
  run w (p ≫= f) tr =
  match run w p tr with
  | (Ok a, tr') => run w (f a) tr'
  | (Err e, tr') => (Err e, tr')
  end.
Proof.
  rewrite bind_unfold. revert tr.
  induction p as [a|e|o k IH|X op k IH]; intros tr; simpl; auto.
Qed.

Lemma run_try_except {A} (w : world Op) (p : prog Op A) h tr :
  run w (try_except p h) tr =
  match run w p tr with
  | (Ok a, tr') => (Ok a, tr')
  | (Err e, tr') => run w (h e) tr'
  end.
Proof.
  revert tr. induction p as [a|e|o k IH|X op k IH]; intros tr; simpl; auto.
Qed.

Lemma run_extends {A} (w : world Op) (p : prog Op A) tr :
  exists tr', (run w p tr).2 = tr ++ tr'.
Proof.
  revert tr. induction p as [a|e|o k IH|X op k IH]; intros tr; simpl.
  - exists []. by rewrite app_nil_r.
  - exists []. by rewrite app_nil_r.
  - destruct (IH (tr ++ [EvPrint o])) as [tr' ->].
    exists (EvPrint o :: tr'). by rewrite <- app_assoc.
  - destruct (IH (w tr X op) (tr ++ [EvCall op (w tr X op)])) as [tr' ->].
    eexists (_ :: tr'). by rewrite <- app_assoc.
Qed.

Lemma results_under_mono ok {A} (Q Q' : A -> Prop) (p : prog Op A) :
  (forall a, Q a -> Q' a) -> results_under ok Q p -> results_under ok Q' p.
Proof.
  intros HQ. induction p as [a|e|o k IH|X op k IH]; simpl; auto.
Qed.

Lemma results_under_True ok {A} (p : prog Op A) :
  results_under ok (fun _ => True) p.
Proof. induction p as [a|e|o k IH|X op k IH]; simpl; auto. Qed.

Lemma results_under_bind ok {A B} (Q : B -> Prop) (p : prog Op A) f :
  results_under ok (fun a => results_under ok Q (f a)) p ->
  results_under ok Q (p ≫= f).
Proof.
  rewrite bind_unfold.
  induction p as [a|e|o k IH|X op k IH]; simpl; auto.
Qed.

Lemma returns_under_bind ok {A B} (p : prog Op A) (f : A -> prog Op B) :
  returns_under ok p ->
  results_under ok (fun a => returns_under ok (f a)) p ->
  returns_under ok (p ≫= f).
Proof.
  rewrite bind_unfold.
  induction p as [a|e|o k IH|X op k IH]; simpl; auto.
Qed.

Lemma calls_under_bind ok P {A B} (p : prog Op A) (f : A -> prog Op B) :
  calls_under ok P p ->
  results_under ok (fun a => calls_under ok P (f a)) p ->
  calls_under ok P (p ≫= f).
Proof.
  rewrite bind_unfold.
  induction p as [a|e|o k IH|X op k IH]; simpl; auto.
  intros [HP Hk] Hr. split; auto.
Qed.

Lemma calls_under_bind_all ok P {A B} (p : prog Op A) (f : A -> prog Op B) :
  calls_under ok P p ->
  (forall a, calls_under ok P (f a)) ->
  calls_under ok P (p ≫= f).
Proof.
  intros Hp Hf. apply calls_under_bind; [done|].
  eapply results_under_mono; [|apply results_under_True]. auto.
Qed.

Lemma returns_under_try_except ok {A} (p : prog Op A) h :
  (forall e, returns_under ok (h e)) -> returns_under ok (try_except p h).
Proof.
  intros Hh. induction p as [a|e|o k IH|X op k IH]; simpl; auto.
Qed.

Lemma calls_under_try_except ok P {A} (p : prog Op A) h :
  calls_under ok P p -> (forall e, calls_under ok P (h e)) ->
  calls_under ok P (try_except p h).
Proof.
  intros Hp Hh. induction p as [a|e|o k IH|X op k IH]; simpl in *; auto.
  destruct Hp as [HP Hk]. split; auto.
Qed.

Lemma calls_under_call ok P {X} (op : Op X) : P X op -> calls_under ok P (call op).
Proof. intros. simpl. split; [done|]. by intros [v|e] _. Qed.

Lemma calls_under_lift ok P {A} (r : result A) : calls_under ok P (lift (Op:=Op) r).
Proof. by destruct r. Qed.

Lemma calls_under_for ok P {I S} (xs : list I) (body : I -> S -> prog Op (ctl S)) s :
  (forall i s, i ∈ xs -> calls_under ok P (body i s)) ->
  calls_under ok P (for_ xs body s).
Proof.
  revert s. induction xs as [|i xs IH]; intros s Hb; simpl; [done|].
  apply (calls_under_bind_all ok P (body i s)).
  - apply Hb. by left.
  - intros [s'|s']; [|done]. apply IH. intros. apply Hb. by right.
Qed.

Lemma run_calls P {A} (w : world Op) (p : prog Op A) tr :
  calls_under (fun _ _ _ => True) P p ->
  Forall (event_sat P) tr ->
  Forall (event_sat P) (run w p tr).2.
Proof.
  revert tr. induction p as [a|e|o k IH|X op k IH]; intros tr; simpl; auto.
  - intros Hk Htr. apply IH; [done|]. apply Forall_app. split; [done|].
    by repeat constructor.
  - intros [HP Hk] Htr. apply IH; [by apply Hk|]. apply Forall_app.
    split; [done|]. by repeat constructor.
Qed.

Lemma run_returns ok {A} (Q : A -> Prop) (w : world Op) (p : prog Op A) tr :
  (forall tr X (op : Op X), ok X op (w tr X op)) ->
  returns_under ok p ->
  results_under ok Q p ->
  exists a, (run w p tr).1 = Ok a /\ Q a.
Proof.
  intros Hw. revert tr.
  induction p as [a|e|o k IH|X op k IH]; intros tr; simpl; eauto.
  done.
Qed.
End Trees.

Section ForFacts.
Context {Op : Type -> Type}.
Implicit Types ok : forall X : Type, Op X -> result X -> Prop.

Lemma results_under_for ok {I S} (Inv : S -> Prop) (xs : list I)
    (body : I -> S -> prog Op (ctl S)) s :
  Inv s ->
  (forall i s, i ∈ xs -> Inv s ->
     results_under ok (fun c => Inv (ctl_state c)) (body i s)) ->
  results_under ok Inv (for_ xs body s).
Proof.
  revert s. induction xs as [|i xs IH]; intros s Hs Hb; simpl; [done|].
  apply (results_under_bind ok Inv (body i s)).
  eapply results_under_mono; [|apply Hb; [by left|done]].
  intros [s'|s'] Hs'; simpl in *; [|done].
  apply IH; [done|]. intros. apply Hb; [by right|done].
Qed.

Lemma returns_under_for ok {I S} (Inv : S -> Prop) (xs : list I)
    (body : I -> S -> prog Op (ctl S)) s :
  Inv s ->
  (forall i s, i ∈ xs -> Inv s ->
     returns_under ok (body i s) /\
     results_under ok (fun c => Inv (ctl_state c)) (body i s)) ->
  returns_under ok (for_ xs body s).
Proof.
  revert s. induction xs as [|i xs IH]; intros s Hs Hb; simpl; [done|].
  destruct (Hb i s ltac:(by left) Hs) as [Hr Hq].
  apply (returns_under_bind ok (body i s)); [done|].
  eapply results_under_mono; [|exact Hq].
  intros [s'|s'] Hs'; simpl in *; [|done].
  apply IH; [done|]. intros. apply Hb; [by right|done].
Qed.
End ForFacts.

Section RunFacts.
Context {Op : Type -> Type}.

Lemma run_call {X} (w : world Op) (op : Op X) tr :
  run w (call op) tr = (w tr X op, tr ++ [EvCall op (w tr X op)]).
Proof. simpl. by destruct (w tr X op). Qed.

Lemma run_returns_trace ok {A} (Q : A -> Prop) (w : world Op) (p : prog Op A) tr :
  (forall tr X (op : Op X), ok X op (w tr X op)) ->
  returns_under ok p ->
  results_under ok Q p ->
  exists a tr', run w p tr = (Ok a, tr ++ tr') /\ Q a.
Proof.
  intros Hw Hr Hq.
  destruct (run_returns ok Q w p tr Hw Hr Hq) as (a & Ha & HQ).
  destruct (run_extends w p tr) as [tr' Htr].
  exists a, tr'. split; [|done].
  destruct (run w p tr) as [r t]. simpl in *. by subst.
Qed.
End RunFacts.

Section ResultFacts.
Context {Op : Type -> Type}.
Implicit Types ok : forall X : Type, Op X -> result X -> Prop.

Lemma run_results {A} (Q : A -> Prop) (w : world Op) (p : prog Op A) tr a :
  results_under (fun _ _ _ => True) Q p ->
  (run w p tr).1 = Ok a -> Q a.
Proof.
  revert tr. induction p as [a'|e|o k IH|X op k IH]; intros tr; simpl.
  - intros HQ Ha. by injection Ha as <-.
  - done.
  - apply IH.
  - intros HQ. apply IH. by apply HQ.
Qed.

Lemma results_under_call_bind ok {X B} (Q : B -> Prop) (op : Op X)
    (f : X -> prog Op B) :
  (forall v, results_under ok Q (f v)) ->
  results_under ok Q (call op ≫= f).
Proof.
  intros Hf. rewrite bind_unfold. simpl. intros [v|e] _; simpl; auto.
Qed.

Lemma results_under_lift_bind ok {A B} (Q : B -> Prop) (r : result A)
    (f : A -> prog Op B) :
  (forall v, r = Ok v -> results_under ok Q (f v)) ->
  results_under ok Q (lift r ≫= f).
Proof. intros Hf. rewrite bind_unfold. destruct r; simpl; auto. Qed.

Lemma results_under_print_bind ok {B} (Q : B -> Prop) o (k : prog Op B) :
  results_under ok Q k -> results_under ok Q (print o ≫= fun _ => k).
Proof. done. Qed.
End ResultFacts.

Section ProgMore.
Context {Op : Type -> Type}.
Implicit Types ok : forall X : Type, Op X -> result X -> Prop.
Implicit Types P : forall X : Type, Op X -> Prop.

Lemma run_new_calls ok P {A} (w : world Op) (p : prog Op A) tr :
  (forall tr X (op : Op X), ok X op (w tr X op)) ->
  calls_under ok P p ->
  exists evs, (run w p tr).2 = tr ++ evs /\ Forall (event_sat P) evs.
Proof.
  intros Hw. revert tr.
  induction p as [a|e|o k IH|X op k IH]; intros tr; simpl.
  - intros _. exists []. by rewrite app_nil_r.
  - intros _. exists []. by rewrite app_nil_r.
  - intros Hk. destruct (IH (tr ++ [EvPrint o]) Hk) as (evs & -> & Hevs).
    exists (EvPrint o :: evs). rewrite <- app_assoc. split; [done|].
    by constructor.
  - intros [HP Hk].
    destruct (IH (w tr X op) (tr ++ [EvCall op (w tr X op)]) (Hk _ (Hw tr X op)))
      as (evs & -> & Hevs).
    exists (EvCall op (w tr X op) :: evs). rewrite <- app_assoc. split; [done|].
    by constructor.
Qed.

Lemma run_results_under ok {A} (Q : A -> Prop) (w : world Op) (p : prog Op A) tr a :
  (forall tr X (op : Op X), ok X op (w tr X op)) ->
  results_under ok Q p ->
  (run w p tr).1 = Ok a -> Q a.
Proof.
  intros Hw. revert tr.
  induction p as [a'|e|o k IH|X op k IH]; intros tr; simpl.
  - intros HQ Ha. by injection Ha as <-.
  - done.
  - apply IH.
  - intros HQ. apply IH. apply HQ, Hw.
Qed.

Lemma run_raises ok {A} (Q : exn -> Prop) (w : world Op) (p : prog Op A) tr e :
  (forall tr X (op : Op X), ok X op (w tr X op)) ->
  raises_under ok Q p ->
  (run w p tr).1 = Err e -> Q e.
Proof.
  intros Hw. revert tr.
  induction p as [a'|e'|o k IH|X op k IH]; intros tr; simpl.
  - done.
  - intros HQ He. by injection He as <-.
  - apply IH.
  - intros HQ. apply IH. apply HQ, Hw.
Qed.

Lemma raises_under_bind ok {A B} (Q : exn -> Prop) (p : prog Op A)
    (f : A -> prog Op B) :
  raises_under ok Q p ->
  results_under ok (fun a => raises_under ok Q (f a)) p ->
  raises_under ok Q (p ≫= f).
Proof.
  rewrite bind_unfold.
  induction p as [a|e|o k IH|X op k IH]; simpl; auto.
Qed.

Lemma raises_under_call_bind ok {X B} (Q : exn -> Prop) (op : Op X)
    (f : X -> prog Op B) :
  (forall e, ok X op (Err e) -> Q e) ->
  (forall v, ok X op (Ok v) -> raises_under ok Q (f v)) ->
  raises_under ok Q (call op ≫= f).
Proof.
  intros He Hf. rewrite bind_unfold. simpl. intros [v|e] Hr; simpl; auto.
Qed.

Lemma raises_under_lift_bind ok {A B} (Q : exn -> Prop) (r : result A)
    (f : A -> prog Op B) :
  (forall e, r = Err e -> Q e) ->
  (forall v, r = Ok v -> raises_under ok Q (f v)) ->
  raises_under ok Q (lift r ≫= f).
Proof. intros He Hf. rewrite bind_unfold. destruct r; simpl; auto. Qed.

Lemma calls_under_call_bind ok P {X B} (op : Op X) (f : X -> prog Op B) :
  P X op ->
  (forall v, ok X op (Ok v) -> calls_under ok P (f v)) ->
  calls_under ok P (call op ≫= f).
Proof.
  intros HP Hf. rewrite bind_unfold. simpl. split; [done|].
  intros [v|e] Hr; simpl; auto.
Qed.

Lemma results_under_call_bind_ok ok {X B} (Q : B -> Prop) (op : Op X)
    (f : X -> prog Op B) :
  (forall v, ok X op (Ok v) -> results_under ok Q (f v)) ->
  results_under ok Q (call op ≫= f).
Proof.
  intros Hf. rewrite bind_unfold. simpl. intros [v|e] Hr; simpl; auto.
Qed.

Lemma run_result_trace {A} (w : world Op) (p : prog Op A) tr :
  run w p tr = ((run w p tr).1, (run w p tr).2).
Proof. by destruct (run w p tr). Qed.

Lemma raises_under_bind_all ok {A B} (Q : exn -> Prop) (p : prog Op A)
    (f : A -> prog Op B) :
  raises_under ok Q p -> (forall a, raises_under ok Q (f a)) ->
  raises_under ok Q (p ≫= f).
Proof.
  intros Hp Hf. apply raises_under_bind; [done|].
  eapply results_under_mono; [|apply results_under_True]. auto.
Qed.

Lemma raises_under_call ok (Q : exn -> Prop) {X} (op : Op X) :
  (forall e, ok X op (Err e) -> Q e) -> raises_under ok Q (call op).
Proof. intros H. simpl. intros [v|e] Hr; simpl; auto. Qed.

Lemma raises_under_lift ok (Q : exn -> Prop) {A} (r : result A) :
  (forall e, r = Err e -> Q e) -> raises_under ok Q (lift (Op:=Op) r).
Proof. intros H. destruct r; simpl; auto. Qed.

Lemma raises_under_for ok (Q : exn -> Prop) {I S} (xs : list I)
    (body : I -> S -> prog Op (ctl S)) s :
  (forall i s, raises_under ok Q (body i s)) ->
  raises_under ok Q (for_ xs body s).
Proof.
  intros Hb. revert s. induction xs as [|i xs IH]; intros s; simpl; [done|].
  apply (raises_under_bind_all ok Q (body i s)); [apply Hb|].
  intros [s'|s']; [apply IH|done].
Qed.

(** A handler that returns on what the block can raise. *)
Lemma returns_under_try_except_raises ok {A} (Q : exn -> Prop)
    (p : prog Op A) h :
  raises_under ok Q p -> (forall e, Q e -> returns_under ok (h e)) ->
  returns_under ok (try_except p h).
Proof.
  intros Hp Hh. induction p as [a|e|o k IH|X op k IH]; simpl in *; auto.
Qed.

Lemma unguarded_bind {A B} (p : prog Op A) (f : A -> prog Op B) :
  unguarded p -> (forall a, unguarded (f a)) -> unguarded (p ≫= f).
Proof.
  intros Hp Hf. rewrite bind_unfold.
  induction p as [a|e|o k IH|X op k IH]; simpl in *; auto.
  destruct Hp as [He Hv]. split.
  - intros e. by rewrite He.
  - intros v. apply IH, Hv.
Qed.

Lemma unguarded_call {X} (op : Op X) : unguarded (call op).
Proof. by split. Qed.

Lemma unguarded_lift {A} (r : result A) : unguarded (lift (Op:=Op) r).
Proof. by destruct r. Qed.

Lemma unguarded_for {I S} (xs : list I) (body : I -> S -> prog Op (ctl S)) s :
  (forall i s, unguarded (body i s)) -> unguarded (for_ xs body s).
Proof.
  intros Hb. revert s. induction xs as [|i xs IH]; intros s; simpl; [done|].
  apply (unguarded_bind (body i s)); [apply Hb|].
  intros [s'|s']; [apply IH|done].
Qed.

Lemma app_eq_self_nil {A} (l k : list A) : l = l ++ k -> k = [].
Proof.
  intros H. rewrite <- (app_nil_r l) in H at 1. by apply app_inv_head in H.
Qed.

(** In a program without handlers a call that raises is the last event,
    and what it raised is the outcome. *)
Lemma run_unguarded {A} (w : world Op) (p : prog Op A) ev evs2 e :
  raised ev = Some e ->
  forall tr evs1,
    unguarded p ->
    (run w p tr).2 = tr ++ evs1 ++ ev :: evs2 ->
    (run w p tr).1 = Err e /\ evs2 = [].
Proof.
  intros Hev.
  induction p as [a|e'|o k IH|X op k IH]; intros tr evs1 Hu Htr.
  - apply app_eq_self_nil in Htr. by destruct evs1.
  - apply app_eq_self_nil in Htr. by destruct evs1.
  - change (run w (Out o k) tr) with (run w k (tr ++ [EvPrint o])) in *.
    destruct (run_extends w k (tr ++ [EvPrint o])) as [tr' Hx].
    rewrite Hx, <- app_assoc in Htr. apply app_inv_head in Htr.
    destruct evs1 as [|ev1 evs1]; simpl in Htr.
    + injection Htr as <- _. done.
    + injection Htr as _ ->. apply (IH (tr ++ [EvPrint o]) evs1 Hu).
      by rewrite Hx.
  - change (run w (Call op k) tr)
      with (run w (k (w tr X op)) (tr ++ [EvCall op (w tr X op)])) in *.
    destruct Hu as [He Hv].
    destruct (run_extends w (k (w tr X op)) (tr ++ [EvCall op (w tr X op)]))
      as [tr' Hx].
    rewrite Hx, <- app_assoc in Htr. apply app_inv_head in Htr.
    destruct evs1 as [|ev1 evs1]; simpl in Htr.
    + injection Htr as <- ->. simpl in Hev.
      destruct (w tr X op) as [v|e0]; [done|]. injection Hev as ->.
      rewrite He in *. simpl in *. split; [done|].
      by apply app_eq_self_nil in Hx.
    + injection Htr as _ ->.
      destruct (w tr X op) as [v|e0].
      * apply (IH (Ok v) (tr ++ [EvCall op (Ok v)]) evs1 (Hv v)).
        by rewrite Hx.
      * rewrite He in Hx. simpl in Hx. apply app_eq_self_nil in Hx.
        by destruct evs1.
Qed.

(** Where an event that satisfies [Q] lies in a list whose first part
    has none. *)
Lemma split_after {A} (Q : A -> Prop) (l1 l2 k1 k2 : list A) x :
  Forall (fun y => ~ Q y) l1 -> Q x ->
  l1 ++ l2 = k1 ++ x :: k2 ->
  exists k, k1 = l1 ++ k /\ l2 = k ++ x :: k2.
Proof.
  intros Hl Hx. revert k1.
  induction Hl as [|y l1 Hy _ IH]; intros k1 Heq; simpl in *; [by exists k1|].
  destruct k1 as [|z k1]; simpl in Heq.
  - injection Heq as -> _. done.
  - injection Heq as -> Heq. destruct (IH k1 Heq) as (k & -> & ->).
    by exists k.
Qed.

Lemma split_before_last {A} (l k1 k2 : list A) x y :
  x <> y -> l ++ [y] = k1 ++ x :: k2 ->
  exists b, l = k1 ++ x :: b /\ k2 = b ++ [y].
Proof.
  intros Hne Heq.
  destruct k2 as [|z b _] using rev_ind.
  - apply app_inj_tail in Heq as [_ ->]. done.
  - rewrite app_comm_cons, app_assoc in Heq.
    apply app_inj_tail in Heq as [-> ->]. by exists b.
Qed.
End ProgMore.
End ProgFacts.

(** ** [recon_mrv2]: [gen_mesh] and [recon] *)

Module ReconFacts.
Import Vec Py Prog ReconMRv2 VecFacts ProgFacts Examples.
Local Open Scope Z_scope.

Section Attributes.
Context {E : Externals}.
Implicit Types ok : forall X : Type, Op X -> result X -> Prop.
Implicit Types P : forall X : Type, Op X -> Prop.

Lemma calls_under_getattr ok P opt name :
  calls_under ok P (getattr opt name).
Proof. unfold getattr. by destruct (opt !! name). Qed.

Lemma calls_under_print ok P o : calls_under ok P (print (Op:=Op) o).
Proof. done. Qed.

Lemma calls_under_ret ok P {A} (a : A) : calls_under ok P (mret (M:=prog Op) a).
Proof. done. Qed.

End Attributes.

Ltac calls_step :=
  match goal with
  | |- calls_under _ _ (_ ≫= _) => apply calls_under_bind_all; [|intros]
  | |- calls_under _ _ (getattr _ _) => apply calls_under_getattr
  | |- calls_under _ _ (print _) => apply calls_under_print
  | |- calls_under _ _ (lift _) => apply calls_under_lift
  | |- calls_under _ _ (mret _) => exact I
  | |- calls_under _ _ (Ret _) => exact I
  | |- calls_under _ _ (Throw _) => exact I
  | |- calls_under _ _ (call _) => apply calls_under_call
  | |- calls_under _ _ (if ?b then _ else _) => destruct b
  | |- calls_under _ _ (match ?x with _ => _ end) => destruct x
  | |- calls_under _ _ (let '(_, _) := ?x in _) => destruct x
  end.

Section ReconCalls.
Context {E : Externals}.
Implicit Types ok : forall X : Type, Op X -> result X -> Prop.
Implicit Types P : forall X : Type, Op X -> Prop.

Lemma colorize_calls ok P net c verts0 verts :
  (forall pts, P _ (calc_normal net pts c)) ->
  calls_under ok P (colorize net c verts0 verts).
Proof.
  intros HP. unfold colorize. apply calls_under_for. intros i s _.
  unfold color_chunk. repeat calls_step. apply HP.
Qed.

Lemma gen_mesh_calls ok P res net data save_path thresh use_octree comp :
  (forall X (op : Op X), plain X op -> P X op) ->
  (forall a, ra_thresh a = default default_thresh thresh -> P _ (reconstruction a)) ->
  calls_under ok P (gen_mesh res net data save_path thresh use_octree comp).
Proof.
  intros Hplain Hrec. unfold gen_mesh.
  repeat calls_step; try (apply Hplain; exact I).
  - unfold with_normal_maps. simpl. split; [by apply Hplain|].
    intros [f|e] _; simpl; [|done]. split; [by apply Hplain|].
    by intros [b|e] _.
  - unfold gen_mesh_guarded. apply calls_under_try_except.
    + unfold gen_mesh_body, to_world. repeat calls_step;
        try (apply Hplain; exact I); try (by apply Hrec).
      all: apply colorize_calls; intros; by apply Hplain.
    + by intros [cls msg|cls msg].
Qed.

Lemma test_item_calls ok P opt netMR ds i u :
  (forall X (op : Op X), plain X op -> P X op) ->
  (forall a, ra_thresh a = 0.5%R -> P _ (reconstruction a)) ->
  (forall j, 0 <= j < Z.of_nat (ds_len ds) -> P _ (getitem ds j)) ->
  0 <= i ->
  calls_under ok P (test_item opt netMR ds i u).
Proof.
  intros Hplain Hrec Hget Hi. unfold test_item.
  destruct (Z.of_nat (ds_len ds) <=? i) eqn:Hlen; [done|].
  apply Z.leb_gt in Hlen.
  repeat calls_step.
  - apply Hget. lia.
  - apply gen_mesh_calls; [done|]. intros ra Hra. by apply Hrec.
Qed.

Lemma test_loop_calls ok P opt netG netMR ds start_id end_id :
  (forall X (op : Op X), plain X op -> P X op) ->
  (forall a, ra_thresh a = 0.5%R -> P _ (reconstruction a)) ->
  (forall j, 0 <= j < Z.of_nat (ds_len ds) -> P _ (getitem ds j)) ->
  calls_under ok P (test_loop opt netG netMR ds start_id end_id).
Proof.
  intros Hplain Hrec Hget. unfold test_loop, normalize_bounds.
  repeat calls_step; try (apply Hplain; exact I).
  apply calls_under_for. intros i u Hi. apply test_item_calls; try done.
  unfold range in Hi. apply elem_of_seqZ in Hi.
  destruct (start_id <? 0) eqn:Hs; [lia|]. apply Z.ltb_ge in Hs. lia.
Qed.

Lemma recon_calls ok opt : calls_under ok recon_call_ok (recon opt).
Proof.
  unfold recon, load_checkpoint, select_checkpoint, overwrite_opt,
    choose_netMR, as_int.
  repeat calls_step; try exact I.
  all: apply test_loop_calls; try done.
  all: intros X op; by destruct op.
Qed.

Lemma calls_under_mono ok (P P' : forall X : Type, Op X -> Prop) {A}
    (p : prog Op A) :
  (forall X (op : Op X), P X op -> P' X op) ->
  calls_under ok P p -> calls_under ok P' p.
Proof.
  intros HP. induction p as [a|e|o k IH|X op k IH]; simpl; auto.
  intros [H1 H2]. split; auto.
Qed.

(** C10.  In every execution of [recon], whatever the calls answer and
    whatever [start_id] and [end_id] are, every index handed to the dataset
    lies in [0, len(test_dataset)). *)
Theorem recon_indices_in_range (w : world Op) (opt : Opt) :
  Forall (event_sat index_in_range) (run w (recon opt) []).2.
Proof.
  apply run_calls; [|constructor].
  eapply calls_under_mono; [|apply recon_calls].
  intros X op. by destruct op.
Qed.
End ReconCalls.

Section Slices.
Context {A : Type}.
Implicit Types l vals : list A.

Lemma clamp_index_range n i : 0 <= n -> 0 <= clamp_index n i <= n.
Proof. unfold clamp_index. destruct (i <? 0); lia. Qed.

Lemma slice_bounds_fit n start stop a len :
  0 <= n -> slice_bounds n start stop = (a, len) -> (Z.of_nat (a + len) <= n)%Z.
Proof.
  unfold slice_bounds. intros Hn [= <- <-].
  pose proof (clamp_index_range n start Hn).
  pose proof (clamp_index_range n stop Hn). lia.
Qed.

Lemma slice_length start stop l :
  length (slice start stop l) = (slice_bounds (Z.of_nat (length l)) start stop).2.
Proof.
  unfold slice. destruct (slice_bounds _ _ _) as [a len] eqn:Hb. simpl.
  apply slice_bounds_fit in Hb; [|lia].
  rewrite length_take, length_drop. lia.
Qed.

(** What [assign_slice] writes: the rows outside the selected range stay. *)
Lemma assign_slice_spec start stop vals l l' :
  assign_slice start stop vals l = Ok l' ->
  exists a len vals',
    slice_bounds (Z.of_nat (length l)) start stop = (a, len) /\
    length vals' = len /\
    (forall v, v ∈ vals' -> v ∈ vals) /\
    l' = take a l ++ vals' ++ drop (a + len) l.
Proof.
  unfold assign_slice. destruct (slice_bounds _ _ _) as [a len] eqn:Hb.
  destruct (decide (length vals = len)) as [Hl|Hl].
  - intros [= <-]. by exists a, len, vals.
  - destruct vals as [|v [|? ?]]; try done. intros [= <-].
    exists a, len, (replicate len v). repeat split; auto.
    + apply length_replicate.
    + intros v' Hv'. apply elem_of_replicate in Hv' as [-> _]. by left.
Qed.

Lemma assign_slice_length start stop vals l l' :
  assign_slice start stop vals l = Ok l' -> length l' = length l.
Proof.
  intros H. apply assign_slice_spec in H as (a & len & vals' & Hb & Hl & _ & ->).
  apply slice_bounds_fit in Hb; [|lia].
  rewrite !length_app, length_take, length_drop. lia.
Qed.

Lemma assign_slice_Forall (P : A -> Prop) start stop vals l l' :
  assign_slice start stop vals l = Ok l' ->
  Forall P vals -> Forall P l -> Forall P l'.
Proof.
  intros H Hv Hl. apply assign_slice_spec in H as (a & len & vals' & _ & _ & Hin & ->).
  rewrite !Forall_app. repeat split.
  - by apply Forall_take.
  - apply Forall_forall. intros v Hv'. rewrite Forall_forall in Hv. auto.
  - by apply Forall_drop.
Qed.

Lemma assign_slice_above start stop vals l l' k :
  assign_slice start stop vals l = Ok l' ->
  (let '(a, len) := slice_bounds (Z.of_nat (length l)) start stop in a + len <= k)%nat ->
  l' !! k = l !! k.
Proof.
  intros H. apply assign_slice_spec in H as (a & len & vals' & Hb & Hl & _ & ->).
  rewrite Hb. intros Hk. simpl in Hk.
  pose proof (slice_bounds_fit (Z.of_nat (length l)) _ _ _ _ ltac:(lia) Hb) as Hfit.
  assert (length (take a l) = a) as Ha by (rewrite length_take; lia).
  rewrite lookup_app_r by lia. rewrite lookup_app_r by lia.
  rewrite lookup_drop. f_equal. lia.
Qed.

Lemma assign_slice_succeeds start stop vals l :
  length vals = (slice_bounds (Z.of_nat (length l)) start stop).2 ->
  exists l', assign_slice start stop vals l = Ok l'.
Proof.
  unfold assign_slice. destruct (slice_bounds _ _ _) as [a len]. simpl.
  intros Hl. rewrite decide_True by done. eauto.
Qed.
End Slices.

Section Colorize.
Context {E : Externals}.
Implicit Types ok : forall X : Type, Op X -> result X -> Prop.

(** The rows the [i]-th round writes end before the last row, unless the
    number of rows is a multiple of [interval]. *)
Lemma chunk_stops_short (n i : Z) :
  n mod interval <> 0 -> 0 <= n -> 0 <= i <= n / interval ->
  let right := if i =? n / interval then -1 else (i + 1) * interval in
  let '(a, len) := slice_bounds n (i * interval) right in
  (a + len <= Z.to_nat n - 1)%nat.
Proof.
  unfold interval, slice_bounds, clamp_index. intros Hm Hn Hi.
  pose proof (Z.div_mod n 100000 ltac:(lia)) as Hdm.
  pose proof (Z.mod_pos_bound n 100000 ltac:(lia)) as Hmb.
  destruct (Z.eqb_spec i (n / 100000)); simpl;
    repeat match goal with
           | |- context [(?a <? ?b)] => destruct (Z.ltb_spec a b)
           end; lia.
Qed.

Lemma colorize_last_untouched ok net c verts0 verts :
  Z.of_nat (length verts) mod interval <> 0 ->
  results_under ok
    (fun color => length color = length verts /\
                  color !! (length verts - 1)%nat = Some Vec.zero)
    (colorize net c verts0 verts).
Proof.
  intros Hm. unfold colorize.
  assert (length verts <> 0%nat) as Hne.
  { intros H0. rewrite H0 in Hm. by apply Hm. }
  apply results_under_for.
  { rewrite length_replicate. split; [done|].
    apply lookup_replicate_2. lia. }
  intros i color Hi [Hlen Hlast]. unfold range in Hi.
  apply elem_of_seqZ in Hi. rewrite length_replicate in Hi.
  unfold color_chunk. simpl. intros [nml|e] _; simpl; [|done].
  destruct (assign_slice _ _ _ color) as [color'|e] eqn:Ha; simpl; [|done].
  split.
  - apply assign_slice_length in Ha. lia.
  - rewrite <- Hlast. eapply assign_slice_above; [exact Ha|].
    rewrite Hlen.
    pose proof (chunk_stops_short (Z.of_nat (length verts)) i Hm ltac:(lia) ltac:(lia)) as H.
    unfold slice_bounds in *. simpl in *. lia.
Qed.
End Colorize.


Section Writer.
Context {E : Externals}.
Local Open Scope R_scope.


Lemma normal_components n :
  is_normal n -> -1 <= x n <= 1 /\ -1 <= y n <= 1 /\ -1 <= z n <= 1.
Proof.
  intros [v ->]. unfold normalize. simpl.
  set (d := Rmax (norm2 v) HGPIFuNet.normalize_eps).
  assert (0 < d) as Hd.
  { unfold d. pose proof (Rmax_r (norm2 v) HGPIFuNet.normalize_eps).
    pose proof NetFacts.normalize_eps_pos. lra. }
  assert (norm2 v <= d) as Hn by apply Rmax_l.
  destruct (coord_le_norm2 v) as (Hx & Hy & Hz).
  repeat split; apply ratio_in_unit_ball; lra.
Qed.

Lemma color_of_normal_in_unit n : is_normal n -> in_unit (color_of_normal n).
Proof.
  intros Hn. apply normal_components in Hn. unfold in_unit, color_of_normal.
  simpl. lra.
Qed.

Lemma zero_in_unit : in_unit Vec.zero.
Proof. unfold in_unit, Vec.zero. simpl. lra. Qed.

Lemma colorize_well_answered net c verts0 verts :
  length verts0 = length verts ->
  returns_under well_answered (colorize net c verts0 verts) /\
  results_under well_answered
    (fun color => length color = length verts /\ Forall in_unit color)
    (colorize net c verts0 verts).
Proof.
  intros Hlen. unfold colorize.
  set (Inv := fun color : list vec3 =>
                length color = length verts /\ Forall in_unit color).
  assert (Inv (replicate (length verts) Vec.zero)) as Hinit.
  { split; [apply length_replicate|].
    apply Forall_replicate, zero_in_unit. }
  assert (forall i color, Inv color ->
            returns_under well_answered (color_chunk net c verts0 i color) /\
            results_under well_answered (fun r => Inv (ctl_state r))
              (color_chunk net c verts0 i color)) as Hstep.
  { intros i color [Hl Hu]. unfold color_chunk.
    set (left := (i * interval)%Z).
    set (right := if (i =? Z.of_nat (length color) / interval)%Z then (-1)%Z
                  else ((i + 1) * interval)%Z).
    assert (forall ns, length ns = length (slice left right verts0) ->
              exists color', assign_slice left right (color_of_normal <$> ns) color
                             = Ok color') as Hok.
    { intros ns Hns. apply assign_slice_succeeds.
      rewrite length_fmap, Hns, slice_length. by rewrite Hlen, Hl. }
    split; simpl.
    - intros r (ns & -> & Hns & _). simpl.
      destruct (Hok ns Hns) as [color' ->]. done.
    - intros r (ns & -> & Hns & Hnorm). simpl.
      destruct (Hok ns Hns) as [color' Ha]. rewrite Ha. simpl. split.
      + apply assign_slice_length in Ha. lia.
      + eapply assign_slice_Forall; [exact Ha| |done].
        apply Forall_fmap. eapply Forall_impl; [exact Hnorm|].
        intros n Hn. by apply color_of_normal_in_unit. }
  split.
  - apply (returns_under_for _ Inv); [done|]. intros; by apply Hstep.
  - apply (results_under_for _ Inv); [done|]. intros; by apply Hstep.
Qed.
End Writer.

Section SaveMesh.
Context {E : Externals}.



(** With one colour per vertex the file has a line for every vertex, with
    that vertex's colour, and after them a line for every face. *)
Lemma obj_lines_vertex verts faces color i v :
  length color = length verts ->
  verts !! i = Some v ->
  exists c, color !! i = Some c /\
            obj_lines verts faces color !! i = Some (VLine v c).
Proof.
  intros Hlen Hv.
  destruct (lookup_lt_is_Some_2 color i) as [c Hc].
  { rewrite Hlen. by eapply lookup_lt_Some. }
  exists c. split; [done|].
  unfold obj_lines. rewrite lookup_app_l.
  - rewrite lookup_zip_with, Hv. simpl. by rewrite Hc.
  - rewrite length_zip_with, Hlen, Nat.min_id. by eapply lookup_lt_Some.
Qed.

Lemma obj_lines_face verts faces color j f :
  length color = length verts ->
  faces !! j = Some f ->
  obj_lines verts faces color !! (length verts + j)%nat = Some (FLine f).
Proof.
  intros Hlen Hf. unfold obj_lines.
  rewrite lookup_app_r; rewrite length_zip_with, Hlen, Nat.min_id; [|lia].
  replace (length verts + j - length verts)%nat with j by lia.
  by rewrite list_lookup_fmap, Hf.
Qed.

End SaveMesh.

Section Guard.
Context {E : Externals}.
Implicit Types ok : forall X : Type, Op X -> result X -> Prop.

Lemma returns_under_call_bind ok {X B} (op : Op X) (f : X -> prog Op B) :
  (forall r, ok X op r -> exists v, r = Ok v) ->
  (forall v, returns_under ok (f v)) ->
  returns_under ok (call op ≫= f).
Proof.
  intros Hop Hf. rewrite bind_unfold. simpl. intros r Hr.
  destruct (Hop r Hr) as [v ->]. simpl. apply Hf.
Qed.

Lemma returns_under_getattr_bind ok {B} opt name v (f : Val -> prog Op B) :
  opt !! name = Some v ->
  returns_under ok (f v) ->
  returns_under ok (getattr opt name ≫= f).
Proof. intros Hv Hf. unfold getattr. by rewrite Hv. Qed.

Lemma colorize_unguarded net c verts0 verts :
  unguarded (colorize net c verts0 verts).
Proof.
  unfold colorize. apply unguarded_for. intros i color. unfold color_chunk.
  apply unguarded_bind; [apply unguarded_call|]. intros nml.
  apply unguarded_bind; [apply unguarded_lift|]. done.
Qed.

(** The guarded block has no handler of its own. *)
Lemma gen_mesh_body_unguarded res net data g save_path thresh use_octree :
  unguarded (gen_mesh_body res net data g save_path thresh use_octree).
Proof.
  unfold gen_mesh_body.
  apply unguarded_bind.
  { destruct (to_picture <$> g); [done|apply unguarded_call]. }
  intros _. apply unguarded_bind; [apply unguarded_call|].
  intros [verts0 faces]. apply unguarded_bind.
  { unfold to_world. destruct (calib_world data) as [m|]; [|done].
    by destruct (mat_inv m). }
  intros verts. apply unguarded_bind; [apply colorize_unguarded|].
  intros color. apply unguarded_call.
Qed.

Lemma colorize_raises ok net c verts0 verts :
  (forall X (op : Op X) r, ok X op r -> ordinary r) ->
  raises_under ok is_exception (colorize net c verts0 verts).
Proof.
  intros Hok. unfold colorize. apply raises_under_for. intros i color.
  unfold color_chunk.
  apply raises_under_bind_all.
  { apply raises_under_call. intros e He. exact (Hok _ _ _ He). }
  intros nml. apply raises_under_bind_all; [|done].
  apply raises_under_lift. intros e He. unfold assign_slice in He.
  destruct (slice_bounds _ _ _) as [a len].
  destruct (decide _); [done|].
  destruct (color_of_normal <$> nml) as [|v [|? ?]]; try done;
    by injection He as <-.
Qed.

(** Among ordinary answers the guarded block raises nothing but
    instances of [Exception]. *)
Lemma gen_mesh_body_raises ok res net data g save_path thresh use_octree :
  (forall X (op : Op X) r, ok X op r -> ordinary r) ->
  raises_under ok is_exception
    (gen_mesh_body res net data g save_path thresh use_octree).
Proof.
  intros Hok. unfold gen_mesh_body.
  apply raises_under_bind_all.
  { destruct (to_picture <$> g); [done|].
    apply raises_under_call. intros e He. exact (Hok _ _ _ He). }
  intros _. apply raises_under_bind_all.
  { apply raises_under_call. intros e He. exact (Hok _ _ _ He). }
  intros [verts0 faces]. apply raises_under_bind_all.
  { unfold to_world. destruct (calib_world data) as [m|]; [|done].
    by destruct (mat_inv m). }
  intros verts. apply raises_under_bind_all; [by apply colorize_raises|].
  intros color. apply raises_under_call. intros e He. exact (Hok _ _ _ He).
Qed.

Lemma guarded_returns ok res net data g save_path thresh use_octree :
  (forall X (op : Op X) r, ok X op r -> ordinary r) ->
  returns_under ok (gen_mesh_guarded res net data g save_path thresh use_octree).
Proof.
  intros Hok. unfold gen_mesh_guarded.
  apply (returns_under_try_except_raises ok is_exception).
  - by apply gen_mesh_body_raises.
  - by intros [cls msg|cls msg].
Qed.

Lemma with_normal_maps_returns ok net g :
  returns_under ok (with_normal_maps net g).
Proof.
  unfold with_normal_maps. simpl. intros [f|e] _; simpl; [|done].
  by intros [b|e] _.
Qed.

Lemma gen_mesh_returns ok res net data save_path thresh use_octree comp :
  (forall X (op : Op X) r, ok X op r -> filters_succeed X op r) ->
  (forall X (op : Op X) r, ok X op r -> ordinary r) ->
  returns_under ok (gen_mesh res net data save_path thresh use_octree comp).
Proof.
  intros Hok Hord. unfold gen_mesh.
  apply returns_under_call_bind.
  { intros r Hr. apply Hok in Hr. simpl in Hr. eauto. }
  intros _.
  apply returns_under_call_bind.
  { intros r Hr. apply Hok in Hr. simpl in Hr. eauto. }
  intros _.
  apply returns_under_bind; [apply with_normal_maps_returns|].
  eapply results_under_mono; [|apply results_under_True].
  intros g _. by apply guarded_returns.
Qed.

Lemma test_loop_returns opt netG netMR ds start_id end_id :
  is_Some (opt !! "results_path") -> is_Some (opt !! "name") ->
  is_Some (opt !! "resolution") -> is_Some (opt !! "use_compose") ->
  returns_under (fun X op r => outside_succeeds X op r /\ ordinary r)
    (test_loop opt netG netMR ds start_id end_id).
Proof.
  intros [rp Hrp] [n Hn] [res Hres] [uc Huc]. unfold test_loop.
  destruct (normalize_bounds _ _ _) as [s e].
  apply returns_under_call_bind.
  { intros r [Hr _]. simpl in Hr. eauto. }
  intros _. simpl.
  apply (returns_under_for _ (fun _ => True)); [done|].
  intros i u _ _. split; [|apply results_under_True].
  unfold test_item. destruct (Z.of_nat (ds_len ds) <=? i); [done|].
  apply returns_under_call_bind; [by intros r [Hr _]|].
  intros d.
  do 4 (eapply returns_under_getattr_bind; [eassumption|]).
  apply returns_under_bind; [|apply results_under_True].
  apply gen_mesh_returns.
  - intros X op r0 [H0 _]. by destruct op.
  - by intros X op r0 [_ H0].
Qed.
End Guard.

Section Options.
Context {E : Externals}.
Implicit Types ok : forall X : Type, Op X -> result X -> Prop.

Lemma results_under_getattr_bind ok {B} (Q : B -> Prop) opt name
    (f : Val -> prog Op B) :
  (forall v, opt !! name = Some v -> results_under ok Q (f v)) ->
  results_under ok Q (getattr opt name ≫= f).
Proof.
  intros Hf. rewrite bind_unfold. unfold getattr.
  destruct (opt !! name); simpl; auto.
Qed.

Lemma select_checkpoint_results ok opt :
  results_under ok (fun r => r.2 = before_checkpoint opt) (select_checkpoint opt).
Proof.
  unfold select_checkpoint, before_checkpoint, resets_epoch.
  apply results_under_getattr_bind. intros p Hp. rewrite Hp.
  destruct (decide (p = VNone)) as [->|Hne].
  - apply results_under_getattr_bind. intros e He. rewrite He.
    apply results_under_lift_bind. intros neg Hneg.
    destruct e as [|b|n|s]; simpl in Hneg; try done;
      injection Hneg as <-.
    + repeat (apply results_under_getattr_bind; intros).
      apply results_under_lift_bind. intros. done.
    + destruct (n <? 0).
      * repeat (apply results_under_getattr_bind; intros). done.
      * repeat (apply results_under_getattr_bind; intros).
        apply results_under_lift_bind. intros. done.
  - simpl. by destruct p.
Qed.

Lemma before_checkpoint_kept opt k :
  k ∈ kept_fields -> before_checkpoint opt !! k = opt !! k.
Proof.
  unfold before_checkpoint, kept_fields. intros Hk.
  destruct (resets_epoch opt); [|done].
  apply lookup_insert_ne. intros <-.
  rewrite !elem_of_cons, elem_of_nil in Hk.
  by destruct Hk as [?|[?|[?|[?|[]]]]].
Qed.

Lemma overwrite_opt_results ok opt sd :
  results_under ok
    (fun opt' => match sd_opt sd with
                 | Some ckpt =>
                     forall k, opt' !! k =
                               if decide (k ∈ kept_fields) then opt !! k
                               else ckpt !! k
                 | None => opt' = opt
                 end)
    (overwrite_opt opt sd).
Proof.
  unfold overwrite_opt. destruct (sd_opt sd) as [ckpt|]; [|done].
  apply results_under_print_bind.
  apply results_under_getattr_bind. intros dr Hdr.
  apply results_under_getattr_bind. intros rs Hrs.
  apply results_under_getattr_bind. intros rp Hrp.
  apply results_under_getattr_bind. intros ls Hls.
  simpl. intros k. unfold kept_fields.
  destruct (decide (k = "loadSize")) as [->|]; [by rewrite lookup_insert_eq|].
  rewrite lookup_insert_ne by done.
  destruct (decide (k = "results_path")) as [->|]; [by rewrite lookup_insert_eq|].
  rewrite lookup_insert_ne by done.
  destruct (decide (k = "resolution")) as [->|]; [by rewrite lookup_insert_eq|].
  rewrite lookup_insert_ne by done.
  destruct (decide (k = "dataroot")) as [->|]; [by rewrite lookup_insert_eq|].
  rewrite lookup_insert_ne by done.
  rewrite decide_False; [done|].
  rewrite !elem_of_cons, elem_of_nil. tauto.
Qed.

Lemma load_checkpoint_results ok opt :
  results_under ok (fun r => options_after opt r.2 r.1.2) (load_checkpoint opt).
Proof.
  unfold load_checkpoint.
  apply results_under_bind.
  eapply results_under_mono; [|apply select_checkpoint_results].
  intros [p opt1] Hopt1. simpl in Hopt1. subst opt1.
  apply results_under_getattr_bind. intros s Hs.
  apply results_under_getattr_bind. intros e He.
  apply results_under_call_bind. intros [|]; [|done].
  apply results_under_print_bind.
  apply results_under_call_bind. intros sd.
  apply results_under_bind.
  eapply results_under_mono; [|apply overwrite_opt_results].
  intros opt' Hopt'. simpl. unfold options_after.
  destruct (sd_opt sd) as [ckpt|]; [|done].
  intros k. rewrite Hopt'. destruct (decide (k ∈ kept_fields)); [|done].
  by apply before_checkpoint_kept.
Qed.

(** C8, amended.  With options in the checkpoint, [recon] goes on with the
    checkpoint's options except for the four kept fields, which hold their
    command-line values.  Without them it goes on with the command-line
    options, in which it has itself set [resume_epoch] to 0 when no
    checkpoint path was given and the epoch was negative. *)
Theorem recon_options_after_checkpoint (w : world Op) opt tr
    start_id end_id opt' sd :
  (run w (load_checkpoint opt) tr).1 = Ok (start_id, end_id, opt', sd) ->
  match sd_opt sd with
  | Some ckpt =>
      forall k, opt' !! k = if decide (k ∈ kept_fields) then opt !! k else ckpt !! k
  | None =>
      opt' = if resets_epoch opt then <["resume_epoch" := VInt 0]> opt else opt
  end.
Proof.
  intros Hrun.
  apply (run_results (fun r => options_after opt r.2 r.1.2)) in Hrun;
    [exact Hrun|apply load_checkpoint_results].
Qed.
End Options.

Section LastVertex.
Context {E : Externals}.
Implicit Types ok : forall X : Type, Op X -> result X -> Prop.

Lemma gen_mesh_calls_last_vertex_black ok res net data save_path thresh
    use_octree comp :
  calls_under ok last_vertex_black
    (gen_mesh res net data save_path thresh use_octree comp).
Proof.
  unfold gen_mesh.
  apply calls_under_bind_all; [by apply calls_under_call|]. intros _.
  apply calls_under_bind_all; [by apply calls_under_call|]. intros _.
  apply calls_under_bind_all.
  { unfold with_normal_maps. simpl. split; [done|].
    intros [f|e] _; simpl; [|done]. split; [done|]. by intros [b|e] _. }
  intros g. unfold gen_mesh_guarded. apply calls_under_try_except.
  2: { by intros [cls msg|cls msg]. }
  unfold gen_mesh_body.
  apply calls_under_bind_all.
  { destruct (to_picture <$> g); [done|]. by apply calls_under_call. }
  intros _.
  apply calls_under_bind_all; [by apply calls_under_call|].
  intros [verts0 faces].
  apply calls_under_bind_all.
  { unfold to_world. destruct (calib_world data) as [m|]; [|done].
    by destruct (mat_inv m). }
  intros verts.
  apply calls_under_bind; [by apply colorize_calls|].
  destruct (decide (Z.of_nat (length verts) mod interval = 0)) as [Hm|Hm].
  - eapply results_under_mono; [|apply results_under_True].
    intros color _. apply calls_under_call. simpl. done.
  - eapply results_under_mono; [|by apply colorize_last_untouched].
    intros color [_ Hlast]. apply calls_under_call. simpl. done.
Qed.

Lemma gen_mesh_last_vertex_black (w : world Op) res net data save_path
    thresh use_octree comp :
  Forall (event_sat last_vertex_black)
    (run w (gen_mesh res net data save_path thresh use_octree comp) []).2.
Proof.
  apply run_calls; [|constructor].
  apply gen_mesh_calls_last_vertex_black.
Qed.
End LastVertex.

(** C5 fails on the code.  With five vertices the only round of the loop
    writes [color[0:-1]]: four vertices get the colour of their normal and
    the fifth keeps its zero-initialized colour. *)
Theorem gen_mesh_five_vertices :
  last (run (mesh_world 5)
          (gen_mesh (E:=toy_externals) (VInt 512) tt toy_data "a.obj" None None VNone)
          []).2 =
  Some (EvCall (save_obj_mesh_with_color (E:=toy_externals) "a.obj" (toy_verts 5)
                  [(0, 1, 2)] [white; white; white; white; Vec.zero])
               (Ok tt)).
Proof. vm_compute. reflexivity. Qed.

Example recon_visits_both_items :
  getitem_indices (run (mesh_world 5) (recon cmdline) []).2 = [0; 1] /\
  thresholds (run (mesh_world 5) (recon cmdline) []).2 = [0.5%R; 0.5%R].
Proof. split; vm_compute; reflexivity. Qed.

(** The bounds [apps/submit_eval.py] hands to every job are the negative
    sentinels, which [recon] turns into the whole dataset. *)
Example submit_bounds_cover_dataset i len :
  SubmitEval.job_bounds SubmitEval.split_size SubmitEval.interval i = (-1, -1) /\
  normalize_bounds len (-1) (-1) = (0, len).
Proof. split; reflexivity. Qed.

(** C8 as stated fails: the checkpoint has no options, and the options
    [recon] goes on with differ from the command line in [resume_epoch]. *)
Lemma recon_resets_resume_epoch :
  (run (mesh_world 5) (load_checkpoint cmdline) []).1 =
    Ok (VInt (-1), VInt (-1), <["resume_epoch" := VInt 0]> cmdline, bare_checkpoint) /\
  sd_opt bare_checkpoint = None /\
  <["resume_epoch" := VInt 0]> cmdline <> cmdline.
Proof.
  split; [vm_compute; reflexivity|]. split; [reflexivity|].
  intros H. apply (f_equal (fun m => m !! "resume_epoch")) in H.
  vm_compute in H. discriminate H.
Qed.

(** C8, amended, for a checkpoint that carries options. *)
Lemma recon_options_after_checkpoint_witness :
  (run (toy_world full_checkpoint (Ok ([], []))) (load_checkpoint cmdline) []).1 =
    Ok (VInt (-1), VInt (-1),
        <["loadSize" := VInt 1024]>
          (<["results_path" := VStr "./results"]>
             (<["resolution" := VInt 512]>
                (<["dataroot" := VStr "/data"]> checkpoint_opt))),
        full_checkpoint) /\
  forall k,
    (<["loadSize" := VInt 1024]>
       (<["results_path" := VStr "./results"]>
          (<["resolution" := VInt 512]>
             (<["dataroot" := VStr "/data"]> checkpoint_opt)))) !! k =
    if decide (k ∈ kept_fields) then cmdline !! k else checkpoint_opt !! k.
Proof.
  assert ((run (toy_world full_checkpoint (Ok ([], []))) (load_checkpoint cmdline) []).1 =
    Ok (VInt (-1), VInt (-1),
        <["loadSize" := VInt 1024]>
          (<["results_path" := VStr "./results"]>
             (<["resolution" := VInt 512]>
                (<["dataroot" := VStr "/data"]> checkpoint_opt))),
        full_checkpoint)) as H by (vm_compute; reflexivity).
  split; [exact H|].
  exact (recon_options_after_checkpoint _ _ _ _ _ _ _ H).
Defined.

Example failing_reconstruction_is_printed :
  last (run failing_world
          (gen_mesh (E:=toy_externals) (VInt 512) tt toy_data "a.obj" None None VNone)
          []).2 = Some (EvPrint ["CUDA out of memory"]).
Proof. vm_compute. reflexivity. Qed.



Section Reshape.
Lemma length_join_same_length {A} (n : nat) (ls : list (list A)) :
  Forall (fun l => length l = n) ls -> length (mjoin ls) = (length ls * n)%nat.
Proof.
  induction 1 as [|l ls Hl _ IH]; simpl; [done|].
  rewrite length_app, IH, Hl. done.
Qed.

(** X9.  [reshape_multiview_tensors] flattens images and calibrations
    alike: view [v] of batch element [b] goes to index [b * nV + v] of both
    results, which have [B * nV] entries. *)
Theorem reshape_multiview_keeps_pairs {I K : Type} (images : list (list I))
    (calibs : list (list K)) (nV b v : nat) irow crow im cal :
  Forall (fun row => length row = nV) images ->
  Forall (fun row => length row = nV) calibs ->
  images !! b = Some irow -> irow !! v = Some im ->
  calibs !! b = Some crow -> crow !! v = Some cal ->
  length (reshape_multiview_tensors images calibs).1 = (length images * nV)%nat /\
  length (reshape_multiview_tensors images calibs).2 = (length calibs * nV)%nat /\
  (reshape_multiview_tensors images calibs).1 !! (b * nV + v)%nat = Some im /\
  (reshape_multiview_tensors images calibs).2 !! (b * nV + v)%nat = Some cal.
Proof.
  intros Hi Hc Hib Hiv Hcb Hcv. unfold reshape_multiview_tensors. simpl.
  assert (v < nV)%nat as Hv.
  { rewrite Forall_lookup in Hi. rewrite <- (Hi b irow Hib).
    by eapply lookup_lt_Some. }
  repeat split.
  - by apply length_join_same_length.
  - by apply length_join_same_length.
  - apply (join_lookup_Some_same_length' nV); [done|done|]. eauto.
  - apply (join_lookup_Some_same_length' nV); [done|done|]. eauto.
Qed.

(** X10.  [reshape_sample_tensor] raises on a negative number of
    views; otherwise the result has [B * num_views] entries and the entry at
    [b * num_views + v] is the sample of batch element [b], the one the
    flattened view at that index belongs to. *)
Theorem reshape_sample_follows_views {X : Type} (samples : list X) (num_views : Z) :
  (num_views < 0 -> reshape_sample_tensor samples num_views = Err RuntimeError) /\
  (0 <= num_views ->
   exists r, reshape_sample_tensor samples num_views = Ok r /\
     length r = (length samples * Z.to_nat num_views)%nat /\
     forall b v x, samples !! b = Some x -> (v < Z.to_nat num_views)%nat ->
                   r !! (b * Z.to_nat num_views + v)%nat = Some x).
Proof.
  unfold reshape_sample_tensor. split.
  - intros Hn. destruct (Z.eqb_spec num_views 1); [lia|].
    destruct (Z.ltb_spec num_views 0); [done|lia].
  - intros Hn. set (nV := Z.to_nat num_views).
    assert (Forall (fun l : list X => length l = nV) (replicate nV <$> samples)) as Hrect.
    { apply Forall_fmap, Forall_forall. intros x _. simpl. apply length_replicate. }
    assert (length (mjoin (replicate nV <$> samples)) = (length samples * nV)%nat) as Hlen.
    { rewrite (length_join_same_length nV) by done. by rewrite length_fmap. }
    assert (forall b v x, samples !! b = Some x -> (v < nV)%nat ->
              mjoin (replicate nV <$> samples) !! (b * nV + v)%nat = Some x) as Hidx.
    { intros b v x Hb Hv.
      apply (join_lookup_Some_same_length' nV); [done|done|].
      exists (replicate nV x). rewrite list_lookup_fmap, Hb. split; [done|].
      by apply lookup_replicate_2. }
    destruct (Z.eqb_spec num_views 1) as [->|Hne].
    + exists samples. split; [done|]. unfold nV. split; [lia|].
      intros b v x Hb Hv.
      replace (b * Z.to_nat 1 + v)%nat with b by lia. done.
    + destruct (Z.ltb_spec num_views 0); [lia|].
      exists (mjoin (replicate nV <$> samples)).
      split; [reflexivity|]. split; [exact Hlen|exact Hidx].
Qed.
End Reshape.

Section Strings.
Lemma substring_0_prefix (p q s : string) :
  String.substring 0 (String.length p + String.length q) s = (p +:+ q)%string ->
  String.substring 0 (String.length p) s = p.
Proof.
  revert s. induction p as [|c p IH]; intros s; simpl.
  - intros _. by destruct s.
  - destruct s as [|c' s]; [done|]. intros [= -> H]. simpl. f_equal. by apply IH.
Qed.

Lemma substring_prefix (m : nat) (p q s : string) :
  String.substring m (String.length p + String.length q) s = (p +:+ q)%string ->
  String.substring m (String.length p) s = p.
Proof.
  revert s. induction m as [|m IH]; intros s.
  - apply substring_0_prefix.
  - destruct s as [|c s]; simpl.
    + destruct p; [|done]. done.
    + apply IH.
Qed.

Lemma length_app_string (p q : string) :
  String.length (p +:+ q) = (String.length p + String.length q)%nat.
Proof. induction p as [|c p IH]; simpl; [done|]. by rewrite IH. Qed.

Lemma contains_prefix (p q s : string) :
  p <> ""%string -> contains (p +:+ q) s = true -> contains p s = true.
Proof.
  unfold contains. intros Hp.
  destruct (String.index 0 (p +:+ q) s) as [m|] eqn:Hpq; [|done]. intros _.
  destruct (String.index 0 p s) as [m'|] eqn:Hi; [done|].
  apply String.index_correct1 in Hpq. rewrite length_app_string in Hpq.
  apply substring_prefix in Hpq.
  exfalso. eapply (String.index_correct3 0 m); eauto. lia.
Qed.

Lemma substring_0_app (p q : string) :
  String.substring 0 (String.length p) (p +:+ q) = p.
Proof. induction p as [|c p IH]; simpl; [by destruct q|]. by rewrite IH. Qed.

Lemma drop_last4_app (stem ext : string) :
  String.length ext = 4%nat -> drop_last4 (stem +:+ ext) = stem.
Proof.
  intros He. unfold drop_last4. rewrite length_app_string, He.
  replace (String.length stem + 4 - 4)%nat with (String.length stem) by lia.
  apply substring_0_app.
Qed.

End Strings.

Section Choose.
Context {E : Externals}.

(** X18.  [recon] leaves [netMR] unbound, and fails at its first use,
    exactly when [opt.netG] names neither an hourglass nor a residual-block
    network. *)
Theorem choose_netMR_unbound (s : string) :
  choose_netMR (VStr s) = Throw (UnboundLocalError "netMR") <->
  contains "hg" s = false /\ contains "resblk" s = false.
Proof.
  unfold choose_netMR, str_in. split.
  - simpl. destruct (contains "hg_ablation" s); [done|]. simpl.
    destruct (contains "resblk_ablation" s); [done|]. simpl.
    destruct (contains "hg" s); [done|]. simpl.
    destruct (contains "resblk" s); [done|]. done.
  - intros [Hhg Hres].
    assert (contains "hg_ablation" s = false) as ->.
    { destruct (contains "hg_ablation" s) eqn:Hc; [|done].
      rewrite (contains_prefix "hg" "_ablation" s) in Hhg; done. }
    assert (contains "resblk_ablation" s = false) as ->.
    { destruct (contains "resblk_ablation" s) eqn:Hc; [|done].
      rewrite (contains_prefix "resblk" "_ablation" s) in Hres; done. }
    simpl. rewrite Hhg. simpl. rewrite Hres. done.
Qed.
End Choose.

Section GenMeshMore.
Context {E : Externals}.
Implicit Types ok : forall X : Type, Op X -> result X -> Prop.
Implicit Types P : forall X : Type, Op X -> Prop.

(** X11.  An exception of one of the two filter calls is not caught:
    [gen_mesh] raises it, having called nothing but the filters. *)
Theorem gen_mesh_filter_error_propagates (w : world Op) res net data save_path
    thresh use_octree comp tr e :
  (w tr _ (filter_global net (img_512 data)) = Err e \/
   w tr _ (filter_global net (img_512 data)) = Ok tt /\
   w (tr ++ [EvCall (filter_global net (img_512 data)) (Ok tt)]) _
     (filter_local net (img data)) = Err e) ->
  exists evs,
    run w (gen_mesh res net data save_path thresh use_octree comp) tr =
      (Err e, tr ++ evs) /\
    Forall (event_sat is_filter) evs.
Proof.
  intros H. unfold gen_mesh. rewrite run_bind, run_call.
  destruct H as [Hg | [Hg Hl]]; rewrite Hg.
  - eexists. split; [reflexivity|]. by repeat constructor.
  - rewrite run_bind, run_call, Hl. rewrite <- app_assoc.
    eexists. split; [reflexivity|]. by repeat constructor.
Qed.

Lemma run_guarded (w : world Op) res net data g save_path thresh use_octree tr :
  run w (gen_mesh_guarded res net data g save_path thresh use_octree) tr =
  match run w (gen_mesh_body res net data g save_path thresh use_octree) tr with
  | (Ok a, tr') => (Ok a, tr')
  | (Err (Exception _ msg), tr') => (Ok tt, tr' ++ [EvPrint [msg]])
  | (Err (BaseException cls msg), tr') => (Err (BaseException cls msg), tr')
  end.
Proof.
  unfold gen_mesh_guarded. rewrite run_try_except.
  destruct (run w _ tr) as [[a|[cls msg|cls msg]] tr']; done.
Qed.

Lemma written_app_no_mesh (tr evs : list (event Op)) :
  Forall (event_sat no_mesh) evs -> written (tr ++ evs) = written tr.
Proof.
  unfold written. rewrite foldl_app. generalize (foldl write ∅ tr).
  induction evs as [|ev evs IH]; intros fs Hevs; simpl; [done|].
  inversion Hevs as [|? ? Hev Hevs']; subst.
  rewrite IH by done. destruct ev as [X op r|o]; [|done].
  by destruct op.
Qed.

Lemma with_normal_maps_calls ok net g :
  calls_under ok is_setup (with_normal_maps net g).
Proof.
  unfold with_normal_maps. simpl. split; [done|].
  intros [f|e] _; simpl; [|done]. split; [done|]. by intros [b|e] _.
Qed.

(** [gen_mesh] when its guarded block cannot finish: the exception is
    printed and only calls that satisfy [P] are made. *)
Lemma gen_mesh_aborts ok P (G : list View -> Prop) (w : world Op) res net data
    save_path thresh use_octree comp tr :
  (forall tr X (op : Op X), ok X op (w tr X op)) ->
  (forall X (op : Op X) r, ok X op r -> filters_succeed X op r) ->
  (forall X (op : Op X), is_setup X op -> P X op) ->
  results_under ok G (with_normal_maps net (img_512 data)) ->
  (forall g, G g ->
     calls_under ok P
       (gen_mesh_body res net data g save_path (default default_thresh thresh)
          (default default_use_octree use_octree)) /\
     results_under ok (fun _ => False)
       (gen_mesh_body res net data g save_path (default default_thresh thresh)
          (default default_use_octree use_octree)) /\
     raises_under ok is_exception
       (gen_mesh_body res net data g save_path (default default_thresh thresh)
          (default default_use_octree use_octree))) ->
  exists evs msg,
    run w (gen_mesh res net data save_path thresh use_octree comp) tr =
      (Ok tt, tr ++ evs ++ [EvPrint [msg]]) /\
    Forall (event_sat P) evs.
Proof.
  intros Hw Hok HP HG Hbody. unfold gen_mesh.
  pose proof (Hok _ _ _ (Hw tr _ (filter_global net (img_512 data)))) as Hg.
  simpl in Hg. rewrite run_bind, run_call, Hg.
  set (tr1 := tr ++ [EvCall (filter_global net (img_512 data)) (Ok tt)]).
  pose proof (Hok _ _ _ (Hw tr1 _ (filter_local net (img data)))) as Hl.
  simpl in Hl. rewrite run_bind, run_call, Hl.
  set (tr2 := tr1 ++ [EvCall (filter_local net (img data)) (Ok tt)]).
  rewrite run_bind.
  set (maps := with_normal_maps net (img_512 data)) in *.
  destruct (run_new_calls ok is_setup w maps tr2 Hw (with_normal_maps_calls ok _ _))
    as (evs1 & Htr1 & H1).
  destruct (run_returns ok G w maps tr2 Hw (with_normal_maps_returns ok _ _) HG)
    as (g & Hg1 & HGg).
  rewrite (run_result_trace w maps), Hg1, Htr1.
  rewrite run_guarded.
  destruct (Hbody g HGg) as (Hc & Hr & He).
  set (body := gen_mesh_body res net data g save_path
                 (default default_thresh thresh)
                 (default default_use_octree use_octree)) in *.
  destruct (run_new_calls _ _ w body (tr2 ++ evs1) Hw Hc) as (evs2 & Htr & H2).
  rewrite (run_result_trace w body), Htr.
  destruct (run w body (tr2 ++ evs1)).1 as [a|[cls msg|cls msg]] eqn:Hres.
  { exfalso. exact (run_results_under _ _ w body (tr2 ++ evs1) a Hw Hr Hres). }
  2:{ exfalso. exact (run_raises _ _ w body (tr2 ++ evs1) _ Hw He Hres). }
  exists ([EvCall (filter_global net (img_512 data)) (Ok tt);
           EvCall (filter_local net (img data)) (Ok tt)] ++ evs1 ++ evs2), msg.
  split.
  - f_equal. unfold tr2, tr1. by rewrite <- !app_assoc.
  - rewrite !Forall_app. repeat split; try done.
    + repeat constructor; by apply HP.
    + eapply Forall_impl; [exact H1|]. intros [X op r|o]; simpl; auto.
Qed.

Lemma written_after_abort (tr evs : list (event Op)) msg :
  Forall (event_sat no_mesh) evs ->
  written (tr ++ evs ++ [EvPrint [msg]]) = written tr.
Proof.
  intros Hevs. rewrite app_assoc, written_app_no_mesh by (by repeat constructor).
  by apply written_app_no_mesh.
Qed.

Lemma is_setup_no_mesh X (op : Op X) : is_setup X op -> no_mesh X op.
Proof. by destruct op. Qed.

(** X12.  When [reconstruction] raises and what the calls raise are
    instances of [Exception], [gen_mesh] prints the exception and returns;
    it queries no normal, does not call the writer, and the mesh files are
    what they were. *)
Theorem gen_mesh_failed_reconstruction_leaves_no_mesh (w : world Op) res net
    data save_path thresh use_octree comp tr e :
  (forall tr X (op : Op X), reconstruction_fails e X op (w tr X op)) ->
  (forall tr X (op : Op X), ordinary (w tr X op)) ->
  exists evs msg,
    run w (gen_mesh res net data save_path thresh use_octree comp) tr =
      (Ok tt, tr ++ evs ++ [EvPrint [msg]]) /\
    Forall (event_sat no_mesh) evs /\
    written (tr ++ evs ++ [EvPrint [msg]]) = written tr.
Proof.
  intros Hw Hord.
  destruct (gen_mesh_aborts
              (fun X op r => reconstruction_fails e X op r /\ ordinary r)
              no_mesh (fun _ => True) w
              res net data save_path thresh use_octree comp tr)
    as (evs & msg & Hrun & Hevs).
  - by split.
  - intros X op r [Hr _]. by destruct op.
  - apply is_setup_no_mesh.
  - apply results_under_True.
  - intros g _. split; [|split].
    + unfold gen_mesh_body. apply calls_under_bind_all.
      { destruct (to_picture <$> g); [done|]. by apply calls_under_call. }
      intros _. apply calls_under_call_bind; [done|]. by intros v [Hv _].
    + unfold gen_mesh_body. apply results_under_bind.
      eapply results_under_mono; [|apply results_under_True]. intros _ _.
      apply results_under_call_bind_ok. by intros v [Hv _].
    + apply gen_mesh_body_raises. by intros X op r [_ Hr].
  - exists evs, msg. split; [done|]. split; [done|].
    by apply written_after_abort.
Qed.



(** X15.  The picture is written beside the mesh: for a save path
    [stem ++ ext] with a four-character extension, every call of [imwrite]
    goes to [stem.png] and every call of the writer to [stem ++ ext]. *)
Theorem gen_mesh_image_beside_mesh (w : world Op) res net data stem ext
    thresh use_octree comp :
  String.length ext = 4%nat ->
  Forall (event_sat (beside stem ext))
    (run w (gen_mesh res net data (stem +:+ ext) thresh use_octree comp) []).2.
Proof.
  intros Hext. apply run_calls; [|constructor].
  unfold gen_mesh.
  apply calls_under_bind_all; [by apply calls_under_call|]. intros _.
  apply calls_under_bind_all; [by apply calls_under_call|]. intros _.
  apply calls_under_bind_all.
  { unfold with_normal_maps. simpl. split; [done|].
    intros [f|e] _; simpl; [|done]. split; [done|]. by intros [b|e] _. }
  intros g. unfold gen_mesh_guarded. apply calls_under_try_except.
  2: { by intros [cls msg|cls msg]. }
  unfold gen_mesh_body.
  apply calls_under_bind_all.
  { destruct (to_picture <$> g); [done|]. apply calls_under_call. simpl.
    by rewrite drop_last4_app. }
  intros _.
  apply calls_under_bind_all; [by apply calls_under_call|].
  intros [verts0 faces].
  apply calls_under_bind_all.
  { unfold to_world. destruct (calib_world data) as [m|]; [|done].
    by destruct (mat_inv m). }
  intros verts.
  apply calls_under_bind_all; [by apply colorize_calls|].
  intros color. by apply calls_under_call.
Qed.
End GenMeshMore.

Section Threshold.
Context {E : Externals}.

Lemma with_normal_maps_nonempty ok net g :
  g <> [] ->
  results_under ok (fun g' => g' <> []) (with_normal_maps net g).
Proof.
  intros Hg. unfold with_normal_maps. simpl. intros [f|e] _; simpl; [|done].
  intros [b|e] _; simpl.
  - destruct f, b, g; done.
  - destruct f, g; done.
Qed.

(** The events of the guarded block are those of its body, and the
    printed exception if there is one. *)
Lemma guarded_trace (w : world Op) res net data g save_path thresh use_octree tr :
  exists sfx,
    (run w (gen_mesh_guarded res net data g save_path thresh use_octree) tr).2 =
    (run w (gen_mesh_body res net data g save_path thresh use_octree) tr).2 ++ sfx.
Proof.
  rewrite run_guarded.
  destruct (run w _ tr) as [[a|[cls msg|cls msg]] tr']; simpl.
  - exists []. by rewrite app_nil_r.
  - by exists [EvPrint [msg]].
  - exists []. by rewrite app_nil_r.
Qed.

(** C7.  In every execution of [recon], whatever the calls answer, every
    call of [reconstruction] is handed the iso-value 0.5.  And [gen_mesh]
    does call [reconstruction] when the item has an image and the filters
    and the image writer succeed: with the bounding box and the calibration
    of the item, and with the iso-value it was given, 0.5 when it was given
    none. *)
Theorem recon_threshold_is_half (w : world Op) (opt : Opt) :
  Forall (event_sat thresh_is_half) (run w (recon opt) []).2 /\
  forall res net data save_path thresh use_octree comp tr,
    img_512 data <> [] ->
    (forall tr' X (op : Op X), reconstruction_reached X op (w tr' X op)) ->
    exists tr1 r tr2,
      (run w (gen_mesh res net data save_path thresh use_octree comp) tr).2 =
      tr ++ tr1 ++
        EvCall (reconstruction
                  (mkReconArgs net (calib data) res (b_min data) (b_max data)
                     (default 0.5%R thresh) (default true use_octree) 100000))
               r :: tr2.
Proof.
  split.
  { apply run_calls; [|constructor].
    eapply calls_under_mono; [|apply recon_calls].
    intros X op. by destruct op. }
  intros res net data save_path thresh use_octree comp tr Himg Hw.
  unfold gen_mesh.
  pose proof (Hw tr _ (filter_global net (img_512 data))) as Hg.
  simpl in Hg. rewrite run_bind, run_call, Hg.
  set (tr1 := tr ++ [EvCall (filter_global net (img_512 data)) (Ok tt)]).
  pose proof (Hw tr1 _ (filter_local net (img data))) as Hl.
  simpl in Hl. rewrite run_bind, run_call, Hl.
  set (tr2 := tr1 ++ [EvCall (filter_local net (img data)) (Ok tt)]).
  rewrite run_bind.
  destruct (run_returns_trace (fun _ _ _ => True) (fun g' => g' <> [])
              w (with_normal_maps net (img_512 data)) tr2)
    as (g & evs1 & -> & Hne).
  { done. }
  { apply with_normal_maps_returns. }
  { by apply with_normal_maps_nonempty. }
  destruct (guarded_trace w res net data g save_path
              (default default_thresh thresh)
              (default default_use_octree use_octree) (tr2 ++ evs1))
    as [sfx ->].
  unfold gen_mesh_body. rewrite run_bind.
  destruct g as [|v g]; [done|]. cbn [fmap list_fmap].
  set (pics := to_picture v :: (to_picture <$> g)).
  pose proof (Hw (tr2 ++ evs1) _
                (imwrite (drop_last4 save_path +:+ ".png") pics)) as Hi.
  simpl in Hi. rewrite run_call, Hi.
  set (tr3 := (tr2 ++ evs1) ++ [EvCall (imwrite _ pics) (Ok tt)]).
  rewrite run_bind, run_call.
  set (args := mkReconArgs net (calib data) res (b_min data) (b_max data)
                 (default default_thresh thresh)
                 (default default_use_octree use_octree) 100000).
  set (r := w tr3 _ (reconstruction args)).
  exists ([EvCall (filter_global net (img_512 data)) (Ok tt);
           EvCall (filter_local net (img data)) (Ok tt)] ++ evs1 ++
          [EvCall (imwrite (drop_last4 save_path +:+ ".png") pics) (Ok tt)]),
    r.
  destruct r as [[verts0 faces]|e].
  - match goal with
    | |- context [run w ?p ?t] =>
        destruct (run_extends w p t) as [tr' ->]
    end.
    exists (tr' ++ sfx). unfold tr3, tr2, tr1.
    rewrite <- !app_assoc. reflexivity.
  - exists sfx. unfold tr3, tr2, tr1. simpl.
    rewrite <- !app_assoc. reflexivity.
Qed.
End Threshold.

Section Caught.
Context {E : Externals}.

(** C9, amended.  When the two filter calls succeed, an instance of
    [Exception] raised by a call of the guarded block of [gen_mesh] is
    caught: its message is printed, nothing else follows, and [gen_mesh]
    returns.  What is no instance of [Exception] is not caught: nothing
    follows the call and [gen_mesh] raises it.  So [gen_mesh] returns
    whenever its calls raise nothing but instances of [Exception]. *)
Theorem gen_mesh_catches_exceptions (w : world Op) res net data save_path
    thresh use_octree comp tr :
  (forall tr' n imgs, w tr' _ (filter_global n imgs) = Ok tt) ->
  (forall tr' n imgs, w tr' _ (filter_local n imgs) = Ok tt) ->
  exists evs,
    (run w (gen_mesh res net data save_path thresh use_octree comp) tr).2 =
      tr ++ evs /\
    ((forall tr' X (op : Op X), ordinary (w tr' X op)) ->
     (run w (gen_mesh res net data save_path thresh use_octree comp) tr).1 =
       Ok tt) /\
    forall X (op : Op X) e evs1 evs2,
      in_block X op ->
      evs = evs1 ++ EvCall op (Err e) :: evs2 ->
      match e with
      | Exception _ msg =>
          (run w (gen_mesh res net data save_path thresh use_octree comp) tr).1
            = Ok tt /\
          evs2 = [EvPrint [msg]]
      | BaseException _ _ =>
          (run w (gen_mesh res net data save_path thresh use_octree comp) tr).1
            = Err e /\
          evs2 = []
      end.
Proof.
  intros Hg Hl. unfold gen_mesh.
  rewrite run_bind, run_call, Hg.
  set (tr1 := tr ++ [EvCall (filter_global net (img_512 data)) (Ok tt)]).
  rewrite run_bind, run_call, Hl.
  set (tr2 := tr1 ++ [EvCall (filter_local net (img data)) (Ok tt)]).
  rewrite run_bind.
  set (maps := with_normal_maps net (img_512 data)).
  destruct (run_new_calls (fun _ _ _ => True) is_setup w maps tr2
              (fun _ _ _ => I) (with_normal_maps_calls _ _ _))
    as (evs_m & Hm & Hsetup).
  destruct (run_returns (fun _ _ _ => True) (fun _ => True) w maps tr2
              (fun _ _ _ => I) (with_normal_maps_returns _ _ _)
              (results_under_True _ _))
    as (g & Hgm & _).
  rewrite (run_result_trace w maps), Hgm, Hm.
  rewrite run_guarded.
  set (body := gen_mesh_body res net data g save_path
                 (default default_thresh thresh)
                 (default default_use_octree use_octree)).
  destruct (run_extends w body (tr2 ++ evs_m)) as [evs_b Hb].
  pose proof (gen_mesh_body_unguarded res net data g save_path
                (default default_thresh thresh)
                (default default_use_octree use_octree)) as Hu.
  fold body in Hu.
  set (Q := fun ev : event Op =>
              match ev with
              | EvCall op _ => in_block _ op
              | EvPrint _ => False
              end).
  assert (Forall (fun ev => ~ Q ev)
            ([EvCall (filter_global net (img_512 data)) (Ok tt);
              EvCall (filter_local net (img data)) (Ok tt)] ++ evs_m)) as Hpre.
  { apply Forall_app. split.
    { repeat (constructor; [unfold Q; simpl; tauto|]). constructor. }
    eapply Forall_impl; [exact Hsetup|].
    intros [X op r|o]; unfold Q; simpl; [|tauto]. destruct op; simpl; tauto. }
  (* where a raising call of the block lies *)
  assert (forall X (op : Op X) e evs1 evs2 rest,
            in_block X op ->
            ([EvCall (filter_global net (img_512 data)) (Ok tt);
              EvCall (filter_local net (img data)) (Ok tt)] ++ evs_m) ++ rest =
              evs1 ++ EvCall op (Err e) :: evs2 ->
            exists k, rest = k ++ EvCall op (Err e) :: evs2) as Hsplit.
  { intros X op e evs1 evs2 rest Hin Heq.
    destruct (split_after Q _ _ _ _ (EvCall op (Err e)) Hpre Hin Heq)
      as (k & _ & ->).
    by exists k. }
  destruct (run w body (tr2 ++ evs_m)) as [rb trb] eqn:Hrun.
  simpl in Hb. subst trb.
  assert (forall k ev evs2 e, raised ev = Some e ->
            evs_b = k ++ ev :: evs2 -> rb = Err e /\ evs2 = []) as Hlast.
  { intros k ev evs2 e Hev ->.
    pose proof (run_unguarded w body ev evs2 e Hev (tr2 ++ evs_m) k Hu) as H.
    rewrite Hrun in H. simpl in H. by apply H. }
  exists (([EvCall (filter_global net (img_512 data)) (Ok tt);
            EvCall (filter_local net (img data)) (Ok tt)] ++ evs_m) ++
          match rb with
          | Ok _ | Err (BaseException _ _) => evs_b
          | Err (Exception _ msg) => evs_b ++ [EvPrint [msg]]
          end).
  destruct rb as [[]|[cls msg|cls msg]]; simpl.
  - split; [by unfold tr2, tr1; rewrite <- !app_assoc|]. split; [done|].
    intros X op e evs1 evs2 Hin Heq.
    destruct (Hsplit X op e evs1 evs2 evs_b Hin Heq) as [k Hk].
    by destruct (Hlast k (EvCall op (Err e)) evs2 e eq_refl Hk).
  - split; [by unfold tr2, tr1; rewrite <- !app_assoc|]. split; [done|].
    intros X op e evs1 evs2 Hin Heq.
    destruct (Hsplit X op e evs1 evs2 (evs_b ++ [EvPrint [msg]]) Hin Heq)
      as [k Hk].
    apply split_before_last in Hk as (b & Hk & ->); [|done].
    destruct (Hlast k (EvCall op (Err e)) b e eq_refl Hk) as [[= <-] ->]. done.
  - split; [by unfold tr2, tr1; rewrite <- !app_assoc|]. split.
    { intros Hord. exfalso.
      assert (is_exception (BaseException cls msg)) as H; [|done].
      apply (run_raises (fun _ _ r => ordinary r) is_exception w body
               (tr2 ++ evs_m)).
      - done.
      - by apply gen_mesh_body_raises.
      - by rewrite Hrun. }
    intros X op e evs1 evs2 Hin Heq.
    destruct (Hsplit X op e evs1 evs2 evs_b Hin Heq) as [k Hk].
    destruct (Hlast k (EvCall op (Err e)) evs2 e eq_refl Hk) as [[= <-] ->]. done.
Qed.
End Caught.

Section CheckpointMore.
Context {E : Externals}.
Implicit Types ok : forall X : Type, Op X -> result X -> Prop.

Lemma raises_under_getattr_bind ok {B} (Q : exn -> Prop) opt name
    (f : Val -> prog Op B) :
  Q (AttributeError name) ->
  (forall v, opt !! name = Some v -> raises_under ok Q (f v)) ->
  raises_under ok Q (getattr opt name ≫= f).
Proof.
  intros Hq Hf. rewrite bind_unfold. unfold getattr.
  destruct (opt !! name); simpl; auto.
Qed.

Lemma failed_loading_attr name : failed_loading (AttributeError name).
Proof. right. right. by exists name. Qed.

Lemma failed_loading_type : failed_loading TypeError.
Proof. right. by left. Qed.

Lemma select_checkpoint_raises ok opt :
  raises_under ok failed_loading (select_checkpoint opt).
Proof.
  unfold select_checkpoint.
  apply raises_under_getattr_bind; [apply failed_loading_attr|]. intros p _.
  destruct (decide (p = VNone)); [|done].
  apply raises_under_getattr_bind; [apply failed_loading_attr|]. intros e' _.
  apply raises_under_lift_bind.
  { intros e0 He0. destruct e'; simpl in He0; try done;
      injection He0 as <-; apply failed_loading_type. }
  intros [|] _.
  - apply raises_under_getattr_bind; [apply failed_loading_attr|]. intros c _.
    apply raises_under_getattr_bind; [apply failed_loading_attr|]. intros n _.
    done.
  - apply raises_under_getattr_bind; [apply failed_loading_attr|]. intros c _.
    apply raises_under_getattr_bind; [apply failed_loading_attr|]. intros n _.
    apply raises_under_getattr_bind; [apply failed_loading_attr|]. intros e'' _.
    apply raises_under_lift_bind; [|done].
    intros e0 He0. destruct e''; simpl in He0; try done;
      injection He0 as <-; apply failed_loading_type.
Qed.

Lemma select_checkpoint_calls ok P opt :
  calls_under ok P (select_checkpoint opt).
Proof. unfold select_checkpoint. repeat calls_step. Qed.

Lemma load_checkpoint_missing opt :
  calls_under checkpoint_missing is_path_exists (load_checkpoint opt) /\
  results_under checkpoint_missing (fun _ => False) (load_checkpoint opt) /\
  raises_under checkpoint_missing failed_loading (load_checkpoint opt).
Proof.
  unfold load_checkpoint. repeat split.
  - apply calls_under_bind_all; [apply select_checkpoint_calls|].
    intros [p opt1].
    apply calls_under_bind_all; [apply calls_under_getattr|]. intros s.
    apply calls_under_bind_all; [apply calls_under_getattr|]. intros e.
    apply calls_under_call_bind; [done|]. intros v Hv. simpl in Hv.
    by injection Hv as ->.
  - apply results_under_bind.
    eapply results_under_mono; [|apply results_under_True].
    intros [p opt1] _.
    apply results_under_getattr_bind. intros s _.
    apply results_under_getattr_bind. intros e _.
    apply results_under_call_bind_ok. intros v Hv. simpl in Hv.
    by injection Hv as ->.
  - apply raises_under_bind; [apply select_checkpoint_raises|].
    eapply results_under_mono; [|apply results_under_True].
    intros [p opt1] _.
    apply raises_under_getattr_bind; [apply failed_loading_attr|]. intros s _.
    apply raises_under_getattr_bind; [apply failed_loading_attr|]. intros e _.
    apply raises_under_call_bind; [done|]. intros v Hv. simpl in Hv.
    injection Hv as ->. simpl. by left.
Qed.

(** X17.  When the checkpoint file does not exist, [recon] raises
    (failed loading state dict, unless an option is missing or ill-typed)
    and has called nothing but [os.path.exists]: nothing is loaded, no
    dataset or network is built, no directory is created. *)
Theorem recon_without_checkpoint_file (w : world Op) opt :
  (forall tr p, w tr _ (path_exists p) = Ok false) ->
  exists e evs,
    run w (recon opt) [] = (Err e, evs) /\
    failed_loading e /\
    Forall (event_sat is_path_exists) evs.
Proof.
  intros Hp.
  assert (forall tr X (op : Op X), checkpoint_missing X op (w tr X op)) as Hw.
  { intros tr X op. destruct op; simpl; auto. }
  destruct (load_checkpoint_missing opt) as (Hc & Hr & He).
  assert (calls_under checkpoint_missing is_path_exists (recon opt)) as Hc'.
  { unfold recon. apply calls_under_bind; [done|].
    eapply results_under_mono; [|exact Hr]. done. }
  assert (results_under checkpoint_missing (fun _ : unit => False) (recon opt)) as Hr'.
  { unfold recon. apply results_under_bind.
    eapply results_under_mono; [|exact Hr]. done. }
  assert (raises_under checkpoint_missing failed_loading (recon opt)) as He'.
  { unfold recon. apply raises_under_bind; [done|].
    eapply results_under_mono; [|exact Hr]. done. }
  destruct (run_new_calls _ _ w (recon opt) [] Hw Hc') as (evs & Htr & Hevs).
  rewrite (run_result_trace w (recon opt)), Htr. simpl.
  destruct (run w (recon opt) []).1 as [a|e] eqn:Hres.
  { exfalso. exact (run_results_under _ _ w (recon opt) [] a Hw Hr' Hres). }
  exists e, evs. split; [done|]. split; [|done].
  exact (run_raises _ _ w (recon opt) [] e Hw He' Hres).
Qed.
End CheckpointMore.

Section Visits.
Context {E : Externals}.

Lemma visited_app (tr1 tr2 : list (event Op)) :
  visited (tr1 ++ tr2) = visited tr1 ++ visited tr2.
Proof. apply omap_app. Qed.

Lemma visited_no_getitem (evs : list (event Op)) :
  Forall (event_sat no_getitem) evs -> visited evs = [].
Proof.
  induction 1 as [|ev evs Hev _ IH]; [done|].
  destruct ev as [X op r|o]; [|exact IH].
  destruct op; try done; exact IH.
Qed.

Lemma run_for_cons {Op' : Type -> Type} {I S} (w : world Op') (i : I) xs
    (body : I -> S -> prog Op' (ctl S)) s tr :
  run w (for_ (i :: xs) body s) tr =
  match run w (body i s) tr with
  | (Ok (Next s'), tr') => run w (for_ xs body s') tr'
  | (Ok (Break s'), tr') => (Ok s', tr')
  | (Err e, tr') => (Err e, tr')
  end.
Proof.
  simpl. rewrite <- bind_unfold, run_bind.
  destruct (run w (body i s) tr) as [[[s'|s']|e] tr']; done.
Qed.

Lemma run_print {Op' : Type -> Type} (w : world Op') o tr :
  run w (print o) tr = (Ok tt, tr ++ [EvPrint o]).
Proof. reflexivity. Qed.

Lemma test_item_round (w : world Op) opt netMR ds i tr :
  i < Z.of_nat (ds_len ds) ->
  exists evs,
    (run w (test_item opt netMR ds i tt) tr).2 =
      tr ++ EvCall (getitem ds i) (w tr _ (getitem ds i)) :: evs /\
    Forall (event_sat no_getitem) evs /\
    (run w (test_item opt netMR ds i tt) tr).1 <> Ok (Break tt).
Proof.
  intros Hi. unfold test_item.
  destruct (Z.leb_spec (Z.of_nat (ds_len ds)) i) as [?|_]; [lia|].
  rewrite run_bind, run_call.
  destruct (w tr _ (getitem ds i)) as [d|e]; cbv beta iota.
  2:{ exists []. done. }
  match goal with
  | |- context [run w ?p ?t] => set (rest := p); set (tr1 := t)
  end.
  assert (calls_under (fun _ _ _ => True) no_getitem rest) as Hc.
  { unfold rest. repeat calls_step.
    apply gen_mesh_calls; intros; try done. by destruct op. }
  assert (results_under (fun _ _ _ => True) (fun c => c = Next tt) rest) as Hr.
  { unfold rest.
    do 4 (apply results_under_getattr_bind; intros).
    apply results_under_bind.
    eapply results_under_mono; [|apply results_under_True].
    intros [] _. reflexivity. }
  destruct (run_new_calls _ _ w rest tr1 (fun _ _ _ => I) Hc) as (evs & Htr & Hevs).
  exists evs. rewrite Htr. unfold tr1. rewrite <- app_assoc. split; [done|].
  split; [done|]. intros Hb.
  by pose proof (run_results _ w rest tr1 _ Hr Hb).
Qed.

Lemma loop_visits (w : world Op) opt netMR ds (n : nat) : forall a tr,
  exists l,
    visited (run w (for_ (seqZ a (Z.of_nat n)) (test_item opt netMR ds) tt) tr).2
      = visited tr ++ l /\
    l `prefix_of` seqZ a (Z.min (Z.of_nat n) (Z.of_nat (ds_len ds) - a)) /\
    ((run w (for_ (seqZ a (Z.of_nat n)) (test_item opt netMR ds) tt) tr).1 = Ok tt ->
     l = seqZ a (Z.min (Z.of_nat n) (Z.of_nat (ds_len ds) - a))).
Proof.
  induction n as [|n IH]; intros a tr.
  - exists []. simpl. rewrite app_nil_r. split; [done|].
    rewrite seqZ_nil by lia. done.
  - rewrite (seqZ_cons a) by lia.
    replace (Z.pred (Z.of_nat (S n))) with (Z.of_nat n) by lia.
    rewrite run_for_cons.
    destruct (Z.le_gt_cases (Z.of_nat (ds_len ds)) a) as [Hlen|Hlen].
    + unfold test_item at 1 3.
      destruct (Z.leb_spec (Z.of_nat (ds_len ds)) a) as [_|?]; [|lia]. simpl.
      exists []. rewrite app_nil_r. split; [done|].
      rewrite seqZ_nil by lia. done.
    + destruct (test_item_round w opt netMR ds a tr ltac:(lia))
        as (evs & Htr & Hevs & Hnb).
      destruct (run w (test_item opt netMR ds a tt) tr) as [r tr'] eqn:Hrun.
      simpl in Htr, Hnb. subst tr'.
      assert (visited (tr ++ EvCall (getitem ds a) (w tr _ (getitem ds a)) :: evs)
              = visited tr ++ [a]) as Hvis.
      { rewrite visited_app. f_equal.
        change (visited (EvCall (getitem ds a) (w tr _ (getitem ds a)) :: evs))
          with (a :: visited evs).
        by rewrite visited_no_getitem. }
      assert (seqZ a (Z.min (Z.of_nat (S n)) (Z.of_nat (ds_len ds) - a)) =
              a :: seqZ (Z.succ a)
                     (Z.min (Z.of_nat n) (Z.of_nat (ds_len ds) - Z.succ a))) as Hseq.
      { rewrite (seqZ_cons a) by lia. do 2 f_equal. lia. }
      rewrite Hseq.
      destruct r as [[[]|[]]|e].
      * destruct (IH (Z.succ a)
                    (tr ++ EvCall (getitem ds a) (w tr _ (getitem ds a)) :: evs))
          as (l & Hl & Hpre & Hall).
        exists (a :: l). rewrite Hl, Hvis, <- app_assoc. split; [done|].
        split; [by apply prefix_cons|]. intros Hok. f_equal. by apply Hall.
      * done.
      * simpl. exists [a]. rewrite Hvis. split; [done|].
        split; [apply prefix_cons, prefix_nil|done].
Qed.

Lemma test_loop_visits (w : world Op) opt netG netMR ds start_id end_id :
  let len := Z.of_nat (ds_len ds) in
  let b := normalize_bounds len start_id end_id in
  let res := run w (test_loop opt netG netMR ds start_id end_id) [] in
  visited res.2 `prefix_of` range b.1 (Z.min b.2 len) /\
  (res.1 = Ok tt -> visited res.2 = range b.1 (Z.min b.2 len)).
Proof.
  intros len b res. subst res b. unfold test_loop. fold len.
  destruct (normalize_bounds len start_id end_id) as [s e] eqn:Hb.
  cbn [fst snd].
  assert (0 <= s) as Hs.
  { unfold normalize_bounds in Hb. injection Hb as <- _.
    destruct (Z.ltb_spec start_id 0); lia. }
  rewrite run_bind, run_call.
  destruct (w [] _ (set_eval netG)) as [[]|err]; cbv beta iota.
  2:{ split; [apply prefix_nil|done]. }
  rewrite run_bind, run_print.
  set (tr0 := [] ++ [EvCall (set_eval netG) (Ok tt)] ++
              [EvPrint ["generate mesh (test) ..."]]).
  rewrite <- app_assoc. fold tr0.
  assert (range s e = seqZ s (Z.of_nat (Z.to_nat (e - s)))) as ->.
  { unfold range. destruct (Z.le_gt_cases 0 (e - s)).
    - by rewrite Z2Nat.id.
    - rewrite !seqZ_nil; [done|lia|lia]. }
  assert (range s (Z.min e len) =
          seqZ s (Z.min (Z.of_nat (Z.to_nat (e - s))) (len - s))) as ->.
  { unfold range. destruct (Z.le_gt_cases 0 (e - s)).
    - f_equal. lia.
    - rewrite !seqZ_nil; [done|lia|lia]. }
  destruct (loop_visits w opt netMR ds (Z.to_nat (e - s)) s tr0) as (l & Hl & Hpre & Hall).
  fold len in Hpre, Hall.
  rewrite Hl. change (visited tr0) with (@nil Z). simpl.
  split; [done|]. exact Hall.
Qed.

(** X19.  Whatever the calls answer, the dataset indices the test loop
    asks for are an initial segment of [range(start, min(end, len))]: in
    order, none twice, none skipped. *)
Theorem test_loop_visits_in_order (w : world Op) opt netG netMR ds start_id end_id :
  visited (run w (test_loop opt netG netMR ds start_id end_id) []).2
  `prefix_of`
  range (normalize_bounds (Z.of_nat (ds_len ds)) start_id end_id).1
        (Z.min (normalize_bounds (Z.of_nat (ds_len ds)) start_id end_id).2
               (Z.of_nat (ds_len ds))).
Proof. apply test_loop_visits. Qed.

(** X20.  When the calls outside the guarded block of [gen_mesh]
    succeed, what the calls inside it raise are instances of [Exception],
    and the options are there, the test loop returns and has asked for
    exactly the indices of [range(start, min(end, len))]. *)
Theorem test_loop_visits_every_item (w : world Op) opt netG netMR ds start_id end_id :
  (forall tr X (op : Op X), outside_succeeds X op (w tr X op)) ->
  (forall tr X (op : Op X), ordinary (w tr X op)) ->
  is_Some (opt !! "results_path") -> is_Some (opt !! "name") ->
  is_Some (opt !! "resolution") -> is_Some (opt !! "use_compose") ->
  (run w (test_loop opt netG netMR ds start_id end_id) []).1 = Ok tt /\
  visited (run w (test_loop opt netG netMR ds start_id end_id) []).2 =
  range (normalize_bounds (Z.of_nat (ds_len ds)) start_id end_id).1
        (Z.min (normalize_bounds (Z.of_nat (ds_len ds)) start_id end_id).2
               (Z.of_nat (ds_len ds))).
Proof.
  intros Hw Hord H1 H2 H3 H4.
  destruct (run_returns (fun X op r => outside_succeeds X op r /\ ordinary r)
              (fun _ => True) w
              (test_loop opt netG netMR ds start_id end_id) [])
    as ([] & Hok & _).
  { by split. }
  { by apply test_loop_returns. }
  { apply results_under_True. }
  split; [done|]. by apply test_loop_visits.
Qed.
End Visits.

Section Colours.
Context {E : Externals}.

Lemma chunk_bounds (n : nat) (j : Z) :
  0 <= j <= Z.of_nat n / interval ->
  slice_bounds (Z.of_nat n) (j * interval)
    (if j =? Z.of_nat n / interval then -1 else (j + 1) * interval)
  = (reached n j, (reached n (j + 1) - reached n j)%nat) /\
  (reached n j <= reached n (j + 1) <= n)%nat.
Proof.
  intros Hj. unfold reached, colored, interval, slice_bounds, clamp_index in *.
  pose proof (Z.div_mod (Z.of_nat n) 100000 ltac:(lia)) as Hdm.
  pose proof (Z.mod_pos_bound (Z.of_nat n) 100000 ltac:(lia)) as Hmb.
  cbv zeta.
  destruct (Z.eqb_spec (Z.of_nat n mod 100000) 0) as [Hm|Hm];
  destruct (Z.eqb_spec j (Z.of_nat n / 100000)) as [Hjk|Hjk];
    repeat match goal with
           | |- context [(?a <? ?b)] => destruct (Z.ltb_spec a b)
           end; (split; [f_equal|]); lia.
Qed.

Lemma painted_length f verts0 n a :
  length verts0 = n -> (a <= n)%nat -> length (painted f verts0 n a) = n.
Proof.
  intros Hlen Ha. unfold painted.
  rewrite length_app, length_fmap, length_take, length_replicate. lia.
Qed.

Lemma painted_step f verts0 n a b :
  length verts0 = n -> (a <= b <= n)%nat ->
  take a (painted f verts0 n a) ++
    (color_of_normal <$> (f <$> take (b - a) (drop a verts0))) ++
    drop (a + (b - a)) (painted f verts0 n a)
  = painted f verts0 n b.
Proof.
  intros Hlen Hab. unfold painted.
  assert (length (color_of_normal ∘ f <$> take a verts0) = a) as Hl.
  { rewrite length_fmap, length_take. lia. }
  rewrite <- Hl at 1. rewrite take_app_length.
  rewrite drop_app_ge by lia. rewrite Hl, drop_replicate.
  assert (take b verts0 = take a verts0 ++ take (b - a) (drop a verts0)) as ->.
  { rewrite take_take_drop. f_equal. lia. }
  rewrite <- list_fmap_compose, fmap_app, <- app_assoc.
  do 3 f_equal. lia.
Qed.

Lemma colorize_rounds (w : world Op) net c verts0 (f : vec3 -> vec3) (n : nat) :
  (forall tr pts c, w tr _ (calc_normal net pts c) = Ok (f <$> pts)) ->
  length verts0 = n ->
  forall (m : nat) (j : Z) tr,
    0 <= j -> j + Z.of_nat m = Z.of_nat n / interval + 1 ->
    (run w (for_ (seqZ j (Z.of_nat m)) (color_chunk net c verts0)
              (painted f verts0 n (reached n j))) tr).1
    = Ok (painted f verts0 n (reached n (Z.of_nat n / interval + 1))).
Proof.
  intros Hw Hlen m.
  induction m as [|m IH]; intros j tr Hj Hjm.
  - simpl. do 3 f_equal. lia.
  - rewrite (seqZ_cons j) by lia.
    replace (Z.pred (Z.of_nat (S m))) with (Z.of_nat m) by lia.
    rewrite run_for_cons.
    destruct (chunk_bounds n j ltac:(lia)) as [Hb [Hr1 Hr2]].
    assert (exists tr',
              run w (color_chunk net c verts0 j (painted f verts0 n (reached n j))) tr =
              (Ok (Next (painted f verts0 n (reached n (Z.succ j)))), tr'))
      as [tr' ->].
    { unfold color_chunk. rewrite (painted_length f verts0 n) by (done || lia).
      assert (slice (j * interval)
                (if j =? Z.of_nat n / interval then -1 else (j + 1) * interval)
                verts0
              = take (reached n (j + 1) - reached n j) (drop (reached n j) verts0))
        as ->.
      { unfold slice. by rewrite Hlen, Hb. }
      rewrite run_bind, run_call, Hw. cbv beta iota.
      unfold assign_slice. rewrite (painted_length f verts0 n) by (done || lia).
      rewrite Hb.
      rewrite decide_True.
      2:{ rewrite !length_fmap, length_take, length_drop. lia. }
      rewrite painted_step by (done || lia).
      replace (Z.succ j) with (j + 1) by lia.
      eexists. reflexivity. }
    apply IH; lia.
Qed.

(** The result of the colouring loop when [calc_normal] answers with the
    normal [f p] of every point [p]. *)
Lemma colorize_result (w : world Op) net c verts0 verts (f : vec3 -> vec3) tr :
  (forall tr pts c, w tr _ (calc_normal net pts c) = Ok (f <$> pts)) ->
  length verts0 = length verts ->
  (run w (colorize net c verts0 verts) tr).1 =
  Ok ((color_of_normal ∘ f <$> take (colored (length verts)) verts0) ++
      replicate (length verts - colored (length verts)) Vec.zero).
Proof.
  intros Hw Hlen. unfold colorize, range. rewrite length_replicate.
  set (n := length verts) in *.
  assert (0 <= Z.of_nat n / interval)%Z as Hk
    by (apply Z.div_pos; unfold interval; lia).
  pose proof (colorize_rounds w net c verts0 f n Hw Hlen
                (Z.to_nat (Z.of_nat n / interval + 1)) 0%Z tr ltac:(lia) ltac:(lia))
    as H.
  rewrite Z2Nat.id in H by lia.
  replace (Z.of_nat n / interval + 1 - 0)%Z with (Z.of_nat n / interval + 1)%Z
    by lia.
  assert (reached n 0 = 0%nat) as H0 by (unfold reached; lia).
  assert (reached n (Z.of_nat n / interval + 1) = colored n) as Hend.
  { assert (Z.of_nat (colored n) <= Z.of_nat n)%Z
      by (unfold colored; destruct (_ =? _)%Z; lia).
    pose proof (Z.div_mod (Z.of_nat n) interval ltac:(unfold interval; lia)).
    pose proof (Z.mod_pos_bound (Z.of_nat n) interval ltac:(unfold interval; lia)).
    unfold reached, interval in *. lia. }
  rewrite H0, Hend in H. unfold painted in H at 1.
  simpl in H. rewrite Nat.sub_0_r in H. exact H.
Qed.

(** X16.  The colours the loop of [gen_mesh] computes, when
    [calc_normal] answers with the normal [f p] of every point [p]: the
    colour of its normal for every vertex when the number of vertices is a
    multiple of [interval], and for every vertex but the last, which stays
    zero, otherwise. *)
Theorem colorize_paints_all_but_last (w : world Op) net c verts0 verts
    (f : vec3 -> vec3) tr :
  (forall tr pts c, w tr _ (calc_normal net pts c) = Ok (f <$> pts)) ->
  length verts0 = length verts ->
  (run w (colorize net c verts0 verts) tr).1 =
  Ok ((color_of_normal ∘ f <$> take (colored (length verts)) verts0) ++
      replicate (length verts - colored (length verts)) Vec.zero).
Proof. apply colorize_result. Qed.
End Colours.

Section Serialized.
Context {E : Externals}.
Local Open Scope R_scope.


End Serialized.

(** X9 on two batch elements of two views. *)
Lemma reshape_multiview_keeps_pairs_witness :
  length (reshape_multiview_tensors [[1; 2]; [3; 4]]%nat [[10; 20]; [30; 40]]%nat).1
    = (length [[1; 2]; [3; 4]]%nat * 2)%nat /\
  length (reshape_multiview_tensors [[1; 2]; [3; 4]]%nat [[10; 20]; [30; 40]]%nat).2
    = (length [[10; 20]; [30; 40]]%nat * 2)%nat /\
  (reshape_multiview_tensors [[1; 2]; [3; 4]]%nat [[10; 20]; [30; 40]]%nat).1
    !! (1 * 2 + 0)%nat = Some 3%nat /\
  (reshape_multiview_tensors [[1; 2]; [3; 4]]%nat [[10; 20]; [30; 40]]%nat).2
    !! (1 * 2 + 0)%nat = Some 30%nat.
Proof.
  apply (reshape_multiview_keeps_pairs [[1; 2]; [3; 4]]%nat
           [[10; 20]; [30; 40]]%nat 2 1 0 [3; 4]%nat [30; 40]%nat 3%nat 30%nat).
  - repeat constructor.
  - repeat constructor.
  - reflexivity.
  - reflexivity.
  - reflexivity.
  - reflexivity.
Defined.

(** X11 in the world where the global filter raises. *)
Lemma gen_mesh_filter_error_propagates_witness :
  exists evs,
    run filter_failing_world
        (gen_mesh (E:=toy_externals) (VInt 512) tt toy_data "a.obj" None None VNone) []
      = (Err (Exception "RuntimeError" "CUDA out of memory"), [] ++ evs) /\
    Forall (event_sat is_filter) evs.
Proof.
  apply (gen_mesh_filter_error_propagates (E:=toy_externals) filter_failing_world).
  left. reflexivity.
Defined.

Lemma failing_world_fails tr X (op : Op X) :
  reconstruction_fails (Exception "RuntimeError" "CUDA out of memory") X op
    (failing_world tr X op).
Proof. by destruct op. Qed.

Lemma toy_world_ordinary sd rec tr X (op : Op X) :
  ordinary rec -> ordinary (toy_world sd rec tr X op).
Proof. intros Hrec. by destruct op. Qed.

(** X12 in the world where [reconstruction] raises. *)
Lemma gen_mesh_failed_reconstruction_leaves_no_mesh_witness :
  exists evs msg,
    run failing_world
        (gen_mesh (E:=toy_externals) (VInt 512) tt toy_data "a.obj" None None VNone) []
      = (Ok tt, [] ++ evs ++ [EvPrint [msg]]) /\
    Forall (event_sat no_mesh) evs /\
    written ([] ++ evs ++ [EvPrint [msg]]) = written (E:=toy_externals) [].
Proof.
  apply (gen_mesh_failed_reconstruction_leaves_no_mesh (E:=toy_externals)
           failing_world (VInt 512) tt toy_data "a.obj" None None VNone []
           (Exception "RuntimeError" "CUDA out of memory")).
  - apply failing_world_fails.
  - intros tr X op. by apply toy_world_ordinary.
Defined.






(** X15 for the save path out/a.obj. *)
Lemma gen_mesh_image_beside_mesh_witness :
  Forall (event_sat (beside "out/a" ".obj"))
    (run (mesh_world 5)
       (gen_mesh (E:=toy_externals) (VInt 512) tt toy_data ("out/a" +:+ ".obj")
          None None VNone) []).2.
Proof.
  apply (gen_mesh_image_beside_mesh (E:=toy_externals) (mesh_world 5)).
  reflexivity.
Defined.

(** X17 in the world without a checkpoint file. *)
Lemma recon_without_checkpoint_file_witness :
  exists e evs,
    run no_file_world (recon cmdline) [] = (Err e, evs) /\
    failed_loading e /\
    Forall (event_sat is_path_exists) evs.
Proof.
  apply (recon_without_checkpoint_file (E:=toy_externals) no_file_world).
  reflexivity.
Defined.

Lemma mesh_world_outside_succeeds n tr X (op : Op X) :
  outside_succeeds X op (mesh_world n tr X op).
Proof. destruct op; simpl; eauto. Qed.

(** X20 on a dataset of two items, with the sentinel bounds. *)
Lemma test_loop_visits_every_item_witness :
  (run (mesh_world 5)
     (test_loop (E:=toy_externals) cmdline tt tt (@mkDataset toy_externals 2 tt)
        (-1) (-1)) []).1 = Ok tt /\
  visited (run (mesh_world 5)
             (test_loop (E:=toy_externals) cmdline tt tt
                (@mkDataset toy_externals 2 tt) (-1) (-1)) []).2 =
  range (normalize_bounds (Z.of_nat (ds_len (@mkDataset toy_externals 2 tt)))
           (-1) (-1)).1
        (Z.min (normalize_bounds (Z.of_nat (ds_len (@mkDataset toy_externals 2 tt)))
                  (-1) (-1)).2
               (Z.of_nat (ds_len (@mkDataset toy_externals 2 tt)))).
Proof.
  apply (test_loop_visits_every_item (E:=toy_externals) (mesh_world 5)).
  - apply mesh_world_outside_succeeds.
  - intros tr X op. by apply toy_world_ordinary.
  - by eexists.
  - by eexists.
  - by eexists.
  - by eexists.
Defined.

(** X16 on five vertices. *)
Lemma colorize_paints_all_but_last_witness :
  (run (mesh_world 5)
     (colorize (E:=toy_externals) tt tt (toy_verts 5) (toy_verts 5)) []).1 =
  Ok ((color_of_normal ∘ (fun _ => Vec.mk 1 0 0)
         <$> take (colored (length (toy_verts 5))) (toy_verts 5)) ++
      replicate (length (toy_verts 5) - colored (length (toy_verts 5))) Vec.zero).
Proof.
  apply (colorize_paints_all_but_last (E:=toy_externals) (mesh_world 5)).
  - reflexivity.
  - reflexivity.
Defined.

(** C7 in a world where every call succeeds; there [recon] hands 0.5 to
    [reconstruction] for each of the two items. *)
Lemma recon_threshold_is_half_witness :
  (Forall (event_sat thresh_is_half) (run (mesh_world 5) (recon cmdline) []).2 /\
   exists tr1 r tr2,
     (run (mesh_world 5)
        (gen_mesh (E:=toy_externals) (VInt 512) tt toy_data "a.obj" None None
           VNone) []).2 =
     [] ++ tr1 ++
       EvCall (reconstruction
                 (@mkReconArgs toy_externals tt (calib toy_data) (VInt 512)
                    (b_min toy_data) (b_max toy_data) 0.5%R true 100000))
              r :: tr2) /\
  thresholds (run (mesh_world 5) (recon cmdline) []).2 = [0.5%R; 0.5%R].
Proof.
  split; [|vm_compute; reflexivity].
  destruct (recon_threshold_is_half (E:=toy_externals) (mesh_world 5) cmdline)
    as [Hsafe Hreach].
  split; [exact Hsafe|].
  apply (Hreach (VInt 512) tt toy_data "a.obj" None None VNone []).
  - discriminate.
  - intros tr X op. by destruct op.
Defined.

(** C9 as stated fails: the user interrupts [reconstruction]; the
    [KeyboardInterrupt] is no instance of [Exception], [gen_mesh] raises
    it without printing anything, and the test loop ends at the first of
    its two items. *)
Lemma gen_mesh_lets_interrupt_through :
  (run interrupted_world
     (gen_mesh (E:=toy_externals) (VInt 512) tt toy_data "a.obj" None None VNone)
     []).1 = Err KeyboardInterrupt /\
  last (run interrupted_world
          (gen_mesh (E:=toy_externals) (VInt 512) tt toy_data "a.obj" None None
             VNone) []).2 =
    Some (EvCall (reconstruction
                    (@mkReconArgs toy_externals tt (calib toy_data) (VInt 512)
                       (b_min toy_data) (b_max toy_data) 0.5%R true 100000))
                 (Err KeyboardInterrupt)) /\
  (run interrupted_world
     (test_loop (E:=toy_externals) cmdline tt tt (@mkDataset toy_externals 2 tt)
        (-1) (-1)) []).1 = Err KeyboardInterrupt /\
  visited (run interrupted_world
             (test_loop (E:=toy_externals) cmdline tt tt
                (@mkDataset toy_externals 2 tt) (-1) (-1)) []).2 = [0].
Proof. repeat split; vm_compute; reflexivity. Qed.

(** C9, amended, in the world where [reconstruction] raises a
    [RuntimeError]; there the test loop goes through both of its items. *)
Lemma gen_mesh_catches_exceptions_witness :
  (exists evs,
     (run failing_world
        (gen_mesh (E:=toy_externals) (VInt 512) tt toy_data "a.obj" None None
           VNone) []).2 = [] ++ evs /\
     ((forall tr' X (op : Op X), ordinary (failing_world tr' X op)) ->
      (run failing_world
         (gen_mesh (E:=toy_externals) (VInt 512) tt toy_data "a.obj" None None
            VNone) []).1 = Ok tt) /\
     forall X (op : Op X) e evs1 evs2,
       in_block X op ->
       evs = evs1 ++ EvCall op (Err e) :: evs2 ->
       match e with
       | Exception _ msg =>
           (run failing_world
              (gen_mesh (E:=toy_externals) (VInt 512) tt toy_data "a.obj" None
                 None VNone) []).1 = Ok tt /\
           evs2 = [EvPrint [msg]]
       | BaseException _ _ =>
           (run failing_world
              (gen_mesh (E:=toy_externals) (VInt 512) tt toy_data "a.obj" None
                 None VNone) []).1 = Err e /\
           evs2 = []
       end) /\
  last (run failing_world
          (gen_mesh (E:=toy_externals) (VInt 512) tt toy_data "a.obj" None None
             VNone) []).2 = Some (EvPrint ["CUDA out of memory"]) /\
  (run failing_world
     (test_loop (E:=toy_externals) cmdline tt tt (@mkDataset toy_externals 2 tt)
        (-1) (-1)) []).1 = Ok tt /\
  visited (run failing_world
             (test_loop (E:=toy_externals) cmdline tt tt
                (@mkDataset toy_externals 2 tt) (-1) (-1)) []).2 = [0; 1].
Proof.
  split; [|repeat split; vm_compute; reflexivity].
  apply (gen_mesh_catches_exceptions (E:=toy_externals) failing_world);
    reflexivity.
Defined.


End ReconFacts.

(** ** [submit_eval]: the job bounds *)

Module SubmitFacts.
Import Py SubmitEval.
Local Open Scope Z_scope.

(** X21.  With two or more splits, and a remainder of the division
    smaller than the quotient, every dataset index below [file_size] lies
    in the bounds of exactly one of the [split_size + 1] jobs. *)
Theorem job_bounds_partition (n s k : Z) :
  2 <= s -> n mod s < n / s -> 0 <= k < n ->
  exists i, i ∈ range 0 (s + 1) /\
    (job_bounds s (n / s) i).1 <= k < (job_bounds s (n / s) i).2 /\
    forall i', i' ∈ range 0 (s + 1) ->
      (job_bounds s (n / s) i').1 <= k < (job_bounds s (n / s) i').2 -> i' = i.
Proof.
  intros Hs Hr Hk. set (q := n / s) in *.
  pose proof (Z.mod_pos_bound n s ltac:(lia)) as Hm.
  pose proof (Z.div_mod n s ltac:(lia)) as Hdm. fold q in Hdm.
  assert (0 < q) as Hq by lia.
  assert (forall i, job_bounds s q i = (i * q, (i + 1) * q)) as Hjb.
  { intros i. unfold job_bounds. destruct (Z.ltb_spec s 2); [lia|done]. }
  pose proof (Z.div_mod k q ltac:(lia)) as Hkq.
  pose proof (Z.mod_pos_bound k q ltac:(lia)) as Hkm.
  exists (k / q). split; [|split].
  - unfold range. apply elem_of_seqZ.
    assert (0 <= k / q) by (apply Z.div_pos; lia).
    assert (k / q < s + 1); [|lia].
    apply Z.div_lt_upper_bound; nia.
  - rewrite Hjb. simpl. nia.
  - intros i' _. rewrite Hjb. simpl. intros Hi'.
    apply (Z.div_unique k q i' (k - i' * q)); lia.
Qed.

(** X21 for 1490 items in four splits, at index 1000. *)
Lemma job_bounds_partition_witness :
  exists i, i ∈ range 0 (4 + 1) /\
    (job_bounds 4 (1490 / 4) i).1 <= 1000
      < (job_bounds 4 (1490 / 4) i).2 /\
    forall i', i' ∈ range 0 (4 + 1) ->
      (job_bounds 4 (1490 / 4) i').1 <= 1000
        < (job_bounds 4 (1490 / 4) i').2 -> i' = i.
Proof.
  apply (job_bounds_partition 1490 4 1000).
  - lia.
  - vm_compute. reflexivity.
  - lia.
Defined.
End SubmitFacts.

(** ** The octree sampler against dense evaluation *)

Module SdfFacts.
Import Vec Sdf Examples.
Local Open Scope R_scope.

Section Octree.
Variable r : rule.
Variable oracle : voxel -> R.





End Octree.


















End SdfFacts.
